(** * Log-source discovery, tailing lifecycle and event fan-out

    A shallow embedding of three components of the agent:

    - the container [Scanner] (pkg/logs/input/container/scanner.go),
    - the [FileProvider] of the file tailer (package tailer),
    - the [eventFanout] of the docker utilities (package docker),

    and of the bundle of Kubernetes events of the cluster checks
    (pkg/collector/corechecks/cluster/kubernetes_eventbundle.go).

    Go strings are byte sequences and are modelled by [string]; Go maps are
    finite maps ([gmap]); a run-time panic is an explicit outcome. *)

From Stdlib Require Import ZArith Ascii String.
From Stdlib Require Floats.SpecFloat DecimalString.
From stdpp Require Import base option list gmap strings.

#[local] Set Warnings "-clear-no-such-hyp".
Local Open Scope Z_scope.

(** ** Outcomes of Go code that may panic *)

Inductive result (A : Type) : Type :=
| Ok (a : A)
| Panic (msg : string).
Arguments Ok {A} a.
Arguments Panic {A} msg.

#[global] Instance result_ret : MRet result := fun _ a => Ok a.

#[global] Instance result_bind : MBind result := fun _ _ k r =>
  match r with
  | Ok a => k a
  | Panic msg => Panic msg
  end.

(** A loop whose body may panic. *)
Fixpoint forEach {A S : Type} (l : list A) (body : A → S → result S) (st : S)
  : result S :=
  match l with
  | [] => Ok st
  | x :: rest => st' ← body x st; forEach rest body st'
  end.

(** ** The functions of Go's [strings] package the sources call *)

Module GoStrings.

(** [s != ""] *)
Definition nonEmpty (s : string) : bool := negb (String.eqb s "").

(** [strings.Split(s, sep)] for a separator of one byte: the pieces between
    the occurrences of the separator, empty pieces included; never the
    empty list. *)
Fixpoint Split (s : string) (sep : ascii) : list string :=
  match s with
  | EmptyString => [EmptyString]
  | String c rest =>
      if Ascii.eqb c sep then EmptyString :: Split rest sep
      else match Split rest sep with
           | [] => [String c EmptyString]
           | piece :: pieces => String c piece :: pieces
           end
  end.

(** [unicode.IsSpace] on the bytes of a string.  The white-space code
    points are U+0009..U+000D, U+0020, U+0085, U+00A0, U+1680,
    U+2000..U+200A, U+2028, U+2029, U+202F, U+205F and U+3000; each has one
    valid UTF-8 encoding, of one, two or three bytes. *)
Definition isSpace1 (a : ascii) : bool :=
  let n := nat_of_ascii a in
  ((9 <=? n) && (n <=? 13))%nat || (n =? 32)%nat.

Definition isSpace2 (a b : ascii) : bool :=
  (nat_of_ascii a =? 194)%nat &&
  ((nat_of_ascii b =? 133) || (nat_of_ascii b =? 160))%nat.

Definition isSpace3 (a b c : ascii) : bool :=
  let x := nat_of_ascii a in
  let y := nat_of_ascii b in
  let z := nat_of_ascii c in
  ((x =? 225) && (y =? 154) && (z =? 128))%nat
  || ((x =? 226) && (y =? 128) &&
      (((128 <=? z) && (z <=? 138)) || (z =? 168) || (z =? 169) || (z =? 175)))%nat
  || ((x =? 226) && (y =? 129) && (z =? 159))%nat
  || ((x =? 227) && (y =? 128) && (z =? 128))%nat.

(** [strings.TrimLeftFunc(s, unicode.IsSpace)]: drop leading white space. *)
Fixpoint trimLeft (s : string) : string :=
  match s with
  | EmptyString => s
  | String a r1 =>
      if isSpace1 a then trimLeft r1
      else match r1 with
           | EmptyString => s
           | String b r2 =>
               if isSpace2 a b then trimLeft r2
               else match r2 with
                    | EmptyString => s
                    | String c r3 =>
                        if isSpace3 a b c then trimLeft r3 else s
                    end
           end
  end.

(** The same from the end, on the reversed bytes: the last rune of a string
    is a white-space rune exactly when the string ends with its encoding. *)
Fixpoint trimLeftRev (s : string) : string :=
  match s with
  | EmptyString => s
  | String a r1 =>
      if isSpace1 a then trimLeftRev r1
      else match r1 with
           | EmptyString => s
           | String b r2 =>
               if isSpace2 b a then trimLeftRev r2
               else match r2 with
                    | EmptyString => s
                    | String c r3 =>
                        if isSpace3 c b a then trimLeftRev r3 else s
                    end
           end
  end.

Definition trimRight (s : string) : string :=
  String.rev (trimLeftRev (String.rev s)).

(** [strings.TrimSpace(s)] *)
Definition TrimSpace (s : string) : string := trimRight (trimLeft s).

(** [strings.FieldsFunc(s, f)] for a predicate on ASCII bytes: the maximal
    runs of bytes that do not satisfy [f]; no field is empty.  [cur] is the
    field being read, reversed. *)
Definition flush (cur : list ascii) : list string :=
  match cur with
  | [] => []
  | _ => [string_of_list_ascii (rev cur)]
  end.

Fixpoint fieldsGo (f : ascii → bool) (cur : list ascii) (s : string) : list string :=
  match s with
  | EmptyString => flush cur
  | String c rest =>
      if f c then flush cur ++ fieldsGo f [] rest
      else fieldsGo f (c :: cur) rest
  end.

Definition FieldsFunc (s : string) (f : ascii → bool) : list string :=
  fieldsGo f [] s.

(** [strings.ContainsAny(s, chars)] for ASCII [chars]. *)
Fixpoint ContainsAny (s : string) (chars : list ascii) : bool :=
  match s with
  | EmptyString => false
  | String c rest => existsb (Ascii.eqb c) chars || ContainsAny rest chars
  end.

(** [s[:n]]: the first [n] bytes; out of range when [len(s) < n]. *)
Fixpoint firstBytes (n : nat) (s : string) : string :=
  match n, s with
  | S m, String c rest => String c (firstBytes m rest)
  | _, _ => EmptyString
  end.

Definition sliceTo (s : string) (n : nat) : result string :=
  if (n <=? String.length s)%nat then Ok (firstBytes n s)
  else Panic "slice bounds out of range".

End GoStrings.

(** ** Configuration entities (package config) *)

Module config.

(** Modelled from the spec: [config.LogsConfig] is declared outside the
    sources at hand.  A source has a kind, a path pattern, an optional image
    filter and an optional label filter. *)
Record LogsConfig : Type := {
  Type_ : string;
  Path : string;
  Image : string;
  Label : string;
}.

(** Modelled from the spec: [config.LogSource] is declared outside the
    sources at hand.  A source carries its configuration and a status sink;
    the sink is a pointer, here an address. *)
Record LogSource : Type := {
  Config : LogsConfig;
  Status : nat;
}.

(** Modelled from the spec: the constants [config.DockerType] and
    [config.FileType], the two kinds of source, are declared outside the
    sources at hand. *)
Definition DockerType : string := "docker".
Definition FileType : string := "file".

(** A container source with the given filters, and a file source. *)
Definition dockerSource (image label : string) (sink : nat) : LogSource :=
  {| Config := {| Type_ := DockerType; Path := ""; Image := image; Label := label |};
     Status := sink |}.

Definition fileSource (path : string) (sink : nat) : LogSource :=
  {| Config := {| Type_ := FileType; Path := path; Image := ""; Label := "" |};
     Status := sink |}.

End config.

(** ** The container snapshot and the client of the container runtime

    These belong to the Docker client library.  [types.Container] carries the
    ID, the image and the labels of a running container.  A [*client.Client]
    may be nil.  [UpdateClientVersion(v)] is
    [if !cli.manualOverride { cli.version = v }] and [ContainerList] builds
    its request from the fields of [cli]: both read their receiver, so
    calling them on nil dereferences nil. *)

Module types.

Record Container : Type := {
  ID : string;
  Image : string;
  Labels : gmap string string;
}.

End types.

Module client.

Record Client : Type := {
  version : string;
  manualOverride : bool;
}.

(** What [ContainerList] answers: the running containers or an error. *)
Inductive answer : Type :=
| Listed (containers : list types.Container)
| ListError (err : string).

Definition UpdateClientVersion (cli : option Client) (v : string)
  : result (option Client) :=
  match cli with
  | None => Panic "nil pointer dereference"
  | Some c =>
      Ok (Some (if manualOverride c then c
                else {| version := v; manualOverride := manualOverride c |}))
  end.

Definition ContainerList (cli : option Client) (daemon : answer)
  : result answer :=
  match cli with
  | None => Panic "nil pointer dereference"
  | Some _ => Ok daemon
  end.

End client.

(** ** The container scanner (pkg/logs/input/container/scanner.go) *)

Module container.
Import GoStrings.

Definition dockerAPIVersion : string := "1.25".

(** Modelled from the spec: [DockerTailer] and [NewDockerTailer] live in
    another file of the package.  A tailer is one read session, keyed by
    the ID of its container, wired to one pipeline channel, with a
    self-reported "should stop" signal that a new tailer has not raised. *)
Record DockerTailer : Type := {
  ContainerID : string;
  source : config.LogSource;
  outputChan : nat;
  shouldStop : bool;
}.

(** Modelled from the spec: [NewDockerTailer], in the same file as
    [DockerTailer].  The new tailer is keyed by the ID of the container. *)
Definition NewDockerTailer (cli : option client.Client)
    (container : types.Container) (source : config.LogSource)
    (outputChan : nat) : DockerTailer :=
  {| ContainerID := types.ID container; source := source;
     outputChan := outputChan; shouldStop := false |}.

(** The calls the scanner makes on its tailers, in order. *)
Inductive call : Type :=
| TailerStop (id : string) (shouldTrackOffset : bool)
| TailFromBeginning (id : string)
| RecoverTailing (id : string).

(** The [Scanner] struct.  [pp] is the pipeline provider, reduced to the
    number of the next channel it hands out; [stopRequested] is the field
    [shouldStop], a name the tailer has taken here; the auditor, the ticker
    and the mutex carry no state of the reconciliation. *)
Record Scanner : Type := {
  pp : nat;
  sources : list config.LogSource;
  tailers : gmap string DockerTailer;
  cli : option client.Client;
  stopRequested : bool;
  calls : list call;
}.

Definition withTailers (f : gmap string DockerTailer → gmap string DockerTailer)
    (s : Scanner) : Scanner :=
  {| pp := pp s; sources := sources s; tailers := f (tailers s);
     cli := cli s; stopRequested := stopRequested s; calls := calls s |}.

Definition withCall (c : call) (s : Scanner) : Scanner :=
  {| pp := pp s; sources := sources s; tailers := tailers s;
     cli := cli s; stopRequested := stopRequested s; calls := calls s ++ [c] |}.

Definition withCli (c : option client.Client) (s : Scanner) : Scanner :=
  {| pp := pp s; sources := sources s; tailers := tailers s;
     cli := c; stopRequested := stopRequested s; calls := calls s |}.

Definition withStop (s : Scanner) : Scanner :=
  {| pp := pp s; sources := sources s; tailers := tailers s;
     cli := cli s; stopRequested := true; calls := calls s |}.

(** Modelled from the spec: [s.pp.NextPipelineChan()], of the pipeline
    provider, declared outside the sources at hand, returns the next
    available output channel. *)
Definition NextPipelineChan (s : Scanner) : nat * Scanner :=
  (pp s,
   {| pp := S (pp s); sources := sources s; tailers := tailers s;
      cli := cli s; stopRequested := stopRequested s; calls := calls s |}).

Definition New (sources : list config.LogSource) (pp : nat) : Scanner :=
  {| pp := pp;
     sources :=
       filter (λ source, config.Type_ (config.Config source) = config.DockerType)
              sources;
     tailers := ∅; cli := None; stopRequested := false; calls := [] |}.

(** [for k, v := range m] over the tailer registry.  The runtime picks the
    order; an entry deleted before it is reached is not produced. *)
Definition rangeTailers (order : list string)
    (body : string → DockerTailer → Scanner → Scanner) (s : Scanner) : Scanner :=
  foldl (λ s k, match tailers s !! k with
                | Some tailer => body k tailer s
                | None => s
                end) s order.

Definition isLabelSep (c : ascii) : bool :=
  Ascii.eqb c ":" || Ascii.eqb c "=".

(** One turn of the loop over the comma-separated labels: the condition of
    the [if]. *)
Definition labelMatches (labels : gmap string string) (value : string) : bool :=
  let label := TrimSpace value in
  let parts := FieldsFunc label isLabelSep in
  bool_decide (is_Some (labels !! label))
  || ((length parts =? 2)%nat
      && String.eqb (default "" (labels !! nth 0 parts "")) (nth 1 parts "")).

Definition sourceShouldMonitorContainer (source : config.LogSource)
    (container : types.Container) : bool :=
  let cfg := config.Config source in
  if nonEmpty (config.Image cfg)
     && negb (String.eqb (types.Image container) (config.Image cfg))
  then false
  else if nonEmpty (config.Label cfg)
  then existsb (labelMatches (types.Labels container))
               (Split (config.Label cfg) ",")
  else true.

Definition stopTailer (tailer : DockerTailer) (s : Scanner) : Scanner :=
  withTailers (delete (ContainerID tailer))
              (withCall (TailerStop (ContainerID tailer) false) s).

Definition humanReadableContainerID (containerID : string) : result string :=
  sliceTo containerID 12.

Definition setupTailer (cli : option client.Client)
    (container : types.Container) (source : config.LogSource)
    (tailFromBeginning : bool) (outputChan : nat) (s : Scanner)
  : result Scanner :=
  _ ← humanReadableContainerID (types.ID container);
  let t := NewDockerTailer cli container source outputChan in
  let s := withCall (if tailFromBeginning
                     then TailFromBeginning (ContainerID t)
                     else RecoverTailing (ContainerID t)) s in
  Ok (withTailers (insert (types.ID container) t) s).

Definition listContainers (daemon : client.answer) (s : Scanner)
  : result (list types.Container) :=
  a ← client.ContainerList (cli s) daemon;
  match a with
  | client.Listed containers => Ok containers
  | client.ListError _ => Ok []
  end.

(** The body of the two nested loops of [scan]. *)
Definition monitor (tailFromBeginning : bool) (container : types.Container)
    (source : config.LogSource) (st : Scanner * gmap string bool)
  : result (Scanner * gmap string bool) :=
  let '(s, containersToMonitor) := st in
  if sourceShouldMonitorContainer source container then
    let containersToMonitor := <[types.ID container := true]> containersToMonitor in
    let '(s, isTailed) :=
      match tailers s !! types.ID container with
      | Some tailer =>
          if shouldStop tailer then (stopTailer tailer s, false) else (s, true)
      | None => (s, false)
      end in
    if isTailed then Ok (s, containersToMonitor)
    else
      let '(outputChan, s) := NextPipelineChan s in
      s ← setupTailer (cli s) container source tailFromBeginning outputChan s;
      Ok (s, containersToMonitor)
  else Ok st.

Definition stopOld (containersToMonitor : gmap string bool)
    (containerID : string) (tailer : DockerTailer) (s : Scanner) : Scanner :=
  match containersToMonitor !! containerID with
  | Some _ => s
  | None => stopTailer tailer s
  end.

Section runtime.
(** The order in which the Go runtime walks a map. *)
Variable rangeOrder : gmap string DockerTailer → list string.

Definition scan (tailFromBeginning : bool) (daemon : client.answer)
    (s : Scanner) : result Scanner :=
  if stopRequested s then Ok s
  else
    runningContainers ← listContainers daemon s;
    '(s, containersToMonitor) ←
      forEach runningContainers
        (λ container, forEach (sources s) (monitor tailFromBeginning container))
        (s, ∅);
    Ok (rangeTailers (rangeOrder (tailers s)) (stopOld containersToMonitor) s).

(** [Stop]: every tailer is stopped (each in its own goroutine, all
    awaited) and deleted. *)
Definition Stop (s : Scanner) : Scanner :=
  let s := withStop s in
  rangeTailers (rangeOrder (tailers s))
    (λ _ tailer s,
       withTailers (delete (ContainerID tailer))
                   (withCall (TailerStop (ContainerID tailer) true) s))
    s.

(** What the environment gives [setup]: the result of
    [client.NewEnvClient()], a client pointer and an error, and the
    answer of the daemon to the first listing. *)
Record environment : Type := {
  NewEnvClient : option client.Client * option string;
  daemon : client.answer;
}.

Definition setup (env : environment) (s : Scanner)
  : result (option string * Scanner) :=
  if (length (sources s) =? 0)%nat
  then Ok (Some "No container source defined", s)
  else
    let '(cli, err) := NewEnvClient env in
    cli ← client.UpdateClientVersion cli dockerAPIVersion;
    let s := withCli cli s in
    match err with
    | Some _ => Ok (Some "Can't initialize client", s)
    | None =>
        (* tagger.Init(): a failure is only logged *)
        s ← scan false (daemon env) s;
        Ok (None, s)
    end.

(** [Start] returns nothing; the model returns the scanner afterwards and
    whether [go s.run()] was executed. *)
Definition Start (env : environment) (s : Scanner) : result (Scanner * bool) :=
  '(err, s) ← setup env s;
  match err with
  | None => Ok (s, true)
  | Some _ => Ok (s, false)
  end.
End runtime.

(** The predicate as the specification words it: the image filter decides
    alone when there is one, else the label filter, else everything
    matches. *)
Definition spec_entryMatches (labels : gmap string string) (entry : string) : bool :=
  bool_decide (is_Some (labels !! entry))
  || match FieldsFunc entry isLabelSep with
     | [key; value] => bool_decide (labels !! key = Some value)
     | _ => false
     end.

Definition spec_labelsMatch (labels : gmap string string) (filter : string) : bool :=
  existsb (spec_entryMatches labels) (map TrimSpace (Split filter ",")).

Definition spec_shouldMonitor (source : config.LogSource)
    (container : types.Container) : bool :=
  let cfg := config.Config source in
  if nonEmpty (config.Image cfg)
  then String.eqb (types.Image container) (config.Image cfg)
  else if nonEmpty (config.Label cfg)
  then spec_labelsMatch (types.Labels container) (config.Label cfg)
  else true.

(** *** Notions the statements about [scan] use *)

(** Some source of the list matches the container. *)
Definition matched (sources : list config.LogSource) (c : types.Container) : bool :=
  existsb (λ source, sourceShouldMonitorContainer source c) sources.

(** The IDs of the containers of a snapshot that some source matches. *)
Definition monitoredIDs (sources : list config.LogSource)
    (containers : list types.Container) : gset string :=
  list_to_set (types.ID <$> filter (λ c, matched sources c = true) containers).

(** Every tailer is registered under the ID of its own container. *)
Definition keyed (m : gmap string DockerTailer) : Prop :=
  ∀ k t, m !! k = Some t → ContainerID t = k.

(** What the panic of [humanReadableContainerID] says. *)
Definition oob : string := "slice bounds out of range".

Definition added (b : bool) (c : types.Container) : gset string :=
  if b then {[types.ID c]} else ∅.

(** What the visits of one container do to the scanner and to
    [containersToMonitor], [b] telling whether a source matched. *)
Record step (b : bool) (c : types.Container)
    (s : Scanner) (ctm : gmap string bool)
    (s' : Scanner) (ctm' : gmap string bool) : Prop := {
  step_sources : sources s' = sources s;
  step_cli : cli s' = cli s;
  step_stop : stopRequested s' = stopRequested s;
  step_ctm : dom ctm' = added b c ∪ dom ctm;
  step_keyed : keyed (tailers s) → keyed (tailers s');
  step_dom : keyed (tailers s) → dom (tailers s') = added b c ∪ dom (tailers s);
  step_len : keyed (tailers s) → b = true →
             types.ID c ∈ dom (tailers s) ∨ (12 ≤ String.length (types.ID c))%nat;
}.

(** The same for the whole snapshot. *)
Record pass (srcs : list config.LogSource) (cs : list types.Container)
    (s : Scanner) (ctm : gmap string bool)
    (s' : Scanner) (ctm' : gmap string bool) : Prop := {
  pass_sources : sources s' = sources s;
  pass_cli : cli s' = cli s;
  pass_stop : stopRequested s' = stopRequested s;
  pass_ctm : dom ctm' = monitoredIDs srcs cs ∪ dom ctm;
  pass_keyed : keyed (tailers s) → keyed (tailers s');
  pass_dom : keyed (tailers s) →
             dom (tailers s') = monitoredIDs srcs cs ∪ dom (tailers s);
  pass_len : keyed (tailers s) → ∀ c, c ∈ cs → matched srcs c = true →
             types.ID c ∈ dom (tailers s) ∨ (12 ≤ String.length (types.ID c))%nat;
}.

(** What the loop over the registry leaves: the tailers walked that are
    not to be monitored are gone, the others are untouched. *)
Definition swept (ctm : gmap string bool) (order : list string)
    (s s' : Scanner) : Prop :=
  sources s' = sources s ∧ cli s' = cli s ∧ stopRequested s' = stopRequested s
  ∧ keyed (tailers s')
  ∧ ∀ k, tailers s' !! k
         = if decide (k ∈ order ∧ ctm !! k = None) then None else tailers s !! k.

End container.

(** ** The file provider (package tailer) *)

Module tailer.
Import GoStrings.

Record File : Type := {
  Path : string;
  Source : config.LogSource;
}.

Definition NewFile (path : string) (source : config.LogSource) : File :=
  {| Path := path; Source := source |}.

Record FileProvider : Type := {
  sources : list config.LogSource;
  filesLimit : Z;
}.

Definition NewFileProvider (sources : list config.LogSource) (filesLimit : Z)
  : FileProvider :=
  {| sources := sources; filesLimit := filesLimit |}.

(** What [filepath.Glob] returns: the matches in the order the expansion
    reports them, or [ErrBadPattern]. *)
Inductive globResult : Type :=
| Matches (paths : list string)
| ErrBadPattern.

(** The status sinks, kept as the sequence of the errors recorded, each
    with the address of its sink. *)
Abbreviation statusLog := (list (nat * string)).

(** Modelled from the spec: [Status.Error(err)] of [config.LogStatus],
    declared outside the sources at hand, records an error on the status
    sink of a source. *)
Definition StatusError (source : config.LogSource) (err : string)
    (log : statusLog) : statusLog :=
  log ++ [(config.Status source, err)].

Definition containsWildcards (path : string) : bool :=
  ContainsAny path ["*"; "?"; "["]%char.

(** The inner loop: [for j := 0; j < len(paths) && len(filesToTail) <
    r.filesLimit; j++]. *)
Fixpoint appendPaths (filesLimit : Z) (paths : list string)
    (source : config.LogSource) (filesToTail : list File) : list File :=
  match paths with
  | [] => filesToTail
  | path :: rest =>
      if Z.of_nat (length filesToTail) <? filesLimit
      then appendPaths filesLimit rest source (filesToTail ++ [NewFile path source])
      else filesToTail
  end.

Section filesystem.
Variable Glob : string → globResult.

(** The body of the outer loop for one source. *)
Definition visit (filesLimit : Z) (source : config.LogSource)
    (st : list File * statusLog) : list File * statusLog :=
  let '(filesToTail, log) := st in
  let path := config.Path (config.Config source) in
  if negb (containsWildcards path)
  then (filesToTail ++ [NewFile path source], log)
  else
    let pattern := path in
    match Glob pattern with
    | ErrBadPattern =>
        (filesToTail,
         StatusError source
           ("Malformed pattern, could not find any file: " +:+ pattern) log)
    | Matches paths =>
        if (length paths =? 0)%nat
        then
          (filesToTail,
           StatusError source
             ("No file are matching pattern " +:+ pattern +:+
              ", check directories permissions") log)
        else (appendPaths filesLimit paths source filesToTail, log)
    end.

(** The outer loop: [for i := 0; i < len(r.sources) && len(filesToTail) <
    r.filesLimit; i++]. *)
Fixpoint walk (filesLimit : Z) (sources : list config.LogSource)
    (st : list File * statusLog) : list File * statusLog :=
  match sources with
  | [] => st
  | source :: rest =>
      if Z.of_nat (length (fst st)) <? filesLimit
      then walk filesLimit rest (visit filesLimit source st)
      else st
  end.

(** [FilesToTail], with the calls made on the status sinks and whether
    the saturation warning is logged. *)
Definition FilesToTailLogged (r : FileProvider) (log : statusLog)
  : list File * statusLog * bool :=
  let '(filesToTail, log) := walk (filesLimit r) (sources r) ([], log) in
  (filesToTail, log, Z.of_nat (length filesToTail) =? filesLimit r).

Definition FilesToTail (r : FileProvider) : list File :=
  fst (fst (FilesToTailLogged r [])).

(** What one source adds when nothing stops it. *)
Definition contribution (source : config.LogSource) : list File :=
  let path := config.Path (config.Config source) in
  if negb (containsWildcards path) then [NewFile path source]
  else match Glob path with
       | ErrBadPattern => []
       | Matches paths => (λ p, NewFile p source) <$> paths
       end.

(** Whether the expansion of a wildcarded source fails or finds nothing. *)
Definition barren (source : config.LogSource) : bool :=
  containsWildcards (config.Path (config.Config source))
  && match Glob (config.Path (config.Config source)) with
     | ErrBadPattern => true
     | Matches paths => (length paths =? 0)%nat
     end.
End filesystem.

(** The errors recorded on one sink. *)
Definition errorsOn (sink : nat) (log : statusLog) : list string :=
  (filter (λ e, e.1 = sink) log).*2.

End tailer.

(** ** The event fan-out (package docker, over pkg/util/fanout) *)

Module fanout.

(** Modelled from the spec: [fanout.Config] is declared outside the sources
    at hand.  A configuration has a name, a write timeout (a
    [time.Duration], a signed count of nanoseconds) and an output buffer
    size (an [int]). *)
Record Config : Type := {
  Name : string;
  WriteTimeout : Z;
  OutputBufferSize : Z;
}.

(** Modelled from the spec: [fanout.ErrWriteTimeout], declared outside the
    sources at hand, is the error of a write that timed out. *)
Definition ErrWriteTimeout : string :=
  "timeout while writing to channel, disconnecting".

End fanout.

Module docker.

(** [io.EOF] *)
Definition EOF : string := "EOF".

(** A channel: its capacity, what it holds, and whether it is closed.
    Channels live in a heap, one per element type, as Go's types keep a
    [chan *ContainerEvent], a [chan error] and a [chan struct{}] apart.
    A [*ContainerEvent] is an address. *)
Record chan (A : Type) : Type := {
  capacity : Z;
  buffer : list A;
  closed : bool;
}.
Arguments capacity {A} c.
Arguments buffer {A} c.
Arguments closed {A} c.

Abbreviation heap A := (gmap nat (chan A)).

(** What the runtime checks when it makes a channel (runtime/chan.go,
    [makechan]): the buffer and the header of the channel have to fit in
    the largest allocation.  On the 64-bit platforms [maxAlloc] is 2^48
    bytes since Go 1.11; the header takes 96 or 104 bytes by the version of
    the runtime, and the larger is taken.  A pointer takes 8 bytes and an
    interface value, as an [error] is, 16. *)
Definition maxAlloc : Z := 2 ^ 48.
Definition hchanSize : Z := 104.
Definition pointerSize : Z := 8.
Definition interfaceSize : Z := 16.

(** The bytes a channel of so many elements takes. *)
Definition chanBytes (elemSize size : Z) : Z := hchanSize + elemSize * size.

(** [make(chan A, size)], for elements of [elemSize] bytes, with [memory]
    bytes that the runtime can still allocate: the new channel and the
    memory left.  A size out of range panics; when the memory does not
    suffice the runtime ends the process with a fatal error, which is
    recorded like a panic that nothing recovers. *)
Definition make {A : Type} (elemSize size memory : Z) (h : heap A)
  : result (nat * heap A * Z) :=
  if (size <? 0) || (maxAlloc - hchanSize <? elemSize * size)
  then Panic "makechan: size out of range"
  else if memory <? chanBytes elemSize size
  then Panic "runtime: out of memory"
  else
    let a := fresh (dom h) in
    Ok (a, <[a := {| capacity := size; buffer := []; closed := false |}]> h,
        memory - chanBytes elemSize size).

(** A send that does not wait: [true] when the value went into the buffer.
    A nil channel never accepts; a closed one panics. *)
Definition offer {A : Type} (a : nat) (v : A) (h : heap A) : result (bool * heap A) :=
  match h !! a with
  | None => Ok (false, h)
  | Some c =>
      if closed c then Panic "send on closed channel"
      else if Z.of_nat (length (buffer c)) <? capacity c
      then Ok (true, <[a := {| capacity := capacity c; buffer := buffer c ++ [v];
                               closed := false |}]> h)
      else Ok (false, h)
  end.

(** [close(ch)] *)
Definition close {A : Type} (a : nat) (h : heap A) : result (heap A) :=
  match h !! a with
  | None => Panic "close of nil channel"
  | Some c =>
      if closed c then Panic "close of closed channel"
      else Ok (<[a := {| capacity := capacity c; buffer := buffer c;
                         closed := true |}]> h)
  end.

Record eventOutput : Type := {
  dataOutput : nat;
  errorOutput : nat;
  writeTimeout : Z;
}.

(** The [eventFanout] struct.  Before [Setup] the channels and the map are
    nil. *)
Record eventFanout : Type := {
  config : fanout.Config;
  dataInput : option nat;
  errorInput : option nat;
  stopChan : option nat;
  listeners : option (gmap string eventOutput);
  running : bool;
}.

(** The instance, the channels, and how many times [go f.dispatch()] was
    executed; and what the program does not decide: for the sends with a
    write timeout still to come, in turn, whether the timer fires before
    the send is taken (no entry left: it does not), and the bytes the
    runtime can still allocate. *)
Record state : Type := {
  events : heap nat;
  errors : heap string;
  signals : heap unit;
  fan : eventFanout;
  dispatchers : nat;
  timers : list bool;
  memory : Z;
}.

(** The zero value of the struct, with no channel allocated; no timer is
    due to fire before its send, and the runtime has 1 GiB to allocate. *)
Definition zero : state :=
  {| events := ∅; errors := ∅; signals := ∅;
     fan := {| config := {| fanout.Name := ""; fanout.WriteTimeout := 0;
                            fanout.OutputBufferSize := 0 |};
               dataInput := None; errorInput := None; stopChan := None;
               listeners := None; running := false |};
     dispatchers := 0; timers := []; memory := 2 ^ 30 |}.

(** An operation returns, panics, or waits on a channel nobody serves. *)
Inductive outcome (A : Type) : Type :=
| Done (a : A) (st : state)
| Panicked (msg : string)
| Blocked (st : state).
Arguments Done {A} a st.
Arguments Panicked {A} msg.
Arguments Blocked {A} st.

Definition withListeners (m : option (gmap string eventOutput)) (st : state) : state :=
  {| events := events st; errors := errors st; signals := signals st;
     fan := {| config := config (fan st); dataInput := dataInput (fan st);
               errorInput := errorInput (fan st); stopChan := stopChan (fan st);
               listeners := m; running := running (fan st) |};
     dispatchers := dispatchers st; timers := timers st; memory := memory st |}.

Definition withRunning (b : bool) (st : state) : state :=
  {| events := events st; errors := errors st; signals := signals st;
     fan := {| config := config (fan st); dataInput := dataInput (fan st);
               errorInput := errorInput (fan st); stopChan := stopChan (fan st);
               listeners := listeners (fan st); running := b |};
     dispatchers := dispatchers st; timers := timers st; memory := memory st |}.

Definition withEvents (h : heap nat) (st : state) : state :=
  {| events := h; errors := errors st; signals := signals st;
     fan := fan st; dispatchers := dispatchers st; timers := timers st;
     memory := memory st |}.

Definition withErrors (h : heap string) (st : state) : state :=
  {| events := events st; errors := h; signals := signals st;
     fan := fan st; dispatchers := dispatchers st; timers := timers st;
     memory := memory st |}.

Definition withSignals (h : heap unit) (st : state) : state :=
  {| events := events st; errors := errors st; signals := h;
     fan := fan st; dispatchers := dispatchers st; timers := timers st;
     memory := memory st |}.

Definition withTimers (l : list bool) (st : state) : state :=
  {| events := events st; errors := errors st; signals := signals st;
     fan := fan st; dispatchers := dispatchers st; timers := l;
     memory := memory st |}.

Definition withMemory (m : Z) (st : state) : state :=
  {| events := events st; errors := errors st; signals := signals st;
     fan := fan st; dispatchers := dispatchers st; timers := timers st;
     memory := m |}.

(** Reading a map that may be nil. *)
Definition listener (name : string) (st : state) : option eventOutput :=
  m ← listeners (fan st); m !! name.

(** [Setup] *)
Definition Setup (cfg : fanout.Config) (st : state)
  : outcome (option nat * option nat * option string) :=
  if fanout.WriteTimeout cfg =? 0
  then Done (None, None, Some "WriteTimeout must be higher than 0") st
  else if fanout.OutputBufferSize cfg =? 0
  then Done (None, None, Some "OutputBufferSize must be higher than 0") st
  else if String.eqb (fanout.Name cfg) ""
  then Done (None, None, Some "Name can't be empty") st
  else
    let d := fresh (dom (events st)) in
    let e := fresh (dom (errors st)) in
    let s := fresh (dom (signals st)) in
    Done (Some d, Some e, None)
      {| events := <[d := {| capacity := 0; buffer := []; closed := false |}]> (events st);
         errors := <[e := {| capacity := 0; buffer := []; closed := false |}]> (errors st);
         signals := <[s := {| capacity := 1; buffer := []; closed := false |}]> (signals st);
         fan := {| config := cfg; dataInput := Some d; errorInput := Some e;
                   stopChan := Some s; listeners := Some ∅;
                   running := running (fan st) |};
         dispatchers := dispatchers st; timers := timers st; memory := memory st |}.

(** [f.stopChan <- struct{}{}]: a send that waits for room. *)
Definition signalStop {A : Type} (ret : A) (st : state) : outcome A :=
  match stopChan (fan st) with
  | None => Blocked st
  | Some a =>
      match offer a () (signals st) with
      | Panic msg => Panicked msg
      | Ok (true, h) => Done ret (withSignals h st)
      | Ok (false, _) => Blocked st
      end
  end.

(** [Stop] *)
Definition Stop (st : state) : outcome unit := signalStop () st.

(** [Suscribe] *)
Definition Suscribe (name : string) (st : state)
  : outcome (option nat * option nat * option string) :=
  match listener name st with
  | Some _ =>
      Done (None, None,
            Some ("listener " +:+ name +:+ " is already suscribed to "
                  +:+ fanout.Name (config (fan st)))) st
  | None =>
      match make pointerSize (fanout.OutputBufferSize (config (fan st)))
              (memory st) (events st) with
      | Panic msg => Panicked msg
      | Ok (d, hd, rest) =>
          match make interfaceSize 2 rest (errors st) with
          | Panic msg => Panicked msg
          | Ok (e, he, rest) =>
              let out := {| dataOutput := d; errorOutput := e;
                            writeTimeout := fanout.WriteTimeout (config (fan st)) |} in
              match listeners (fan st) with
              | None => Panicked "assignment to entry in nil map"
              | Some m =>
                  let st := withListeners (Some (<[name := out]> m))
                              (withErrors he (withEvents hd (withMemory rest st))) in
                  Done (Some d, Some e, None)
                    (if running (fan st) then st
                     else {| events := events st; errors := errors st;
                             signals := signals st; fan := fan st;
                             dispatchers := S (dispatchers st);
                             timers := timers st; memory := memory st |})
              end
          end
      end
  end.

(** The next send with a write timeout: whether its timer fires before
    the send is taken, and the state with the timers still to come. *)
Definition nextTimer (st : state) : bool * state :=
  match timers st with
  | [] => (false, st)
  | first :: rest => (first, withTimers rest st)
  end.

(** [sendData] and [sendError]: a [select] between the send and
    [time.After(o.writeTimeout)].  With room in the buffer the send can be
    taken at once, and the timer case can be taken as well once the timeout
    has elapsed: at once with a timeout of zero or less, which [Setup]
    accepts when it is negative, after a few instructions with a timeout of
    some nanoseconds, and with any timeout when the goroutine is held up
    between the two.  Which of the two is taken is not the program's to
    decide: it is read off [timers].  When the timer is taken the channel
    is not touched, closed or not.  The consumers run on their own; a send
    that finds no room is taken to time out, as when the consumer does not
    receive within the write timeout. *)
Definition sendData (o : eventOutput) (data : nat) (st : state)
  : result (option string * state) :=
  let '(timerFirst, st) := nextTimer st in
  if timerFirst : bool then Ok (Some fanout.ErrWriteTimeout, st)
  else
    '(sent, h) ← offer (dataOutput o) data (events st);
    Ok (if sent : bool then None else Some fanout.ErrWriteTimeout, withEvents h st).

Definition sendError (o : eventOutput) (err : string) (st : state)
  : result (option string * state) :=
  let '(timerFirst, st) := nextTimer st in
  if timerFirst : bool then Ok (Some fanout.ErrWriteTimeout, st)
  else
    '(sent, h) ← offer (errorOutput o) err (errors st);
    Ok (if sent : bool then None else Some fanout.ErrWriteTimeout, withErrors h st).

(** [eventOutput.close] *)
Definition closeOutput (o : eventOutput) (err : string) (st : state) : result state :=
  '(_, st) ← sendError o err st;
  hd ← close (dataOutput o) (events st);
  he ← close (errorOutput o) (errors st);
  Ok (withErrors he (withEvents hd st)).

(** [UnsuscribeWithError] *)
Definition UnsuscribeWithError (name : string) (err : string) (st : state)
  : outcome (bool * option string) :=
  match listener name st with
  | None =>
      Done (false,
            Some ("listener " +:+ name +:+ " is not suscribed to "
                  +:+ fanout.Name (config (fan st)))) st
  | Some out =>
      match closeOutput out err st with
      | Panic msg => Panicked msg
      | Ok st =>
          let st := withListeners (delete name <$> listeners (fan st)) st in
          if running (fan st)
             && (size (default ∅ (listeners (fan st))) =? 0)%nat
          then signalStop (true, None) st
          else Done (false, None) st
      end
  end.

(** [Unsuscribe] *)
Definition Unsuscribe (name : string) (st : state) : outcome (bool * option string) :=
  UnsuscribeWithError name EOF st.

(** *** The dispatch loop

    [dispatch] first sets [running]; each turn of its loop then waits on
    the stop channel, the data input and the error input, and serves the
    one that fires.  A Go map is walked in an order the runtime picks;
    here in the order of [map_to_list]. *)
Definition dispatchStart (st : state) : state := withRunning true st.

Inductive selected : Type :=
| OnStop
| OnData (data : nat)
| OnError (err : string).

(** [<-f.stopChan] *)
Definition takeSignal (st : state) : option state :=
  a ← stopChan (fan st);
  c ← signals st !! a;
  match buffer c with
  | _ :: rest =>
      Some (withSignals (<[a := {| capacity := capacity c; buffer := rest;
                                   closed := closed c |}]> (signals st)) st)
  | [] => if closed c then Some st else None
  end.

(** The stop branch: close and delete every listener. *)
Definition closeAll (st : state) : result state :=
  forEach (map_to_list (default ∅ (listeners (fan st))))
    (λ '(name, _) st,
       match listener name st with
       | None => Ok st
       | Some output =>
           st ← closeOutput output EOF st;
           Ok (withListeners (delete name <$> listeners (fan st)) st)
       end)
    st.

(** One broadcast round: the listeners that failed, with their error. *)
Definition broadcast (send : eventOutput → state → result (option string * state))
    (st : state) : result (gmap string string * state) :=
  forEach (map_to_list (default ∅ (listeners (fan st))))
    (λ '(name, output) '(badListeners, st),
       '(err, st) ← send output st;
       Ok (match err with
           | Some e => <[name := e]> badListeners
           | None => badListeners
           end, st))
    (∅, st).

(** After the round: unsubscribe the listeners that failed.  What
    [UnsuscribeWithError] returns is dropped. *)
Fixpoint evict (badListeners : list (string * string)) (st : state) : outcome bool :=
  match badListeners with
  | [] => Done true st
  | (name, err) :: rest =>
      match UnsuscribeWithError name err st with
      | Done _ st => evict rest st
      | Panicked msg => Panicked msg
      | Blocked st => Blocked st
      end
  end.

Definition round (send : eventOutput → state → result (option string * state))
    (st : state) : outcome bool :=
  match broadcast send st with
  | Panic msg => Panicked msg
  | Ok (badListeners, st) => evict (map_to_list badListeners) st
  end.

(** One turn of the loop, given the case of the [select] that fires;
    [false] when [dispatch] returns. *)
Definition dispatchStep (sel : selected) (st : state) : outcome bool :=
  match sel with
  | OnStop =>
      match takeSignal st with
      | None => Blocked st
      | Some st =>
          match closeAll st with
          | Panic msg => Panicked msg
          | Ok st => Done false (withRunning false st)
          end
      end
  | OnData data =>
      match dataInput (fan st) with
      | None => Blocked st
      | Some _ => round (λ o, sendData o data) st
      end
  | OnError err =>
      match errorInput (fan st) with
      | None => Blocked st
      | Some _ => round (λ o, sendError o err) st
      end
  end.

(** *** Notions the statements about the fan-out use *)

(** The state an operation leaves. *)
Definition after {A : Type} (o : outcome A) : state :=
  match o with
  | Done _ st => st
  | Panicked _ => zero
  | Blocked st => st
  end.

(** The channel at an address exists and is not closed. *)
Definition open {A : Type} (h : heap A) (a : nat) : Prop :=
  ∃ c, h !! a = Some c ∧ closed c = false.

(** The runtime can make the two channels of a subscription: the size of
    the data buffer is in the range [makechan] accepts, and the memory
    suffices for the data channel and the error channel. *)
Definition affordable (st : state) : Prop :=
  0 ≤ fanout.OutputBufferSize (config (fan st))
  ∧ pointerSize * fanout.OutputBufferSize (config (fan st)) ≤ maxAlloc - hchanSize
  ∧ chanBytes pointerSize (fanout.OutputBufferSize (config (fan st)))
    + chanBytes interfaceSize 2 ≤ memory st.

End docker.

(** ** Concrete inputs *)

Module samples.

Definition order0 (m : gmap string container.DockerTailer) : list string :=
  elements (dom m).

Definition cli0 : client.Client :=
  {| client.version := "1.25"; client.manualOverride := false |}.

(** A scanner after [New] over one source without filters, with its
    client set. *)
Definition ready : container.Scanner :=
  container.withCli (Some cli0) (container.New [config.dockerSource "" "" 0] 0).

Definition redis : types.Container :=
  {| types.ID := "4f5a6b7c8d9e0123"; types.Image := "redis:latest";
     types.Labels := {[ "low.card.label" := "globalmetricslow" ]} |}.

Definition shortID : types.Container :=
  {| types.ID := "abc"; types.Image := "busybox:latest"; types.Labels := ∅ |}.

(** A registry that holds a tailer under an ID that is not its own. *)
Definition misfiled : container.Scanner :=
  container.withTailers
    (insert "0a1b2c3d4e5f6789"
       {| container.ContainerID := "4f5a6b7c8d9e0123";
          container.source := config.dockerSource "" "" 0;
          container.outputChan := 0%nat; container.shouldStop := false |})
    ready.

Definition src_both : config.LogSource := config.dockerSource "nginx" "env:prod" 0.

Definition staging : types.Container :=
  {| types.ID := "0a1b2c3d4e5f6789"; types.Image := "nginx";
     types.Labels := {[ "env" := "staging" ]} |}.

(** The client constructor fails: a nil client and an error. *)
Definition unreachable : container.environment :=
  {| container.NewEnvClient := (None, Some "unable to parse docker host");
     container.daemon := client.Listed [] |}.

Definition syslog : config.LogSource := config.fileSource "/var/log/syslog" 0.
Definition appLogs : config.LogSource := config.fileSource "/var/log/app/*.log" 1.
Definition nginxLogs : config.LogSource := config.fileSource "/var/log/nginx/*.log" 2.
Definition kernLog : config.LogSource := config.fileSource "/var/log/kern.log" 3.

(** A filesystem where only the nginx pattern finds files. *)
Definition disk (pattern : string) : tailer.globResult :=
  if String.eqb pattern "/var/log/nginx/*.log"
  then tailer.Matches ["/var/log/nginx/access.log"; "/var/log/nginx/error.log"]
  else tailer.Matches [].

Definition negativeTimeout : fanout.Config :=
  {| fanout.Name := "events"; fanout.WriteTimeout := -1;
     fanout.OutputBufferSize := 1 |}.

Definition negativeSize : fanout.Config :=
  {| fanout.Name := "events"; fanout.WriteTimeout := 1000000000;
     fanout.OutputBufferSize := -1 |}.

Definition events5 : fanout.Config :=
  {| fanout.Name := "events"; fanout.WriteTimeout := 1000000000;
     fanout.OutputBufferSize := 5 |}.

Definition events1 : fanout.Config :=
  {| fanout.Name := "events"; fanout.WriteTimeout := 1000000000;
     fanout.OutputBufferSize := 1 |}.

Definition configured : docker.state := docker.after (docker.Setup events5 docker.zero).

Definition subscribed : docker.state :=
  docker.after (docker.Suscribe "a" configured).

(** A running instance whose one listener has a full buffer, and a stop
    signal that the loop has not served yet. *)
Definition stopPending : docker.state :=
  let st := docker.after (docker.Setup events1 docker.zero) in
  let st := docker.after (docker.Suscribe "a" st) in
  let st := docker.dispatchStart st in
  let st := docker.after (docker.dispatchStep (docker.OnData 1%nat) st) in
  docker.after (docker.Stop st).

End samples.

(** ** Notions the further statements about the scanner use *)

Module scanning.
Import GoStrings container.

(** No registered tailer has raised its should-stop signal. *)
Definition healthy (m : gmap string DockerTailer) : Prop :=
  ∀ k t, m !! k = Some t → shouldStop t = false.

(** The containers a listing yields: none when the listing fails. *)
Definition snapshot (daemon : client.answer) : list types.Container :=
  match daemon with
  | client.Listed containers => containers
  | client.ListError _ => []
  end.

(** The calls a scan in a given mode may make on tailers. *)
Definition allowed (tailFromBeginning : bool) (c : call) : Prop :=
  match c with
  | TailerStop _ shouldTrackOffset => shouldTrackOffset = false
  | TailFromBeginning _ => tailFromBeginning = true
  | RecoverTailing _ => tailFromBeginning = false
  end.

(** A state of the first loop of [scan]: the scanner and
    [containersToMonitor].  Every container to monitor is tailed by a
    tailer whose should-stop signal is not raised. *)
Definition tracked (st : Scanner * gmap string bool) : Prop :=
  ∀ k, k ∈ dom st.2 → ∃ t, tailers st.1 !! k = Some t ∧ shouldStop t = false.

(** A tailer whose should-stop signal is not raised is left where it is. *)
Definition kept (s s' : Scanner) : Prop :=
  ∀ k t, tailers s !! k = Some t → shouldStop t = false → tailers s' !! k = Some t.

(** The calls made from one scanner to the other are allowed ones. *)
Definition called (tailFromBeginning : bool) (s s' : Scanner) : Prop :=
  ∃ new, calls s' = calls s ++ new ∧ Forall (allowed tailFromBeginning) new.

(** From one state of the first loop of [scan] to a later one. *)
Definition advances (tailFromBeginning : bool)
    (st st' : Scanner * gmap string bool) : Prop :=
  keyed (tailers st.1) → tracked st →
  keyed (tailers st'.1) ∧ tracked st' ∧ kept st.1 st'.1
  ∧ called tailFromBeginning st.1 st'.1.

(** The container a call on a tailer is made for. *)
Definition target (c : call) : string :=
  match c with
  | TailerStop id _ | TailFromBeginning id | RecoverTailing id => id
  end.

(** The calls made from one scanner to the other leave a container
    alone. *)
Definition quiet (k : string) (s s' : Scanner) : Prop :=
  ∃ new, calls s' = calls s ++ new ∧ Forall (λ c, target c ≠ k) new.

(** From one state of the first loop of [scan] to a later one: a tailer of
    the container whose should-stop signal is not raised stays, and no
    call is made for the container. *)
Definition spares (k : string) (st st' : Scanner * gmap string bool) : Prop :=
  keyed (tailers st.1) →
  (∃ t, tailers st.1 !! k = Some t ∧ shouldStop t = false) →
  keyed (tailers st'.1)
  ∧ (∃ t, tailers st'.1 !! k = Some t ∧ shouldStop t = false)
  ∧ quiet k st.1 st'.1.

(** Nothing to do: every container to monitor is tailed by a healthy
    tailer. *)
Definition settledFor (s : Scanner) (c : types.Container) : Prop :=
  ∃ t, tailers s !! types.ID c = Some t ∧ shouldStop t = false.

(** Stopping one tailer and dropping it from the registry, as [stopTailer]
    does with [false] and [Stop] with [true]. *)
Definition stopWith (shouldTrackOffset : bool) (tailer : DockerTailer)
    (s : Scanner) : Scanner :=
  withTailers (delete (ContainerID tailer))
              (withCall (TailerStop (ContainerID tailer) shouldTrackOffset) s).
End scanning.

(** ** Notions the further statements about the fan-out use *)

Module dispatching.
Import docker.

(** A channel has room for one more value. *)
Definition room {A : Type} (c : chan A) : bool :=
  Z.of_nat (length (buffer c)) <? capacity c.

(** A channel after a value went into its buffer, and after [close]. *)
Definition push {A : Type} (v : A) (c : chan A) : chan A :=
  {| capacity := capacity c; buffer := buffer c ++ [v]; closed := closed c |}.

Definition shut {A : Type} (c : chan A) : chan A :=
  {| capacity := capacity c; buffer := buffer c; closed := true |}.

(** What a send with timeout leaves of a channel when its timer does not
    fire first, and whether it does or not. *)
Definition sent {A : Type} (v : A) (c : chan A) : chan A :=
  if room c then push v c else c.

Definition offered {A : Type} (timerFirst : bool) (v : A) (c : chan A) : chan A :=
  if timerFirst then c else sent v c.

(** The states the operations keep to: the map is allocated, the outputs
    of every listener are open channels, two listeners share no channel,
    and the stop channel is an open channel of capacity 1. *)
Record sound (st : state) : Prop := {
  sound_map : is_Some (listeners (fan st));
  sound_open : ∀ name out, listener name st = Some out →
               open (events st) (dataOutput out) ∧ open (errors st) (errorOutput out);
  sound_apart : ∀ n1 n2 o1 o2,
      listener n1 st = Some o1 → listener n2 st = Some o2 → n1 ≠ n2 →
      dataOutput o1 ≠ dataOutput o2 ∧ errorOutput o1 ≠ errorOutput o2;
  sound_stop : ∃ a c, stopChan (fan st) = Some a ∧ signals st !! a = Some c
                      ∧ closed c = false ∧ capacity c = 1;
}.

(** The state after the output of a listener was closed with an error, by
    whether the timer of the send of the error fired first, and after the
    listener was removed as well. *)
Definition shutOutput (timerFirst : bool) (out : eventOutput) (err : string)
    (st : state) : state :=
  withErrors (alter (λ c, shut (offered timerFirst err c)) (errorOutput out)
                (errors st))
    (withEvents (alter shut (dataOutput out) (events st)) st).

Definition removed (timerFirst : bool) (name : string) (out : eventOutput)
    (err : string) (st : state) : state :=
  withListeners (delete name <$> listeners (fan st))
    (shutOutput timerFirst out err st).

Definition dropped (name : string) (out : eventOutput) (err : string)
    (st : state) : state :=
  removed (nextTimer st).1 name out err (nextTimer st).2.

(** An operation returns or waits, and leaves a sound state. *)
Definition safe {A : Type} (o : outcome A) : Prop :=
  match o with
  | Done _ st | Blocked st => sound st
  | Panicked _ => False
  end.

(** The state [Suscribe] leaves when the name is new. *)
Definition joined (name : string) (st : state) : state :=
  let d := fresh (dom (events st)) in
  let e := fresh (dom (errors st)) in
  {| events := <[d := {| capacity := fanout.OutputBufferSize (config (fan st));
                          buffer := []; closed := false |}]> (events st);
     errors := <[e := {| capacity := 2; buffer := []; closed := false |}]> (errors st);
     signals := signals st;
     fan := {| config := config (fan st); dataInput := dataInput (fan st);
               errorInput := errorInput (fan st); stopChan := stopChan (fan st);
               listeners := insert name {| dataOutput := d; errorOutput := e;
                                           writeTimeout := fanout.WriteTimeout (config (fan st)) |}
                            <$> listeners (fan st);
               running := running (fan st) |};
     dispatchers := if running (fan st) then dispatchers st else S (dispatchers st);
     timers := timers st;
     memory := memory st
               - chanBytes pointerSize (fanout.OutputBufferSize (config (fan st)))
               - chanBytes interfaceSize 2 |}.

(** The state after the listeners of a list were closed, each with its
    error, and removed. *)
Fixpoint dropAll (l : list (string * string)) (st : state) : state :=
  match l with
  | [] => st
  | (name, err) :: l =>
      dropAll l (match listener name st with
                 | Some out => dropped name out err st
                 | None => st
                 end)
  end.

(** The data channels no listener of the state holds, and the same for the
    error channels. *)
Definition spareData (st : state) (a : nat) : Prop :=
  ∀ name out, listener name st = Some out → dataOutput out ≠ a.
Definition spareError (st : state) (a : nat) : Prop :=
  ∀ name out, listener name st = Some out → errorOutput out ≠ a.

(** A send to the output of a listener returns and keeps the state sound. *)
Definition gentle (send : eventOutput → state → result (option string * state)) : Prop :=
  ∀ name o st, sound st → listener name st = Some o →
    ∃ err st', send o st = Ok (err, st') ∧ sound st' ∧ fan st' = fan st.

(** The data channel of an output has room. *)
Definition roomFor (h : heap nat) (out : eventOutput) : bool :=
  match h !! dataOutput out with
  | Some c => room c
  | None => false
  end.

(** The names of a list of listeners whose data channel has no room. *)
Definition slow (h : heap nat) (l : list (string * eventOutput)) : list string :=
  (filter (λ p, roomFor h p.2 = false) l).*1.

End dispatching.

(** ** The bundle of Kubernetes events (package cluster) *)

(** What the sources call of [fmt], [strings] and [math]. *)
Module GoText.

(** The verb [%d] on an integer. *)
Definition decimal (z : Z) : string :=
  DecimalString.NilZero.string_of_int (Z.to_int z).

(** [strings.Join] *)
Fixpoint Join (parts : list string) (sep : string) : string :=
  match parts with
  | [] => ""
  | [part] => part
  | part :: rest => part +:+ sep +:+ Join rest sep
  end.

(** The line feed. *)
Definition nl : string := String (ascii_of_nat 10) EmptyString.

(** A [float64] is an IEEE 754 binary64 number. *)
Abbreviation float64 := SpecFloat.spec_float.

(** The zero value of a [float64]. *)
Definition zeroFloat : float64 := SpecFloat.S754_zero false.

(** The conversion [float64(x)] of an [int64]: to the nearest, ties to
    even. *)
Definition ofInt64 (x : Z) : float64 := SpecFloat.binary_normalize 53 1024 x 0 false.

Definition isPosInf (x : float64) : bool :=
  match x with SpecFloat.S754_infinity false => true | _ => false end.

Definition isNaN (x : float64) : bool :=
  match x with SpecFloat.S754_nan => true | _ => false end.

Definition isZero (x : float64) : bool :=
  match x with SpecFloat.S754_zero _ => true | _ => false end.

Definition signbit (x : float64) : bool :=
  match x with
  | SpecFloat.S754_zero s | SpecFloat.S754_infinity s
  | SpecFloat.S754_finite s _ _ => s
  | SpecFloat.S754_nan => false
  end.

(** [math.Max] *)
Definition Max (x y : float64) : float64 :=
  if isPosInf x || isPosInf y then SpecFloat.S754_infinity false
  else if isNaN x || isNaN y then SpecFloat.S754_nan
  else if isZero x && isZero y then (if signbit x then y else x)
  else if SpecFloat.SFltb y x then x else y.

(** The conversion [int64(f)]: the fraction is dropped; a value out of
    range gives the smallest [int64], as the amd64 instruction does. *)
Definition toInt64 (f : float64) : Z :=
  match f with
  | SpecFloat.S754_zero _ => 0
  | SpecFloat.S754_finite s m e =>
      let magnitude := if 0 <=? e then Z.pos m * 2 ^ e else Z.pos m / 2 ^ (- e) in
      let v := if s then - magnitude else magnitude in
      if (- 2 ^ 63 <=? v) && (v <? 2 ^ 63) then v else - 2 ^ 63
  | _ => - 2 ^ 63
  end.

(** An [int] has 64 bits; its sum wraps around. *)
Definition wrapInt (z : Z) : Z := (z + 2 ^ 63) mod 2 ^ 64 - 2 ^ 63.

End GoText.

(** The types of github.com/ericchiang/k8s the bundle reads, with the
    fields it reads; every field is a pointer, nil when unset. *)
Module v1.

Record Time : Type := { Seconds : option Z }.

Record ObjectMeta : Type := { CreationTimestamp : option Time }.

Record ObjectReference : Type := {
  Kind : option string;
  Name : option string;
  Uid : option string;
}.

Record Event : Type := {
  Metadata : option ObjectMeta;
  InvolvedObject : option ObjectReference;
  Reason : option string;
  Message : option string;
  LastTimestamp : option Time;
  Count : option Z;
}.

End v1.

Module metrics.

(** The fields of [metrics.Event] the bundle fills. *)
Record Event : Type := {
  Title : string;
  Text : string;
  Ts : Z;
  Priority : string;
  Host : string;
  SourceTypeName : string;
  EventType : string;
  AggregationKey : string;
}.

(** [metrics.Event{}] *)
Definition zeroEvent : Event :=
  {| Title := ""; Text := ""; Ts := 0; Priority := ""; Host := "";
     SourceTypeName := ""; EventType := ""; AggregationKey := "" |}.

End metrics.

Module cluster.
Import GoText.

Record kubernetesEventBundle : Type := {
  objUid : string;
  readableKey : string;
  component : string;
  events : list v1.Event;
  timeStamp : float64;
  lastTimestamp : float64;
  countByAction : gmap string Z;
}.

(** [newKubernetesEventBundler] *)
Definition newKubernetesEventBundler (objUid compName : string) : kubernetesEventBundle :=
  {| objUid := objUid; readableKey := ""; component := compName; events := [];
     timeStamp := zeroFloat; lastTimestamp := zeroFloat; countByAction := ∅ |}.

(** Reading through a pointer. *)
Definition deref {A : Type} (p : option A) : result A :=
  match p with
  | Some a => Ok a
  | None => Panic "invalid memory address or nil pointer dereference"
  end.

(** [fmt.Sprintf("**%s**: %s\n", reason, message)] *)
Definition actionKey (reason message : string) : string :=
  "**" +:+ reason +:+ "**: " +:+ message +:+ nl.

(** [addEvent]: the bundle after the call and the error returned. *)
Definition addEvent (event : option v1.Event) (k : kubernetesEventBundle)
  : result (kubernetesEventBundle * option string) :=
  match event with
  | None => Ok (k, Some "could not retrieve some parent attributes of the event")
  | Some ev =>
      match v1.InvolvedObject ev with
      | None => Ok (k, Some "could not retrieve some parent attributes of the event")
      | Some obj =>
          match v1.Reason ev, v1.Message ev, v1.Name obj, v1.Kind obj with
          | Some reason, Some message, Some name, Some kind =>
              uid ← deref (v1.Uid obj);
              if negb (String.eqb uid (objUid k))
              then Ok (k, Some ("mismatching Object UIDs: " +:+ uid +:+ " != "
                                +:+ objUid k))
              else
                meta ← deref (v1.Metadata ev);
                created ← deref (v1.CreationTimestamp meta);
                createdSeconds ← deref (v1.Seconds created);
                let timeStamp' := Max (timeStamp k) (ofInt64 createdSeconds) in
                last ← deref (v1.LastTimestamp ev);
                lastSeconds ← deref (v1.Seconds last);
                let lastTimestamp' := Max timeStamp' (ofInt64 lastSeconds) in
                count ← deref (v1.Count ev);
                let key := actionKey reason message in
                Ok ({| objUid := objUid k;
                       readableKey := name +:+ " " +:+ kind;
                       component := component k;
                       events := events k ++ [ev];
                       timeStamp := timeStamp';
                       lastTimestamp := lastTimestamp';
                       countByAction :=
                         <[key := wrapInt (default 0 (countByAction k !! key) + count)]>
                           (countByAction k) |}, None)
          | _, _, _, _ =>
              Ok (k, Some "could not retrieve some attributes of the event")
          end
      end
  end.

Section environment.
(** [metrics.EventPriorityNormal] and [kubernetesAPIServerCheckName], two
    string constants declared elsewhere; how a time of so many seconds
    since the epoch prints in the local time zone; the order in which a
    map is ranged over. *)
Variable EventPriorityNormal : string.
Variable kubernetesAPIServerCheckName : string.
Variable formatTime : Z → string.
Variable rangeOrder : gmap string Z → list string.

(** [formatStringIntMap] *)
Definition formatStringIntMap (input : gmap string Z) : string :=
  Join ((λ k, decimal (default 0 (input !! k)) +:+ " " +:+ k) <$> rangeOrder input) " ".

(** [formatEvents] *)
Definition formatEvents (hostname : string) (modified : bool)
    (k : kubernetesEventBundle) : metrics.Event * option string :=
  if (length (events k) =? 0)%nat
  then (metrics.zeroEvent, Some "no event to export")
  else
    if modified
    then ({| metrics.Title := "Events from the " +:+ readableKey k;
             metrics.Text :=
               "%%% " +:+ nl
               +:+ (formatStringIntMap (countByAction k) +:+ " " +:+ nl
                    +:+ " _Events emitted by the " +:+ component k +:+ " seen at "
                    +:+ formatTime (toInt64 (lastTimestamp k)) +:+ "_ " +:+ nl)
               +:+ nl +:+ " %%%";
             metrics.Ts := toInt64 (lastTimestamp k);
             metrics.Priority := EventPriorityNormal;
             metrics.Host := hostname;
             metrics.SourceTypeName := "kubernetes";
             metrics.EventType := kubernetesAPIServerCheckName;
             metrics.AggregationKey := "kubernetes_apiserver:" +:+ objUid k |}, None)
    else ({| metrics.Title := "Events from the " +:+ readableKey k;
             metrics.Text :=
               "%%% " +:+ nl
               +:+ (formatStringIntMap (countByAction k) +:+ " " +:+ nl
                    +:+ " _New events emitted by the " +:+ component k +:+ " seen at "
                    +:+ formatTime (toInt64 (timeStamp k)) +:+ "_ " +:+ nl)
               +:+ nl +:+ " %%%";
             metrics.Ts := toInt64 (timeStamp k);
             metrics.Priority := EventPriorityNormal;
             metrics.Host := hostname;
             metrics.SourceTypeName := "kubernetes";
             metrics.EventType := kubernetesAPIServerCheckName;
             metrics.AggregationKey := "kubernetes_apiserver:" +:+ objUid k |}, None).
End environment.

(** *** Notions the statements about the bundle use *)

(** The bundles that [addEvent] calls make of a new bundle. *)
Inductive built (uid comp : string) : kubernetesEventBundle → Prop :=
| built_new : built uid comp (newKubernetesEventBundler uid comp)
| built_add k event k' err :
    built uid comp k → addEvent event k = Ok (k', err) → built uid comp k'.




(** An event has every field [addEvent] reads, and is about an object. *)
Definition complete (uid : string) (ev : v1.Event) : Prop :=
  ∃ obj meta created last,
    v1.InvolvedObject ev = Some obj ∧ v1.Uid obj = Some uid
    ∧ is_Some (v1.Name obj) ∧ is_Some (v1.Kind obj)
    ∧ is_Some (v1.Reason ev) ∧ is_Some (v1.Message ev)
    ∧ v1.Metadata ev = Some meta ∧ v1.CreationTimestamp meta = Some created
    ∧ is_Some (v1.Seconds created)
    ∧ v1.LastTimestamp ev = Some last ∧ is_Some (v1.Seconds last)
    ∧ is_Some (v1.Count ev).

End cluster.

Module scenarios.
Import cluster.

Definition podRef : v1.ObjectReference :=
  {| v1.Kind := Some "Pod"; v1.Name := Some "dca-789976f5d7-2ljx6";
     v1.Uid := Some "e6417a7f-f566-11e7-9749-0e4863e1cbf4" |}.

Definition scheduled : v1.Event :=
  {| v1.Metadata := Some {| v1.CreationTimestamp := Some {| v1.Seconds := Some 709662600 |} |};
     v1.InvolvedObject := Some podRef;
     v1.Reason := Some "Scheduled";
     v1.Message := Some "Successfully assigned dca-789976f5d7-2ljx6 to ip-10-0-0-54";
     v1.LastTimestamp := Some {| v1.Seconds := Some 709662600 |};
     v1.Count := Some 2 |}.

Definition pod : kubernetesEventBundle :=
  newKubernetesEventBundler "e6417a7f-f566-11e7-9749-0e4863e1cbf4" "default-scheduler".

(** The same event without its count. *)
Definition uncounted : v1.Event :=
  {| v1.Metadata := v1.Metadata scheduled; v1.InvolvedObject := Some podRef;
     v1.Reason := v1.Reason scheduled; v1.Message := v1.Message scheduled;
     v1.LastTimestamp := v1.LastTimestamp scheduled; v1.Count := None |}.

Definition keys (m : gmap string Z) : list string := elements (dom m).

(** The scanner [ready] while it tails the container [redis]. *)
Definition redisTailer : container.DockerTailer :=
  {| container.ContainerID := "4f5a6b7c8d9e0123";
     container.source := config.dockerSource "" "" 0;
     container.outputChan := 0%nat; container.shouldStop := false |}.

Definition tailing : container.Scanner :=
  container.withTailers (insert "4f5a6b7c8d9e0123" redisTailer) samples.ready.

(** A daemon that answers, with one container running. *)
Definition reachable : container.environment :=
  {| container.NewEnvClient := (Some samples.cli0, None);
     container.daemon := client.Listed [samples.redis] |}.

Definition byLabel : config.LogSource := config.dockerSource "" "low.card.label" 0.

(** The container [redis] with one more label. *)
Definition relabelled : types.Container :=
  {| types.ID := types.ID samples.redis; types.Image := types.Image samples.redis;
     types.Labels := <["env" := "prod"]> (types.Labels samples.redis) |}.

(** An instance with one listener: before and after its loop has started,
    and after a [Stop] the loop has not served yet. *)
Definition looping : docker.state := docker.dispatchStart samples.subscribed.

Definition stopSent : docker.state := docker.after (docker.Stop looping).

(** The instance [looping] when the timer of its next send fires before
    the send is taken. *)
Definition hurried : docker.state := docker.withTimers [true] looping.

(** A configuration that [Setup] accepts, with a buffer size that no
    channel can have. *)
Definition hugeSize : fanout.Config :=
  {| fanout.Name := "events"; fanout.WriteTimeout := 1000000000;
     fanout.OutputBufferSize := 2 ^ 62 |}.

(** A running instance with two listeners: the buffer of "a" is full, the
    buffer of "b" has room. *)
Definition uneven : docker.state :=
  let st := docker.after (docker.Setup samples.events1 docker.zero) in
  let st := docker.after (docker.Suscribe "a" st) in
  let st := docker.dispatchStart st in
  let st := docker.after (docker.dispatchStep (docker.OnData 1%nat) st) in
  docker.after (docker.Suscribe "b" st).

(** An event about another object than the one of [pod]. *)
Definition stranger : v1.Event :=
  {| v1.Metadata := v1.Metadata scheduled;
     v1.InvolvedObject :=
       Some {| v1.Kind := Some "Node"; v1.Name := Some "ip-10-0-0-54";
               v1.Uid := Some "1b2c3d4e-f566-11e7-9749-0e4863e1cbf4" |};
     v1.Reason := Some "Starting"; v1.Message := Some "Starting kubelet.";
     v1.LastTimestamp := v1.LastTimestamp scheduled; v1.Count := Some 1 |}.

(** The bundle [pod] after it took the event [scheduled]. *)
Definition podScheduled : kubernetesEventBundle :=
  match addEvent (Some scheduled) pod with
  | Ok (k, _) => k
  | Panic _ => pod
  end.

End scenarios.

(** * Properties *)

(** ** Sanity checks of the string functions *)

Example Split_ex : GoStrings.Split "a:b, c" "," = ["a:b"; " c"].
Proof. reflexivity. Qed.

Example Split_empty_pieces : GoStrings.Split ",a," "," = [""; "a"; ""].
Proof. reflexivity. Qed.

Example TrimSpace_ex : GoStrings.TrimSpace "  a b  " = "a b".
Proof. reflexivity. Qed.

(** U+00A0 before and U+2028 after, in UTF-8. *)
Example TrimSpace_unicode :
  GoStrings.TrimSpace
    (String (ascii_of_nat 194) (String (ascii_of_nat 160)
       ("env" +:+ String (ascii_of_nat 226) (String (ascii_of_nat 128)
          (String (ascii_of_nat 168) "")))))
  = "env".
Proof. reflexivity. Qed.

Example FieldsFunc_ex :
  GoStrings.FieldsFunc "a::b=" container.isLabelSep = ["a"; "b"].
Proof. reflexivity. Qed.

(** ** The match predicate *)

Section predicate.
Import GoStrings container samples.

Lemma flush_nonempty cur x : x ∈ flush cur → x ≠ "".
Proof.
  destruct cur as [|a cur]; simpl; [by intros ?%elem_of_nil|].
  intros ->%list_elem_of_singleton.
  destruct (rev cur) as [|b l]; discriminate.
Qed.

Lemma fieldsGo_nonempty f s : ∀ cur x, x ∈ fieldsGo f cur s → x ≠ "".
Proof.
  induction s as [|c s IH]; intros cur x; simpl.
  - apply flush_nonempty.
  - destruct (f c).
    + intros [?|?]%elem_of_app; eauto using flush_nonempty.
    + apply IH.
Qed.

Lemma FieldsFunc_nonempty s f x : x ∈ FieldsFunc s f → x ≠ "".
Proof. apply fieldsGo_nonempty. Qed.

Lemma eqb_default_lookup (labels : gmap string string) key value :
  value ≠ "" →
  String.eqb (default "" (labels !! key)) value
  = bool_decide (labels !! key = Some value).
Proof.
  intros Hne. symmetry. destruct (labels !! key) as [w|]; cbn -[String.eqb bool_decide].
  - destruct (String.eqb_spec w value) as [->|Hn].
    + by apply bool_decide_eq_true_2.
    + apply bool_decide_eq_false_2. by intros [= ->].
  - destruct (String.eqb_spec "" value) as [<-|]; [done|].
    by apply bool_decide_eq_false_2.
Qed.

Lemma labelMatches_entry labels value :
  labelMatches labels value = spec_entryMatches labels (TrimSpace value).
Proof.
  unfold labelMatches, spec_entryMatches. f_equal.
  pose proof (FieldsFunc_nonempty (TrimSpace value) isLabelSep) as Hne.
  destruct (FieldsFunc (TrimSpace value) isLabelSep) as [|k [|v [|w parts]]];
    simpl; try done.
  apply eqb_default_lookup, Hne. set_solver.
Qed.

Lemma labels_loop labels filter :
  existsb (labelMatches labels) (Split filter ",")
  = spec_labelsMatch labels filter.
Proof.
  unfold spec_labelsMatch. induction (Split filter ",") as [|e l IH]; simpl; [done|].
  by rewrite labelMatches_entry, IH.
Qed.

(** The code applies both filters. *)
Lemma sourceShouldMonitorContainer_both source container :
  sourceShouldMonitorContainer source container
  = (negb (nonEmpty (config.Image (config.Config source)))
     || String.eqb (types.Image container) (config.Image (config.Config source)))
    && (negb (nonEmpty (config.Label (config.Config source)))
        || spec_labelsMatch (types.Labels container)
             (config.Label (config.Config source))).
Proof.
  unfold sourceShouldMonitorContainer. rewrite labels_loop.
  destruct (nonEmpty (config.Image _)), (String.eqb (types.Image _) _),
    (nonEmpty (config.Label _)); reflexivity.
Qed.

(** C2, as stated, fails: for a source with the image filter "nginx" and
    the label filter "env:prod" and a container of image "nginx" labelled
    env=staging, the predicate of the specification, which lets the image
    decide alone, matches, and the code does not. *)
Lemma image_and_label_counterexample :
  spec_shouldMonitor src_both staging = true
  ∧ sourceShouldMonitorContainer src_both staging = false.
Proof. split; vm_compute; reflexivity. Qed.

Lemma labelsMatch_env_prod labels :
  spec_labelsMatch labels "env:prod"
  = bool_decide (is_Some (labels !! "env:prod"))
    || bool_decide (labels !! "env" = Some "prod") || false.
Proof. reflexivity. Qed.

Lemma labelsMatch_foo labels :
  spec_labelsMatch labels "foo"
  = bool_decide (is_Some (labels !! "foo")) || false || false.
Proof. reflexivity. Qed.

Lemma labelsMatch_list labels :
  spec_labelsMatch labels "a:b, c"
  = bool_decide (is_Some (labels !! "a:b")) || bool_decide (labels !! "a" = Some "b")
    || (bool_decide (is_Some (labels !! "c")) || false || false).
Proof. reflexivity. Qed.

Ltac reduce_filters :=
  unfold config.dockerSource; cbn [config.Config config.Image config.Label];
  repeat match goal with
         | |- context [nonEmpty ?s] =>
             let b := eval vm_compute in (nonEmpty s) in
             change (nonEmpty s) with b
         end;
  cbn [negb orb andb].

(** C2, amended: [sourceShouldMonitorContainer] applies the image filter
    and the label filter together.  A configured image must equal the
    image of the container, and a configured label list must have an
    entry (comma-split, trimmed) that is a key of the container's labels
    or that splits on ':' or '=' into a key and a value the container maps
    that key to.  With at most one filter configured it is the predicate of
    the specification.  The four rows of the table hold. *)
Theorem sourceShouldMonitorContainer_conjunctive :
  (∀ source container,
      sourceShouldMonitorContainer source container
      = (negb (nonEmpty (config.Image (config.Config source)))
         || String.eqb (types.Image container) (config.Image (config.Config source)))
        && (negb (nonEmpty (config.Label (config.Config source)))
            || spec_labelsMatch (types.Labels container)
                 (config.Label (config.Config source))))
  ∧ (∀ source container,
        sourceShouldMonitorContainer source container
        = if nonEmpty (config.Image (config.Config source))
             && nonEmpty (config.Label (config.Config source))
          then String.eqb (types.Image container) (config.Image (config.Config source))
               && spec_labelsMatch (types.Labels container)
                    (config.Label (config.Config source))
          else spec_shouldMonitor source container)
  ∧ (∀ sink container,
        sourceShouldMonitorContainer (config.dockerSource "nginx" "" sink) container = true
        ↔ types.Image container = "nginx")
  ∧ (∀ sink container,
        sourceShouldMonitorContainer (config.dockerSource "" "env:prod" sink) container = true
        ↔ is_Some (types.Labels container !! "env:prod")
          ∨ types.Labels container !! "env" = Some "prod")
  ∧ (∀ sink container,
        sourceShouldMonitorContainer (config.dockerSource "" "foo" sink) container = true
        ↔ is_Some (types.Labels container !! "foo"))
  ∧ (∀ sink container,
        sourceShouldMonitorContainer (config.dockerSource "" "a:b, c" sink) container = true
        ↔ (is_Some (types.Labels container !! "a:b")
           ∨ types.Labels container !! "a" = Some "b")
          ∨ is_Some (types.Labels container !! "c")).
Proof.
  split; [exact sourceShouldMonitorContainer_both|].
  split.
  { intros source container. rewrite sourceShouldMonitorContainer_both.
    unfold spec_shouldMonitor.
    destruct (nonEmpty (config.Image _)), (nonEmpty (config.Label _));
      simpl; rewrite ?andb_true_r; reflexivity. }
  split.
  { intros sink container. rewrite sourceShouldMonitorContainer_both.
    reduce_filters. rewrite andb_true_r. apply String.eqb_eq. }
  split.
  { intros sink container. rewrite sourceShouldMonitorContainer_both.
    reduce_filters. rewrite labelsMatch_env_prod.
    rewrite orb_false_r, orb_true_iff, !bool_decide_eq_true. reflexivity. }
  split.
  { intros sink container. rewrite sourceShouldMonitorContainer_both.
    reduce_filters. rewrite labelsMatch_foo.
    rewrite !orb_false_r, bool_decide_eq_true. reflexivity. }
  intros sink container. rewrite sourceShouldMonitorContainer_both.
  reduce_filters. rewrite labelsMatch_list.
  rewrite !orb_false_r, !orb_true_iff, !bool_decide_eq_true. reflexivity.
Qed.
End predicate.

(** ** The reconciliation *)

Section reconciliation.
Import GoStrings container samples.
Local Open Scope nat_scope.

Lemma humanReadableContainerID_ok id :
  12 ≤ String.length id → ∃ short, humanReadableContainerID id = Ok short.
Proof.
  intros H. unfold humanReadableContainerID, sliceTo.
  destruct (Nat.leb_spec 12 (String.length id)); [eauto|lia].
Qed.

Lemma humanReadableContainerID_panic id :
  String.length id < 12 →
  humanReadableContainerID id = Panic "slice bounds out of range".
Proof.
  intros H. unfold humanReadableContainerID, sliceTo.
  destruct (Nat.leb_spec 12 (String.length id)); [lia|done].
Qed.

Lemma keyed_delete m k : keyed m → keyed (delete k m).
Proof. intros H k' t [_ ?]%lookup_delete_Some. by apply H. Qed.

Lemma keyed_insert m k t : keyed m → ContainerID t = k → keyed (<[k := t]> m).
Proof.
  intros H Ht k' t' [[<- <-]|[_ ?]]%lookup_insert_Some; [done|by apply H].
Qed.

Lemma keyed_empty : keyed ∅.
Proof. intros k t. by rewrite lookup_empty. Qed.

Lemma setupTailer_ok cli c src tfb ch s :
  12 ≤ String.length (types.ID c) →
  ∃ s', setupTailer cli c src tfb ch s = Ok s'
        ∧ tailers s' = <[types.ID c := NewDockerTailer cli c src ch]> (tailers s)
        ∧ sources s' = sources s ∧ container.cli s' = container.cli s
        ∧ stopRequested s' = stopRequested s.
Proof.
  intros [short Hs]%humanReadableContainerID_ok. unfold setupTailer.
  rewrite Hs. simpl. eauto 10.
Qed.

Lemma setupTailer_panic cli c src tfb ch s :
  String.length (types.ID c) < 12 →
  setupTailer cli c src tfb ch s = Panic oob.
Proof.
  intros Hs%humanReadableContainerID_panic. unfold setupTailer. by rewrite Hs.
Qed.

Lemma setupTailer_cases cli c src tfb ch s :
  (String.length (types.ID c) < 12 ∧ setupTailer cli c src tfb ch s = Panic oob)
  ∨ (12 ≤ String.length (types.ID c)
     ∧ ∃ s', setupTailer cli c src tfb ch s = Ok s'
        ∧ tailers s' = <[types.ID c := NewDockerTailer cli c src ch]> (tailers s)
        ∧ sources s' = sources s ∧ container.cli s' = container.cli s
        ∧ stopRequested s' = stopRequested s).
Proof.
  destruct (Nat.lt_ge_cases (String.length (types.ID c)) 12).
  - left. eauto using setupTailer_panic.
  - right. eauto using setupTailer_ok.
Qed.

(** One visit of a (container, source) pair. *)
Lemma monitor_cases tfb c src s ctm :
  (sourceShouldMonitorContainer src c = true
   ∧ String.length (types.ID c) < 12
   ∧ monitor tfb c src (s, ctm) = Panic oob)
  ∨ ∃ s' ctm', monitor tfb c src (s, ctm) = Ok (s', ctm')
               ∧ step (sourceShouldMonitorContainer src c) c s ctm s' ctm'.
Proof.
  unfold monitor.
  destruct (sourceShouldMonitorContainer src c) eqn:Hm.
  2:{ right. exists s, ctm. split; [done|].
      split; try done; unfold added; set_solver. }
  destruct (tailers s !! types.ID c) as [t|] eqn:Ht.
  - destruct (shouldStop t) eqn:Hst.
    + (* restart *)
      cbn [NextPipelineChan].
      match goal with |- context [setupTailer ?a ?b ?c ?d ?e ?f] =>
        destruct (setupTailer_cases a b c d e f) as [[Hl ->]|[Hl (s' & -> & Ht' & Hs' & Hc' & Hst')]]
      end.
      * left. done.
      * right. exists s', (<[types.ID c := true]> ctm). split; [done|].
        split; try done.
        -- rewrite dom_insert_L. done.
        -- intros Hk. rewrite Ht'. apply keyed_insert; [|done]. simpl.
           by apply keyed_delete.
        -- intros Hk. rewrite Ht'. simpl. rewrite dom_insert_L, dom_delete_L.
           rewrite (Hk _ _ Ht). unfold added.
           apply set_eq. intros x. rewrite !elem_of_union, elem_of_difference.
           destruct (decide (x = types.ID c)); set_solver.
        -- intros _ _. by right.
    + right. exists s, (<[types.ID c := true]> ctm). split; [done|].
      split; try done.
      * by rewrite dom_insert_L.
      * intros _. unfold added. apply elem_of_dom_2 in Ht. set_solver.
      * intros _ _. left. by apply elem_of_dom_2 in Ht.
  - cbn [NextPipelineChan].
    match goal with |- context [setupTailer ?a ?b ?c ?d ?e ?f] =>
      destruct (setupTailer_cases a b c d e f) as [[Hl ->]|[Hl (s' & -> & Ht' & Hs' & Hc' & Hst')]]
    end.
    * left. done.
    * right. exists s', (<[types.ID c := true]> ctm). split; [done|].
      split; try done.
      -- by rewrite dom_insert_L.
      -- intros Hk. rewrite Ht'. by apply keyed_insert.
      -- intros Hk. rewrite Ht'. simpl. by rewrite dom_insert_L.
      -- intros _ _. by right.
Qed.

Lemma step_refl c s ctm : step false c s ctm s ctm.
Proof. split; try done; unfold added; set_solver. Qed.

Lemma step_trans b1 b2 c s0 m0 s1 m1 s2 m2 :
  step b1 c s0 m0 s1 m1 → step b2 c s1 m1 s2 m2 → step (b1 || b2) c s0 m0 s2 m2.
Proof.
  intros [] []. split.
  - congruence.
  - congruence.
  - congruence.
  - rewrite step_ctm1, step_ctm0. unfold added. destruct b1, b2; set_solver.
  - auto.
  - intros Hk. rewrite step_dom1, step_dom0 by auto.
    unfold added. destruct b1, b2; set_solver.
  - intros Hk Hb. destruct b1; [auto|]. simpl in Hb.
    destruct (step_len1 (step_keyed0 Hk) Hb) as [Hin|]; [|by right]. left.
    rewrite step_dom0 in Hin by done. unfold added in Hin. set_solver.
Qed.

(** The loop over the sources, for one container. *)
Lemma sources_loop tfb c srcs : ∀ s ctm,
  (matched srcs c = true ∧ String.length (types.ID c) < 12
   ∧ forEach srcs (monitor tfb c) (s, ctm) = Panic oob)
  ∨ ∃ s' ctm', forEach srcs (monitor tfb c) (s, ctm) = Ok (s', ctm')
               ∧ step (matched srcs c) c s ctm s' ctm'.
Proof.
  induction srcs as [|src srcs IH]; intros s ctm.
  { right. exists s, ctm. split; [done|]. apply step_refl. }
  cbn [forEach matched existsb].
  destruct (monitor_cases tfb c src s ctm)
    as [(Hm & Hl & ->)|(s1 & ctm1 & -> & Hstep)].
  { left. rewrite Hm. done. }
  cbn. destruct (IH s1 ctm1) as [(Hm & Hl & ->)|(s2 & ctm2 & -> & Hstep2)].
  { left. fold (matched srcs c). rewrite Hm, orb_true_r. done. }
  right. exists s2, ctm2. split; [done|]. eapply step_trans; eauto.
Qed.

Lemma monitoredIDs_nil srcs : monitoredIDs srcs [] = ∅.
Proof. done. Qed.

Lemma monitoredIDs_cons srcs c cs :
  monitoredIDs srcs (c :: cs) = added (matched srcs c) c ∪ monitoredIDs srcs cs.
Proof.
  unfold monitoredIDs, added. rewrite filter_cons.
  destruct (decide (matched srcs c = true)) as [->|Hn].
  - by rewrite fmap_cons, list_to_set_cons.
  - apply not_true_is_false in Hn. rewrite Hn. set_solver.
Qed.

Lemma elem_of_monitoredIDs srcs cs id :
  id ∈ monitoredIDs srcs cs
  ↔ ∃ c, c ∈ cs ∧ matched srcs c = true ∧ types.ID c = id.
Proof.
  unfold monitoredIDs. rewrite elem_of_list_to_set, list_elem_of_fmap.
  split.
  - intros (c & -> & [? ?]%list_elem_of_filter). eauto.
  - intros (c & ? & ? & <-). exists c. split; [done|].
    by apply list_elem_of_filter.
Qed.

(** The loop over the running containers. *)
Lemma containers_loop tfb srcs cs : ∀ s ctm,
  ((∃ c, c ∈ cs ∧ matched srcs c = true ∧ String.length (types.ID c) < 12)
   ∧ forEach cs (λ c, forEach srcs (monitor tfb c)) (s, ctm) = Panic oob)
  ∨ ∃ s' ctm',
      forEach cs (λ c, forEach srcs (monitor tfb c)) (s, ctm) = Ok (s', ctm')
      ∧ pass srcs cs s ctm s' ctm'.
Proof.
  induction cs as [|c cs IH]; intros s ctm.
  { right. exists s, ctm. split; [done|].
    split; try done; rewrite ?monitoredIDs_nil; set_solver. }
  cbn [forEach].
  destruct (sources_loop tfb c srcs s ctm)
    as [(Hm & Hl & ->)|(s1 & ctm1 & -> & Hstep)].
  { left. split; [|done]. exists c. set_solver. }
  cbn. destruct (IH s1 ctm1) as [[(c' & Hin & Hm & Hl) ->]|(s2 & ctm2 & -> & Hpass)].
  { left. split; [|done]. exists c'. set_solver. }
  right. exists s2, ctm2. split; [done|].
  destruct Hstep, Hpass. split.
  - congruence.
  - congruence.
  - congruence.
  - rewrite pass_ctm0, step_ctm0, monitoredIDs_cons. set_solver.
  - auto.
  - intros Hk. rewrite pass_dom0, step_dom0, monitoredIDs_cons by auto. set_solver.
  - intros Hk c' [->|Hin]%elem_of_cons Hm; [by apply step_len0|].
    destruct (pass_len0 (step_keyed0 Hk) c' Hin Hm) as [Hd|]; [|by right].
    rewrite step_dom0 in Hd by done. unfold added in Hd.
    destruct (matched srcs c) eqn:Hmc; [|left; set_solver].
    apply elem_of_union in Hd as [->%elem_of_singleton|Hd]; [|by left].
    by apply step_len0.
Qed.

(** The loop that stops the tailers of the containers no longer monitored. *)
Lemma stopOld_step ctm k0 s :
  keyed (tailers s) →
  swept ctm [k0] s (match tailers s !! k0 with
                    | Some tailer => stopOld ctm k0 tailer s
                    | None => s
                    end).
Proof.
  intros Hk. unfold swept. destruct (tailers s !! k0) as [t|] eqn:Ht.
  - unfold stopOld. destruct (ctm !! k0) eqn:Hc.
    + split_and!; [done..|]. intros k. rewrite decide_False; [done|].
      intros [->%list_elem_of_singleton ?]. congruence.
    + unfold stopTailer. cbn. rewrite (Hk _ _ Ht).
      split_and!; [done..|by apply keyed_delete|].
      intros k. destruct (decide (k = k0)) as [->|Hne].
      * rewrite decide_True by set_solver. apply lookup_delete_eq.
      * rewrite decide_False by set_solver. by apply lookup_delete_ne.
  - split_and!; [done..|]. intros k.
    destruct (decide (k ∈ [k0] ∧ ctm !! k = None)) as [[->%list_elem_of_singleton _]|];
      done.
Qed.

Lemma stopOld_loop ctm order : ∀ s,
  keyed (tailers s) → swept ctm order s (rangeTailers order (stopOld ctm) s).
Proof.
  unfold rangeTailers.
  induction order as [|k0 order IH]; intros s Hk; cbn [foldl].
  { unfold swept. split_and!; [done..|]. intros k. rewrite decide_False; [done|].
    intros [[]%elem_of_nil _]. }
  destruct (stopOld_step ctm k0 s Hk) as (Hs1 & Hc1 & Hst1 & Hk1 & Hl1).
  destruct (IH _ Hk1) as (Hs2 & Hc2 & Hst2 & Hk2 & Hl2).
  unfold swept. split_and!; [congruence..|done|].
  intros k. rewrite Hl2, Hl1.
  destruct (decide (k ∈ order ∧ ctm !! k = None)) as [[Hin Hn]|Hn1].
  { rewrite decide_True; [done|]. set_solver. }
  destruct (decide (k ∈ [k0] ∧ ctm !! k = None)) as [[Hin Hn]|Hn2].
  { rewrite decide_True; [done|]. set_solver. }
  rewrite decide_False; [done|].
  intros [[->|Hin]%elem_of_cons Hn]; set_solver.
Qed.

Lemma scan_cases rangeOrder tfb cs s :
  stopRequested s = false → is_Some (cli s) →
  ((∃ c, c ∈ cs ∧ matched (sources s) c = true ∧ String.length (types.ID c) < 12)
   ∧ scan rangeOrder tfb (client.Listed cs) s = Panic oob)
  ∨ ∃ s1 ctm,
      pass (sources s) cs s ∅ s1 ctm
      ∧ scan rangeOrder tfb (client.Listed cs) s
        = Ok (rangeTailers (rangeOrder (tailers s1)) (stopOld ctm) s1).
Proof.
  intros Hstop [cl Hcl]. unfold scan, listContainers. rewrite Hstop, Hcl. cbn.
  destruct (containers_loop tfb (sources s) cs s ∅)
    as [[Hex ->]|(s1 & ctm & -> & Hpass)]; [by left|].
  right. by exists s1, ctm.
Qed.

(** C1, amended: when no stop is requested, the client is set, every
    tailer of the prior registry is registered under its own container ID
    and every running container that some source matches has an ID of at
    least 12 bytes, one [scan] returns and leaves the key set of the
    registry equal to the set of IDs of the running containers that some
    source matches, whatever the registry held before. *)
Theorem scan_converges rangeOrder tfb cs s :
  (∀ m, rangeOrder m ≡ₚ elements (dom m)) →
  stopRequested s = false →
  is_Some (cli s) →
  keyed (tailers s) →
  (∀ c, c ∈ cs → matched (sources s) c = true → 12 ≤ String.length (types.ID c)) →
  ∃ s', scan rangeOrder tfb (client.Listed cs) s = Ok s'
        ∧ dom (tailers s') = monitoredIDs (sources s) cs
        ∧ keyed (tailers s').
Proof.
  intros Horder Hstop Hcli Hk Hlen.
  destruct (scan_cases rangeOrder tfb cs s Hstop Hcli)
    as [[(c & Hin & Hm & Hl) _]|(s1 & ctm & Hpass & ->)].
  { specialize (Hlen c Hin Hm). lia. }
  eexists. split; [done|]. destruct Hpass.
  destruct (stopOld_loop ctm (rangeOrder (tailers s1)) s1 (pass_keyed0 Hk))
    as (_ & _ & _ & Hk' & Hl).
  split; [|done]. apply set_eq. intros k.
  rewrite elem_of_dom, Hl.
  assert (dom ctm = monitoredIDs (sources s) cs) as Hctm.
  { rewrite pass_ctm0. set_solver. }
  rewrite <- Hctm.
  destruct (decide (k ∈ rangeOrder (tailers s1) ∧ ctm !! k = None)) as [[Hin Hn]|Hn].
  - split; [by intros [? ?]|]. intros Hd%elem_of_dom. rewrite Hn in Hd.
    by destruct Hd.
  - rewrite <- elem_of_dom, (pass_dom0 Hk). split.
    + intros Hd. destruct (ctm !! k) eqn:Hc; [by apply elem_of_dom_2 in Hc|].
      exfalso. apply Hn. split; [|done].
      rewrite Horder, elem_of_elements, (pass_dom0 Hk). done.
    + rewrite Hctm. set_solver.
Qed.

(** C10: [setupTailer] panics on a container ID of fewer than 12 bytes
    and registers the tailer otherwise; [scan] returns when every matched
    container has an ID of at least 12 bytes, and panics, out of range,
    when it matches a container not yet tailed whose ID is shorter. *)
Theorem humanReadableContainerID_precondition :
  (∀ cli c src tfb ch s,
      String.length (types.ID c) < 12 →
      setupTailer cli c src tfb ch s = Panic "slice bounds out of range")
  ∧ (∀ cli c src tfb ch s,
        12 ≤ String.length (types.ID c) →
        ∃ s', setupTailer cli c src tfb ch s = Ok s'
              ∧ tailers s' !! types.ID c = Some (NewDockerTailer cli c src ch))
  ∧ (∀ rangeOrder tfb cs s,
        is_Some (cli s) →
        (∀ c, c ∈ cs → matched (sources s) c = true →
              12 ≤ String.length (types.ID c)) →
        ∃ s', scan rangeOrder tfb (client.Listed cs) s = Ok s')
  ∧ (∀ rangeOrder tfb cs s c,
        stopRequested s = false → is_Some (cli s) → keyed (tailers s) →
        c ∈ cs → matched (sources s) c = true →
        tailers s !! types.ID c = None →
        String.length (types.ID c) < 12 →
        scan rangeOrder tfb (client.Listed cs) s = Panic "slice bounds out of range").
Proof.
  split_and!.
  - intros. by apply setupTailer_panic.
  - intros cl c src tfb ch s Hl.
    destruct (setupTailer_ok cl c src tfb ch s Hl) as (s' & -> & Ht & _).
    exists s'. split; [done|]. rewrite Ht. apply lookup_insert_eq.
  - intros rangeOrder tfb cs s Hcli Hlen.
    destruct (stopRequested s) eqn:Hstop.
    { exists s. unfold scan. by rewrite Hstop. }
    destruct (scan_cases rangeOrder tfb cs s Hstop Hcli)
      as [[(c & Hin & Hm & Hl) _]|(s1 & ctm & Hpass & ->)]; [|eauto].
    specialize (Hlen c Hin Hm). lia.
  - intros rangeOrder tfb cs s c Hstop Hcli Hk Hin Hm Hnone Hl.
    destruct (scan_cases rangeOrder tfb cs s Hstop Hcli)
      as [[_ ->]|(s1 & ctm & Hpass & _)]; [done|].
    destruct (pass_len _ _ _ _ _ _ Hpass Hk c Hin Hm) as [Hd|]; [|lia].
    apply elem_of_dom in Hd as [? ?]. congruence.
Qed.

Lemma Start_launches rangeOrder env s s' launched :
  Start rangeOrder env s = Ok (s', launched) →
  launched = true ↔ setup rangeOrder env s = Ok (None, s').
Proof.
  unfold Start. destruct (setup rangeOrder env s) as [[[e|] s1]|msg]; cbn;
    intros [= <- <-]; split; congruence.
Qed.

Lemma Start_without_sources rangeOrder env s :
  sources s = [] → Start rangeOrder env s = Ok (s, false).
Proof. intros H. unfold Start, setup. by rewrite H. Qed.

Lemma Start_client_error rangeOrder env s cl err :
  sources s ≠ [] → NewEnvClient env = (Some cl, Some err) →
  ∃ s', Start rangeOrder env s = Ok (s', false) ∧ tailers s' = tailers s.
Proof.
  intros Hs Hc. unfold Start, setup. rewrite Hc.
  destruct (sources s); [done|]. cbn. eauto.
Qed.

Lemma Start_nil_client rangeOrder env s err :
  sources s ≠ [] → NewEnvClient env = (None, Some err) →
  Start rangeOrder env s = Panic "nil pointer dereference".
Proof.
  intros Hs Hc. unfold Start, setup. rewrite Hc. by destruct (sources s).
Qed.
End reconciliation.

(** ** The file provider *)

Section provider.
Import tailer samples.
Variable Glob : string → globResult.

Lemma appendPaths_take limit source paths : ∀ files,
  appendPaths limit paths source files
  = files ++ take (Z.to_nat limit - length files)
                  ((λ p, NewFile p source) <$> paths).
Proof.
  induction paths as [|p paths IH]; intros files; cbn [appendPaths fmap list_fmap].
  { by rewrite take_nil, app_nil_r. }
  destruct (Z.ltb_spec (Z.of_nat (length files)) limit) as [Hlt|Hge].
  - rewrite IH, length_app, <- app_assoc. cbn [length app].
    replace (Z.to_nat limit - length files)%nat
      with (S (Z.to_nat limit - (length files + 1)))%nat by lia.
    done.
  - replace (Z.to_nat limit - length files)%nat with 0%nat by lia.
    by rewrite take_0, app_nil_r.
Qed.

Lemma visit_files limit source files log :
  (visit Glob limit source (files, log)).1
  = files ++ take (Z.to_nat limit - length files) (contribution Glob source)
  ∨ ¬ Z.of_nat (length files) < limit.
Proof.
  destruct (Z.lt_ge_cases (Z.of_nat (length files)) limit) as [Hlt|Hge]; [left|right; lia].
  unfold visit, contribution.
  destruct (containsWildcards _); cbn [negb].
  - destruct (Glob _) as [paths|]; cbn [fst].
    + destruct paths as [|p paths]; cbn [length Nat.eqb fst].
      * cbn [fmap list_fmap]. by rewrite take_nil, app_nil_r.
      * by rewrite appendPaths_take.
    + by rewrite take_nil, app_nil_r.
  - cbn [fst]. replace (Z.to_nat limit - length files)%nat
      with (S (Z.to_nat limit - (length files + 1)))%nat by lia.
    rewrite firstn_cons. by rewrite take_nil.
Qed.

Lemma walk_files limit srcs : ∀ files log,
  (walk Glob limit srcs (files, log)).1
  = files ++ take (Z.to_nat limit - length files)
                  (concat (contribution Glob <$> srcs)).
Proof.
  induction srcs as [|source srcs IH]; intros files log;
    cbn [walk fmap list_fmap concat fst].
  { by rewrite take_nil, app_nil_r. }
  destruct (Z.ltb_spec (Z.of_nat (length files)) limit) as [Hlt|Hge].
  - destruct (visit Glob limit source (files, log)) as [files1 log1] eqn:Hv.
    destruct (visit_files limit source files log) as [Hf|]; [|lia].
    rewrite Hv in Hf. cbn [fst] in Hf. rewrite IH, Hf, <- app_assoc. f_equal.
    rewrite take_app, length_app, length_take. f_equal. f_equal. lia.
  - cbn [fst]. replace (Z.to_nat limit - length files)%nat with 0%nat by lia.
    by rewrite take_0, app_nil_r.
Qed.

(** C3: for a ceiling N >= 0, [FilesToTail] returns at most N files: the
    first N of what the sources contribute, taken in the order of the
    source list and, within a source, in the order the expansion reports;
    a source may be cut short. *)
Theorem FilesToTail_ceiling (r : FileProvider) :
  0 ≤ filesLimit r →
  Z.of_nat (length (FilesToTail Glob r)) ≤ filesLimit r
  ∧ FilesToTail Glob r
    = take (Z.to_nat (filesLimit r)) (concat (contribution Glob <$> sources r))
  ∧ length (FilesToTail Glob r)
    = (Z.to_nat (filesLimit r)
         `min` length (concat (contribution Glob <$> sources r)))%nat.
Proof.
  intros Hpos.
  assert (FilesToTail Glob r
          = take (Z.to_nat (filesLimit r))
                 (concat (contribution Glob <$> sources r))) as Heq.
  { unfold FilesToTail, FilesToTailLogged.
    pose proof (walk_files (filesLimit r) (sources r) [] []) as Hw.
    destruct (walk _ _ _ _) as [files log].
    cbn [fst app length] in *. by rewrite Nat.sub_0_r in Hw. }
  rewrite Heq, length_take. split_and!; [lia|done|done].
Qed.

Lemma walk_stop limit srcs st :
  ¬ Z.of_nat (length st.1) < limit → walk Glob limit srcs st = st.
Proof.
  intros Hge. destruct srcs as [|source srcs]; [done|]. cbn [walk].
  destruct (Z.ltb_spec (Z.of_nat (length st.1)) limit); [lia|done].
Qed.

Lemma walk_app limit pre post : ∀ st,
  walk Glob limit (pre ++ post) st = walk Glob limit post (walk Glob limit pre st).
Proof.
  induction pre as [|source pre IH]; intros st; [done|].
  cbn [app walk].
  destruct (Z.ltb_spec (Z.of_nat (length st.1)) limit) as [Hlt|Hge]; [apply IH|].
  symmetry. apply walk_stop. lia.
Qed.

Lemma errorsOn_app sink log1 log2 :
  errorsOn sink (log1 ++ log2) = errorsOn sink log1 ++ errorsOn sink log2.
Proof. unfold errorsOn. by rewrite filter_app, fmap_app. Qed.

Lemma errorsOn_StatusError sink source err log :
  errorsOn sink (StatusError source err log)
  = errorsOn sink log ++ (if decide (config.Status source = sink) then [err] else []).
Proof.
  unfold StatusError. rewrite errorsOn_app. f_equal.
  unfold errorsOn. rewrite filter_cons, filter_nil. cbn [fst].
  by destruct (decide (config.Status source = sink)).
Qed.

Lemma visit_errors limit sink source files log :
  config.Status source ≠ sink →
  errorsOn sink (visit Glob limit source (files, log)).2 = errorsOn sink log.
Proof.
  intros Hne. unfold visit.
  destruct (containsWildcards _); cbn [negb]; [|done].
  destruct (Glob _) as [paths|]; [destruct (length paths =? 0)%nat|]; cbn [snd];
    rewrite ?errorsOn_StatusError, ?decide_False, ?app_nil_r; done.
Qed.

Lemma walk_errors limit sink srcs : ∀ files log,
  sink ∉ config.Status <$> srcs →
  errorsOn sink (walk Glob limit srcs (files, log)).2 = errorsOn sink log.
Proof.
  induction srcs as [|source srcs IH]; intros files log Hnin; [done|].
  rewrite fmap_cons, not_elem_of_cons in Hnin. destruct Hnin as [Hne Hnin].
  cbn [walk fst].
  destruct (Z.of_nat (length files) <? limit); [|done].
  pose proof (visit_errors limit sink source files log) as Hv.
  destruct (visit Glob limit source (files, log)) as [files1 log1].
  rewrite IH by done. apply Hv. done.
Qed.

Lemma visit_barren limit source files log :
  barren Glob source = true →
  ∃ err, visit Glob limit source (files, log)
         = (files, StatusError source err log).
Proof.
  unfold barren, visit. intros [Hw Hg]%andb_true_iff. rewrite Hw. cbn [negb].
  destruct (Glob _) as [paths|]; [rewrite Hg|]; eauto.
Qed.

Lemma contribution_barren source :
  barren Glob source = true → contribution Glob source = [].
Proof.
  unfold barren, contribution. intros [Hw Hg]%andb_true_iff. rewrite Hw. cbn [negb].
  destruct (Glob _) as [[|p paths]|]; done.
Qed.

Lemma contribution_Source source f :
  f ∈ contribution Glob source → Source f = source.
Proof.
  unfold contribution. destruct (negb _).
  - by intros ->%list_elem_of_singleton.
  - destruct (Glob _) as [paths|]; [|by intros ?%elem_of_nil].
    by intros (p & -> & _)%list_elem_of_fmap.
Qed.

(** C8, amended: a wildcarded source whose expansion fails or finds
    nothing, that is reached before the ceiling (the sources before it
    contribute fewer than N files) and that shares its status sink with no
    other source, adds no file, gets exactly one error recorded on its
    sink, and the files returned are those of the list without it. *)
Theorem barren_source_reached limit pre source post log :
  barren Glob source = true →
  Z.of_nat (length (concat (contribution Glob <$> pre))) < limit →
  config.Status source ∉ config.Status <$> (pre ++ post) →
  let r := NewFileProvider (pre ++ source :: post) limit in
  let r' := NewFileProvider (pre ++ post) limit in
  (FilesToTailLogged Glob r log).1.1 = (FilesToTailLogged Glob r' log).1.1
  ∧ (∀ f, f ∈ (FilesToTailLogged Glob r log).1.1 → Source f ≠ source)
  ∧ ∃ err, errorsOn (config.Status source) (FilesToTailLogged Glob r log).1.2
           = errorsOn (config.Status source) log ++ [err].
Proof.
  intros Hb Hlt Hsink r r'.
  assert (∀ srcs, (FilesToTailLogged Glob (NewFileProvider srcs limit) log).1
                  = walk Glob limit srcs ([], log)) as Hlogged.
  { intros srcs. unfold FilesToTailLogged, NewFileProvider. cbn [sources filesLimit].
    by destruct (walk _ _ _ _). }
  subst r r'. rewrite !Hlogged.
  assert ((walk Glob limit (pre ++ source :: post) ([], log)).1
          = (walk Glob limit (pre ++ post) ([], log)).1) as Hfiles.
  { rewrite !walk_files, !fmap_app, fmap_cons, !concat_app. cbn [concat].
    by rewrite (contribution_barren _ Hb). }
  split; [done|]. split.
  { intros f. rewrite Hfiles, walk_files. cbn [app].
    intros Hf%subseteq_take. apply list_elem_of_In, in_concat in Hf as (fs & Hfs & Hf).
    apply list_elem_of_In, list_elem_of_fmap in Hfs as (src & -> & Hsrc).
    apply list_elem_of_In in Hf.
    rewrite (contribution_Source _ _ Hf). intros ->.
    apply Hsink. by apply list_elem_of_fmap_2. }
  rewrite (walk_app limit pre (source :: post)).
  pose proof (walk_files limit pre [] log) as Hpre.
  pose proof (walk_errors limit (config.Status source) pre [] log) as Hepre.
  destruct (walk Glob limit pre ([], log)) as [files1 log1].
  cbn [fst snd app length] in Hpre, Hepre.
  assert (Z.of_nat (length files1) < limit) as Hlt1.
  { rewrite Hpre, length_take. lia. }
  cbn [walk fst].
  destruct (Z.ltb_spec (Z.of_nat (length files1)) limit); [|lia].
  destruct (visit_barren limit source files1 log1 Hb) as [err ->].
  exists err. rewrite walk_errors, errorsOn_StatusError, decide_True by set_solver.
  rewrite Hepre; [done|]. set_solver.
Qed.
End provider.

(** ** The event fan-out *)

Section fanout.
Import docker samples.

Lemma Setup_valid cfg st :
  fanout.WriteTimeout cfg ≠ 0 → fanout.OutputBufferSize cfg ≠ 0 →
  fanout.Name cfg ≠ "" →
  ∃ d e st',
    Setup cfg st = Done (Some d, Some e, None) st'
    ∧ events st !! d = None ∧ errors st !! e = None
    ∧ events st' !! d = Some {| capacity := 0; buffer := []; closed := false |}
    ∧ errors st' !! e = Some {| capacity := 0; buffer := []; closed := false |}
    ∧ dataInput (fan st') = Some d ∧ errorInput (fan st') = Some e
    ∧ listeners (fan st') = Some ∅ ∧ config (fan st') = cfg.
Proof.
  intros Hw Hb Hn. unfold Setup.
  destruct (Z.eqb_spec (fanout.WriteTimeout cfg) 0); [done|].
  destruct (Z.eqb_spec (fanout.OutputBufferSize cfg) 0); [done|].
  destruct (String.eqb_spec (fanout.Name cfg) ""); [done|].
  eexists _, _, _. split; [done|]. cbn.
  split_and!; try done.
  - apply not_elem_of_dom, is_fresh.
  - apply not_elem_of_dom, is_fresh.
  - apply lookup_insert_eq.
  - apply lookup_insert_eq.
Qed.

Lemma Setup_invalid cfg st :
  fanout.WriteTimeout cfg = 0 ∨ fanout.OutputBufferSize cfg = 0
  ∨ fanout.Name cfg = "" →
  ∃ err, Setup cfg st = Done (None, None, Some err) st.
Proof.
  unfold Setup. intros H.
  destruct (Z.eqb_spec (fanout.WriteTimeout cfg) 0); [eauto|].
  destruct (Z.eqb_spec (fanout.OutputBufferSize cfg) 0); [eauto|].
  destruct (String.eqb_spec (fanout.Name cfg) ""); [eauto|]. tauto.
Qed.

(** C4, at the failing input: a write timeout of -1ns is not above 0, and
    [Setup] accepts it and returns the input channels. *)
Theorem Setup_accepts_negative_timeout :
  ¬ (0 < fanout.WriteTimeout negativeTimeout)
  ∧ ∃ d e st, Setup negativeTimeout zero = Done (Some d, Some e, None) st
              ∧ dataInput (fan st) = Some d ∧ errorInput (fan st) = Some e.
Proof.
  split; [cbn; lia|].
  destruct (Setup_valid negativeTimeout zero) as (d & e & st & H & ?); try done.
  exists d, e, st. tauto.
Qed.

Lemma make_ok {A} elemSize size memory (h : heap A) :
  0 ≤ size → elemSize * size ≤ maxAlloc - hchanSize →
  chanBytes elemSize size ≤ memory →
  ∃ a, make elemSize size memory h
       = Ok (a, <[a := {| capacity := size; buffer := []; closed := false |}]> h,
             memory - chanBytes elemSize size)
       ∧ h !! a = None.
Proof.
  intros Hs Hr Hm. unfold make. destruct (Z.ltb_spec size 0); [lia|].
  destruct (Z.ltb_spec (maxAlloc - hchanSize) (elemSize * size)); [lia|].
  destruct (Z.ltb_spec memory (chanBytes elemSize size)); [lia|]. cbn.
  eexists. split; [done|]. apply not_elem_of_dom, is_fresh.
Qed.


(** Without the memory or with a size out of range, [Suscribe] with a new
    name does not return. *)
Lemma Suscribe_unaffordable name st :
  listener name st = None → ¬ affordable st → ∃ msg, Suscribe name st = Panicked msg.
Proof.
  intros Hl Hn. unfold Suscribe. rewrite Hl. unfold make.
  destruct (Z.ltb_spec (fanout.OutputBufferSize (config (fan st))) 0); cbn; [by eexists|].
  destruct (Z.ltb_spec (maxAlloc - hchanSize)
              (pointerSize * fanout.OutputBufferSize (config (fan st)))); cbn;
    [by eexists|].
  destruct (Z.ltb_spec (memory st)
              (chanBytes pointerSize (fanout.OutputBufferSize (config (fan st)))));
    [by eexists|].
  cbn.
  destruct (Z.ltb_spec (memory st - chanBytes pointerSize
                                      (fanout.OutputBufferSize (config (fan st))))
              (chanBytes interfaceSize 2)); [by eexists|].
  destruct Hn. split_and!; [done|done|lia].
Qed.




(** C6, at the failing input: the instance runs with one listener and a
    stop signal is pending; the listener times out, the loop unsubscribes
    it, and the loop waits for room on its own stop channel, [running]
    still set. *)
Theorem forced_unsubscribe_blocks :
  running (fan stopPending) = true
  ∧ size (default ∅ (listeners (fan stopPending))) = 1%nat
  ∧ ∃ st, dispatchStep (OnData 2%nat) stopPending = Blocked st
          ∧ running (fan st) = true
          ∧ listeners (fan st) = Some ∅.
Proof. split_and!; [done..|]. eexists. vm_compute. done. Qed.

Lemma closeOutput_open out err st :
  open (events st) (dataOutput out) → open (errors st) (errorOutput out) →
  ∃ st', closeOutput out err st = Ok st'
         ∧ fan st' = fan st ∧ signals st' = signals st
         ∧ dispatchers st' = dispatchers st.
Proof.
  intros (cd & Hd & Hcd) (ce & He & Hce).
  unfold closeOutput, sendError, nextTimer, offer.
  destruct (timers st) as [|[|] rest]; cbn; rewrite ?He, ?Hce;
    try destruct (Z.of_nat (length (buffer ce)) <? capacity ce); cbn;
    unfold close; cbn; rewrite Hd, Hcd; cbn;
    rewrite ?lookup_insert_eq, ?He, ?Hce; cbn; eauto.
Qed.

Lemma last_unsubscribe_stops name err st out a :
  running (fan st) = true →
  listeners (fan st) = Some {[name := out]} →
  open (events st) (dataOutput out) →
  open (errors st) (errorOutput out) →
  stopChan (fan st) = Some a →
  signals st !! a = Some {| capacity := 1; buffer := []; closed := false |} →
  ∃ st1 st2,
    UnsuscribeWithError name err st = Done (true, None) st1
    ∧ running (fan st1) = true ∧ listeners (fan st1) = Some ∅
    ∧ dispatchStep OnStop st1 = Done false st2
    ∧ running (fan st2) = false ∧ listeners (fan st2) = Some ∅.
Proof.
  intros Hrun Hl Hd He Hstop Hsig.
  destruct (closeOutput_open out err st Hd He) as (st' & Hclose & Hfan & Hsigs & _).
  unfold UnsuscribeWithError, listener. rewrite Hl. cbn.
  rewrite lookup_singleton_eq, Hclose. cbn. rewrite Hfan, Hl, Hrun. cbn.
  rewrite delete_singleton_eq, map_size_empty. cbn.
  unfold signalStop, offer. cbn. rewrite ?Hfan, Hstop, Hsigs, Hsig. cbn.
  eexists _, _. split; [done|].
  split; [cbn; by rewrite Hfan|]. split; [done|].
  split.
  { unfold dispatchStep, takeSignal. cbn. rewrite Hfan, Hstop. cbn.
    rewrite lookup_insert_eq. cbn. unfold closeAll. cbn.
    rewrite map_to_list_empty. done. }
  done.
Qed.

(** With a stop signal already on the stop channel, the same call finds no
    room for its own signal and waits, the listener already removed. *)
Lemma last_unsubscribe_waits name err st out a :
  running (fan st) = true →
  listeners (fan st) = Some {[name := out]} →
  open (events st) (dataOutput out) →
  open (errors st) (errorOutput out) →
  stopChan (fan st) = Some a →
  signals st !! a = Some {| capacity := 1; buffer := [()]; closed := false |} →
  ∃ st1,
    UnsuscribeWithError name err st = Blocked st1
    ∧ running (fan st1) = true ∧ listeners (fan st1) = Some ∅.
Proof.
  intros Hrun Hl Hd He Hstop Hsig.
  destruct (closeOutput_open out err st Hd He) as (st' & Hclose & Hfan & Hsigs & _).
  unfold UnsuscribeWithError, listener. rewrite Hl. cbn.
  rewrite lookup_singleton_eq, Hclose. cbn. rewrite Hfan, Hl, Hrun. cbn.
  rewrite delete_singleton_eq, map_size_empty. cbn.
  unfold signalStop, offer. cbn. rewrite ?Hfan, Hstop, Hsigs, Hsig. cbn.
  eexists. split; [done|]. cbn. by rewrite Hfan.
Qed.
End fanout.

(** ** Instances *)

Section instances.
Import samples.

(** C9, at the failing input: the client constructor returns a nil client
    and an error; [Start] dereferences the client before it looks at the
    error. *)
Theorem Start_nil_client_panics :
  ∀ rangeOrder,
    container.Start rangeOrder unreachable
      (container.New [config.dockerSource "" "" 0] 0)
    = Panic "nil pointer dereference".
Proof. intros rangeOrder. reflexivity. Qed.

(** C1, as stated, fails: a source without filters matches a container
    whose ID is "abc", and [scan] panics. *)
Lemma scan_short_id_counterexample :
  container.scan order0 true (client.Listed [shortID]) ready
  = Panic "slice bounds out of range"
  ∧ ¬ ∃ s', container.scan order0 true (client.Listed [shortID]) ready = Ok s'
            ∧ dom (container.tailers s')
              = container.monitoredIDs (container.sources ready) [shortID].
Proof.
  assert (container.scan order0 true (client.Listed [shortID]) ready
          = Panic "slice bounds out of range") as H by (vm_compute; reflexivity).
  split; [exact H|]. intros (s' & H' & _). rewrite H in H'. discriminate.
Qed.

(** Why the amended C1 asks for a client and for a registry keyed by the
    IDs of its tailers: before [setup] the client is nil and the listing
    dereferences it; a tailer filed under another ID is stopped but stays
    in the registry. *)
Example scan_without_client_panics :
  container.scan order0 true (client.Listed [redis])
    (container.New [config.dockerSource "" "" 0] 0)
  = Panic "nil pointer dereference".
Proof. reflexivity. Qed.

Example scan_misfiled_tailer_stays :
  ∃ s', container.scan order0 true (client.Listed []) misfiled = Ok s'
        ∧ dom (container.tailers s') = {["0a1b2c3d4e5f6789"]}
        ∧ container.monitoredIDs (container.sources misfiled) [] = ∅.
Proof.
  eexists. split; [vm_compute; reflexivity|]. split; [vm_compute|]; reflexivity.
Qed.

Lemma scan_converges_witness :
  ∃ s', container.scan order0 true (client.Listed [redis]) ready = Ok s'
        ∧ dom (container.tailers s')
          = container.monitoredIDs (container.sources ready) [redis]
        ∧ container.keyed (container.tailers s').
Proof.
  apply scan_converges.
  - intros m. reflexivity.
  - reflexivity.
  - eexists. reflexivity.
  - intros k t H. change (container.tailers ready) with (∅ : gmap string container.DockerTailer) in H.
    rewrite lookup_empty in H. discriminate.
  - intros c Hc _. apply list_elem_of_singleton in Hc. subst c. cbn. lia.
Defined.

Lemma humanReadableContainerID_precondition_witness :
  container.scan order0 true (client.Listed [redis; shortID]) ready
  = Panic "slice bounds out of range".
Proof.
  destruct humanReadableContainerID_precondition as (_ & _ & _ & H).
  apply (H order0 true [redis; shortID] ready shortID).
  - reflexivity.
  - eexists. reflexivity.
  - intros k t Hk. change (container.tailers ready) with (∅ : gmap string container.DockerTailer) in Hk.
    rewrite lookup_empty in Hk. discriminate.
  - apply list_elem_of_In. right. left. reflexivity.
  - reflexivity.
  - reflexivity.
  - cbn. lia.
Defined.

Lemma FilesToTail_ceiling_witness :
  Z.of_nat (length (tailer.FilesToTail disk
                      (tailer.NewFileProvider [syslog; appLogs; nginxLogs] 2)))
  ≤ 2.
Proof.
  apply (FilesToTail_ceiling disk
           (tailer.NewFileProvider [syslog; appLogs; nginxLogs] 2)).
  cbn. lia.
Defined.

(** C8, as stated, fails: with a ceiling of 1 a literal source fills the
    result; a wildcarded source after it, which matches nothing, is not
    visited and no error is recorded on its sink; and of the two literal
    sources after a wildcarded source that matches nothing, the second adds
    no file. *)
Lemma barren_source_unreached_counterexample :
  tailer.barren disk appLogs = true
  ∧ tailer.errorsOn (config.Status appLogs)
      (tailer.FilesToTailLogged disk
         (tailer.NewFileProvider [syslog; appLogs] 1) []).1.2
    = []
  ∧ tailer.FilesToTail disk (tailer.NewFileProvider [appLogs; syslog; kernLog] 1)
    = [tailer.NewFile "/var/log/syslog" syslog].
Proof. split_and!; vm_compute; reflexivity. Qed.

(** Why the amended C8 asks for a sink of its own: a source listed twice
    gets an error at each visit. *)
Example barren_source_listed_twice :
  length (tailer.errorsOn (config.Status appLogs)
            (tailer.FilesToTailLogged disk
               (tailer.NewFileProvider [appLogs; appLogs] 5) []).1.2) = 2%nat.
Proof. reflexivity. Qed.

Lemma barren_source_reached_witness :
  ∃ err,
    tailer.errorsOn (config.Status appLogs)
      (tailer.FilesToTailLogged disk
         (tailer.NewFileProvider ([syslog] ++ appLogs :: [nginxLogs]) 5) []).1.2
    = [] ++ [err].
Proof.
  apply (barren_source_reached disk 5%Z [syslog] appLogs [nginxLogs] []).
  - reflexivity.
  - cbn. lia.
  - cbn. intros H. apply list_elem_of_In in H. cbn in H.
    destruct H as [H|[H|[]]]; discriminate.
Defined.

(** Why the amended C5 asks for an instance that was set up with a size
    that is not negative: the zero value has a nil map, and [make] refuses
    a negative size. *)
Example Suscribe_before_Setup_panics :
  docker.Suscribe "a" docker.zero
  = docker.Panicked "assignment to entry in nil map".
Proof. reflexivity. Qed.

Example Suscribe_negative_size_panics :
  docker.Suscribe "a" (docker.after (docker.Setup negativeSize docker.zero))
  = docker.Panicked "makechan: size out of range".
Proof. reflexivity. Qed.


End instances.

(** ** Further properties *)

(** *** The reconciliation: what a scan keeps, and its fixed point *)

Section reconciliation_more.
Import GoStrings container scanning samples.
Local Open Scope nat_scope.

Lemma forEach_rel {A S : Type} (R : S → S → Prop) (l : list A)
    (body : A → S → result S) :
  (∀ st, R st st) →
  (∀ st1 st2 st3, R st1 st2 → R st2 st3 → R st1 st3) →
  (∀ x st st', body x st = Ok st' → R st st') →
  ∀ st st', forEach l body st = Ok st' → R st st'.
Proof.
  intros Hrefl Htrans Hbody. induction l as [|x l IH]; intros st st'; cbn [forEach].
  - intros [= <-]. apply Hrefl.
  - destruct (body x st) as [st1|msg] eqn:Hx; cbn; [|discriminate].
    intros Hrest. eapply Htrans; eauto.
Qed.

Lemma called_refl tfb s : called tfb s s.
Proof. exists []. by rewrite app_nil_r. Qed.

Lemma called_trans tfb s1 s2 s3 :
  called tfb s1 s2 → called tfb s2 s3 → called tfb s1 s3.
Proof.
  intros (n1 & H1 & F1) (n2 & H2 & F2). exists (n1 ++ n2).
  split; [by rewrite H2, H1, app_assoc|]. by apply Forall_app.
Qed.

Lemma advances_refl tfb st : advances tfb st st.
Proof.
  intros Hk Ht. split_and!; [done|done|by intros k t ? ?|apply called_refl].
Qed.

Lemma advances_trans tfb st1 st2 st3 :
  advances tfb st1 st2 → advances tfb st2 st3 → advances tfb st1 st3.
Proof.
  intros H12 H23 Hk Ht.
  destruct (H12 Hk Ht) as (Hk2 & Ht2 & Hkept2 & Hc2).
  destruct (H23 Hk2 Ht2) as (Hk3 & Ht3 & Hkept3 & Hc3).
  split_and!; try done.
  - intros k t Hl Hh. apply Hkept3; [|done]. by apply Hkept2.
  - by eapply called_trans.
Qed.

Lemma setupTailer_calls cli c src tfb ch s s' :
  setupTailer cli c src tfb ch s = Ok s' →
  calls s' = calls s ++ [if tfb then TailFromBeginning (types.ID c)
                         else RecoverTailing (types.ID c)].
Proof.
  unfold setupTailer.
  destruct (humanReadableContainerID (types.ID c)); cbn; [|discriminate].
  intros [= <-]. cbn. by destruct tfb.
Qed.

Lemma monitor_advances tfb c src st st' :
  monitor tfb c src st = Ok st' → advances tfb st st'.
Proof.
  destruct st as [s ctm]. unfold monitor.
  destruct (sourceShouldMonitorContainer src c) eqn:Hm.
  2:{ intros [= <-]. apply advances_refl. }
  destruct (tailers s !! types.ID c) as [t|] eqn:Ht.
  - destruct (shouldStop t) eqn:Hst.
    + cbn [NextPipelineChan].
      match goal with |- context [setupTailer ?a ?b ?c ?d ?e ?f] =>
        destruct (setupTailer_cases a b c d e f)
          as [[Hl ->]|[Hl (s' & Heq & Ht' & Hs' & Hc' & Hst')]]
      end; [discriminate|].
      rewrite Heq. apply setupTailer_calls in Heq.
      cbn. intros [= <-] Hk Htr. cbn [fst snd] in *.
      assert (ContainerID t = types.ID c) as Hid by eauto.
      split_and!.
      * rewrite Ht'. apply keyed_insert; [|done]. cbn. by apply keyed_delete.
      * intros k Hin. cbn [fst snd] in *. rewrite Ht'. cbn. rewrite Hid.
        destruct (decide (k = types.ID c)) as [->|Hne].
        { rewrite lookup_insert_eq. eauto. }
        rewrite lookup_insert_ne, lookup_delete_ne by done.
        apply Htr. cbn. apply elem_of_dom in Hin. apply elem_of_dom.
        by rewrite lookup_insert_ne in Hin.
      * intros k t0 Hl0 Hh. rewrite Ht'. cbn. rewrite Hid.
        destruct (decide (k = types.ID c)) as [->|Hne]; [congruence|].
        by rewrite lookup_insert_ne, lookup_delete_ne.
      * exists [TailerStop (ContainerID t) false;
                if tfb then TailFromBeginning (types.ID c) else RecoverTailing (types.ID c)].
        split; [by rewrite Heq; cbn; rewrite <- app_assoc|].
        repeat constructor. by destruct tfb.
    + intros [= <-] Hk Htr. cbn [fst snd] in *.
      split_and!; [done| |by intros k t0 ? ?|apply called_refl].
      * intros k Hin. cbn [fst snd] in Hin |- *.
        destruct (decide (k = types.ID c)) as [->|Hne]; [eauto|].
        apply Htr. cbn. apply elem_of_dom in Hin. apply elem_of_dom.
        by rewrite lookup_insert_ne in Hin.
  - cbn [NextPipelineChan].
    match goal with |- context [setupTailer ?a ?b ?c ?d ?e ?f] =>
      destruct (setupTailer_cases a b c d e f)
        as [[Hl ->]|[Hl (s' & Heq & Ht' & Hs' & Hc' & Hst')]]
    end; [discriminate|].
    rewrite Heq. apply setupTailer_calls in Heq.
    cbn. intros [= <-] Hk Htr. cbn [fst snd] in *. split_and!.
    + rewrite Ht'. by apply keyed_insert.
    + intros k Hin. cbn [fst snd] in *. rewrite Ht'. cbn.
      destruct (decide (k = types.ID c)) as [->|Hne].
      { rewrite lookup_insert_eq. eauto. }
      rewrite lookup_insert_ne by done.
      apply Htr. cbn. apply elem_of_dom in Hin. apply elem_of_dom.
      by rewrite lookup_insert_ne in Hin.
    + intros k t0 Hl0 Hh. rewrite Ht'. cbn.
      destruct (decide (k = types.ID c)) as [->|Hne]; [congruence|].
      by rewrite lookup_insert_ne.
    + exists [if tfb then TailFromBeginning (types.ID c) else RecoverTailing (types.ID c)].
      split; [done|]. repeat constructor. by destruct tfb.
Qed.

Lemma first_loop_advances tfb srcs cs st st' :
  forEach cs (λ c, forEach srcs (monitor tfb c)) st = Ok st' → advances tfb st st'.
Proof.
  apply (forEach_rel (advances tfb)).
  - apply advances_refl.
  - apply advances_trans.
  - intros c st1 st2. apply (forEach_rel (advances tfb)).
    + apply advances_refl.
    + apply advances_trans.
    + intros src. apply monitor_advances.
Qed.

Lemma stopOld_called tfb ctm order : ∀ s,
  called tfb s (rangeTailers order (stopOld ctm) s).
Proof.
  unfold rangeTailers. induction order as [|k order IH]; intros s; cbn [foldl].
  { apply called_refl. }
  eapply called_trans; [|apply IH].
  destruct (tailers s !! k) as [t|]; [|apply called_refl].
  unfold stopOld. destruct (ctm !! k); [apply called_refl|].
  exists [TailerStop (ContainerID t) false]. split; [done|]. by repeat constructor.
Qed.

(** What a scan that returns has done. *)
Lemma scan_returns rangeOrder tfb daemon s s' :
  (∀ m, rangeOrder m ≡ₚ elements (dom m)) →
  keyed (tailers s) →
  stopRequested s = false →
  scan rangeOrder tfb daemon s = Ok s' →
  sources s' = sources s ∧ cli s' = cli s ∧ stopRequested s' = false
  ∧ keyed (tailers s')
  ∧ dom (tailers s') = monitoredIDs (sources s) (snapshot daemon)
  ∧ healthy (tailers s')
  ∧ (∀ k t, tailers s !! k = Some t → shouldStop t = false →
            k ∈ monitoredIDs (sources s) (snapshot daemon) →
            tailers s' !! k = Some t)
  ∧ called tfb s s'.
Proof.
  intros Horder Hk Hstop. unfold scan, listContainers. rewrite Hstop.
  destruct (cli s) as [cl|] eqn:Hcl; [|discriminate]. cbn.
  assert (match daemon with
          | client.Listed containers => Ok containers
          | client.ListError _ => Ok []
          end = Ok (snapshot daemon)) as -> by by destruct daemon.
  cbn.
  destruct (containers_loop tfb (sources s) (snapshot daemon) s ∅)
    as [[_ ->]|(s1 & ctm & Heq & Hpass)]; [discriminate|].
  rewrite Heq. cbn. intros [= <-].
  destruct (first_loop_advances _ _ _ _ _ Heq) as (Hk1 & Htr & Hkept & Hcalled);
    [done|by intros k Hin; cbn in Hin; set_solver|].
  unfold tracked in Htr. cbn [fst snd] in *. destruct Hpass.
  destruct (stopOld_loop ctm (rangeOrder (tailers s1)) s1 Hk1)
    as (Hs & Hc & Hst & Hk' & Hl).
  assert (dom ctm = monitoredIDs (sources s) (snapshot daemon)) as Hctm.
  { rewrite pass_ctm0. set_solver. }
  assert (∀ k, k ∈ dom ctm →
               tailers (rangeTailers (rangeOrder (tailers s1)) (stopOld ctm) s1) !! k
               = tailers s1 !! k) as Hin_ctm.
  { intros k Hin. rewrite Hl. rewrite decide_False; [done|].
    intros [_ Hn]. apply elem_of_dom in Hin as [? ?]. congruence. }
  assert (∀ k, is_Some (tailers (rangeTailers (rangeOrder (tailers s1))
                                   (stopOld ctm) s1) !! k) → k ∈ dom ctm) as Hleft.
  { intros k. rewrite Hl.
    destruct (decide (k ∈ rangeOrder (tailers s1) ∧ ctm !! k = None)) as [|Hn];
      [by intros [? ?]|].
    intros Hsome. destruct (ctm !! k) eqn:Hc'; [by apply elem_of_dom_2 in Hc'|].
    exfalso. apply Hn. split; [|done].
    rewrite Horder, elem_of_elements. by apply elem_of_dom. }
  split_and!; [congruence|congruence|congruence|exact Hk'|..].
  - apply set_eq. intros k. rewrite <- Hctm. split.
    + intros Hd%elem_of_dom. by apply Hleft.
    + intros Hin. apply elem_of_dom. rewrite Hin_ctm by done.
      destruct (Htr k Hin) as (t & -> & _). done.
  - intros k t Hlook. assert (k ∈ dom ctm) as Hin by (apply Hleft; eauto).
    rewrite Hin_ctm in Hlook by done.
    destruct (Htr k Hin) as (t' & Ht' & Hh). congruence.
  - intros k t Hlook Hh Hin. rewrite <- Hctm in Hin.
    rewrite Hin_ctm by done. by apply Hkept.
  - eapply called_trans; [apply Hcalled|apply stopOld_called].
Qed.

Lemma scan_unfold rangeOrder tfb daemon s s' :
  stopRequested s = false →
  scan rangeOrder tfb daemon s = Ok s' →
  is_Some (cli s)
  ∧ ∃ s1 ctm,
      forEach (snapshot daemon)
        (λ c, forEach (sources s) (monitor tfb c)) (s, ∅) = Ok (s1, ctm)
      ∧ s' = rangeTailers (rangeOrder (tailers s1)) (stopOld ctm) s1.
Proof.
  intros Hstop. unfold scan, listContainers. rewrite Hstop.
  destruct (cli s) as [cl|] eqn:Hcl; [|discriminate]. cbn.
  assert (match daemon with
          | client.Listed containers => Ok containers
          | client.ListError _ => Ok []
          end = Ok (snapshot daemon)) as -> by by destruct daemon.
  cbn.
  destruct (forEach _ _ _) as [[s1 ctm]|msg]; cbn; [|discriminate].
  intros [= <-]. split; [done|]. by exists s1, ctm.
Qed.

Lemma monitor_settled tfb c src s ctm :
  (sourceShouldMonitorContainer src c = true → settledFor s c) →
  ∃ ctm', monitor tfb c src (s, ctm) = Ok (s, ctm')
          ∧ dom ctm' = added (sourceShouldMonitorContainer src c) c ∪ dom ctm.
Proof.
  intros H. unfold monitor.
  destruct (sourceShouldMonitorContainer src c) eqn:Hm.
  - destruct H as (t & -> & ->); [done|]. eexists. split; [done|].
    by rewrite dom_insert_L.
  - exists ctm. split; [done|]. unfold added. set_solver.
Qed.

Lemma sources_settled tfb c srcs s : ∀ ctm,
  (matched srcs c = true → settledFor s c) →
  ∃ ctm', forEach srcs (monitor tfb c) (s, ctm) = Ok (s, ctm')
          ∧ dom ctm' = added (matched srcs c) c ∪ dom ctm.
Proof.
  induction srcs as [|src srcs IH]; intros ctm H.
  { exists ctm. split; [done|]. unfold added. set_solver. }
  cbn [forEach matched existsb] in *.
  destruct (monitor_settled tfb c src s ctm) as (ctm1 & -> & Hd1).
  { intros Hm. apply H. by rewrite Hm. }
  cbn. destruct (IH ctm1) as (ctm2 & -> & Hd2).
  { intros Hm. apply H. fold (matched srcs c). by rewrite Hm, orb_true_r. }
  exists ctm2. split; [done|]. rewrite Hd2, Hd1. fold (matched srcs c).
  unfold added. destruct (sourceShouldMonitorContainer src c), (matched srcs c);
    set_solver.
Qed.

Lemma containers_settled tfb srcs cs s : ∀ ctm,
  (∀ c, c ∈ cs → matched srcs c = true → settledFor s c) →
  ∃ ctm', forEach cs (λ c, forEach srcs (monitor tfb c)) (s, ctm) = Ok (s, ctm')
          ∧ dom ctm' = monitoredIDs srcs cs ∪ dom ctm.
Proof.
  induction cs as [|c cs IH]; intros ctm H.
  { exists ctm. split; [done|]. rewrite monitoredIDs_nil. set_solver. }
  cbn [forEach].
  destruct (sources_settled tfb c srcs s ctm) as (ctm1 & -> & Hd1).
  { apply H. set_solver. }
  cbn -[monitoredIDs]. destruct (IH ctm1) as (ctm2 & -> & Hd2).
  { intros c' Hin. apply H. set_solver. }
  exists ctm2. split; [done|]. rewrite Hd2, Hd1, monitoredIDs_cons. set_solver.
Qed.

Lemma sweep_settled ctm order s :
  (∀ k, k ∈ order → is_Some (tailers s !! k) → is_Some (ctm !! k)) →
  rangeTailers order (stopOld ctm) s = s.
Proof.
  unfold rangeTailers. induction order as [|k order IH]; intros H; [done|].
  cbn [foldl].
  assert (match tailers s !! k with
          | Some tailer => stopOld ctm k tailer s
          | None => s
          end = s) as ->.
  { destruct (tailers s !! k) as [t|] eqn:Ht; [|done].
    unfold stopOld. destruct (H k) as [b ->]; [set_solver|eauto|done]. }
  apply IH. intros k' Hin. apply H. set_solver.
Qed.

Lemma scan_settled rangeOrder tfb daemon s :
  (∀ m, rangeOrder m ≡ₚ elements (dom m)) →
  is_Some (cli s) →
  healthy (tailers s) →
  dom (tailers s) = monitoredIDs (sources s) (snapshot daemon) →
  scan rangeOrder tfb daemon s = Ok s.
Proof.
  intros Horder [cl Hcl] Hh Hdom. unfold scan, listContainers.
  destruct (stopRequested s); [done|]. rewrite Hcl. cbn.
  assert (match daemon with
          | client.Listed containers => Ok containers
          | client.ListError _ => Ok []
          end = Ok (snapshot daemon)) as -> by by destruct daemon.
  cbn.
  destruct (containers_settled tfb (sources s) (snapshot daemon) s ∅)
    as (ctm & -> & Hctm).
  { intros c Hin Hm.
    assert (types.ID c ∈ dom (tailers s)) as [t Ht]%elem_of_dom.
    { rewrite Hdom. apply elem_of_monitoredIDs. eauto. }
    exists t. eauto. }
  cbn. f_equal. apply sweep_settled. intros k _ Hs.
  apply elem_of_dom. rewrite Hctm, <- Hdom. apply elem_of_dom in Hs. set_solver.
Qed.

Lemma quiet_refl k s : quiet k s s.
Proof. exists []. by rewrite app_nil_r. Qed.

Lemma quiet_trans k s1 s2 s3 : quiet k s1 s2 → quiet k s2 s3 → quiet k s1 s3.
Proof.
  intros (n1 & H1 & F1) (n2 & H2 & F2). exists (n1 ++ n2).
  split; [by rewrite H2, H1, app_assoc|]. by apply Forall_app.
Qed.

Lemma spares_refl k st : spares k st st.
Proof. intros Hk Ht. split_and!; [done|done|apply quiet_refl]. Qed.

Lemma spares_trans k st1 st2 st3 :
  spares k st1 st2 → spares k st2 st3 → spares k st1 st3.
Proof.
  intros H12 H23 Hk Ht.
  destruct (H12 Hk Ht) as (Hk2 & Ht2 & Hq2).
  destruct (H23 Hk2 Ht2) as (Hk3 & Ht3 & Hq3).
  split_and!; [done|done|by eapply quiet_trans].
Qed.

Lemma monitor_spares k tfb c src st st' :
  monitor tfb c src st = Ok st' → spares k st st'.
Proof.
  destruct st as [s ctm]. unfold monitor.
  destruct (sourceShouldMonitorContainer src c) eqn:Hm.
  2:{ intros [= <-]. apply spares_refl. }
  destruct (tailers s !! types.ID c) as [t|] eqn:Ht.
  - destruct (shouldStop t) eqn:Hst.
    + cbn [NextPipelineChan].
      match goal with |- context [setupTailer ?a ?b ?c ?d ?e ?f] =>
        destruct (setupTailer_cases a b c d e f)
          as [[Hl ->]|[Hl (s' & Heq & Ht' & Hs' & Hc' & Hst')]]
      end; [discriminate|].
      rewrite Heq. apply setupTailer_calls in Heq.
      cbn. intros [= <-] Hk (t0 & Ht0 & Hh0). cbn [fst snd] in *.
      assert (ContainerID t = types.ID c) as Hid by eauto.
      assert (k ≠ types.ID c) as Hne by (intros ->; congruence).
      split_and!.
      * rewrite Ht'. apply keyed_insert; [|done]. cbn. by apply keyed_delete.
      * exists t0. rewrite Ht'. cbn. rewrite Hid.
        by rewrite lookup_insert_ne, lookup_delete_ne.
      * exists [TailerStop (ContainerID t) false;
                if tfb then TailFromBeginning (types.ID c) else RecoverTailing (types.ID c)].
        split; [by rewrite Heq; cbn; rewrite <- app_assoc|].
        rewrite Hid. repeat constructor; cbn; [done|]. by destruct tfb.
    + intros [= <-] Hk Ht0. cbn [fst snd] in *.
      split_and!; [done|done|apply quiet_refl].
  - cbn [NextPipelineChan].
    match goal with |- context [setupTailer ?a ?b ?c ?d ?e ?f] =>
      destruct (setupTailer_cases a b c d e f)
        as [[Hl ->]|[Hl (s' & Heq & Ht' & Hs' & Hc' & Hst')]]
    end; [discriminate|].
    rewrite Heq. apply setupTailer_calls in Heq.
    cbn. intros [= <-] Hk (t0 & Ht0 & Hh0). cbn [fst snd] in *.
    assert (k ≠ types.ID c) as Hne by (intros ->; congruence).
    split_and!.
    + rewrite Ht'. by apply keyed_insert.
    + exists t0. rewrite Ht'. cbn. by rewrite lookup_insert_ne.
    + exists [if tfb then TailFromBeginning (types.ID c) else RecoverTailing (types.ID c)].
      split; [done|]. repeat constructor. by destruct tfb.
Qed.

Lemma first_loop_spares k tfb srcs cs st st' :
  forEach cs (λ c, forEach srcs (monitor tfb c)) st = Ok st' → spares k st st'.
Proof.
  apply (forEach_rel (spares k)).
  - apply spares_refl.
  - apply spares_trans.
  - intros c st1 st2. apply (forEach_rel (spares k)).
    + apply spares_refl.
    + apply spares_trans.
    + intros src. apply monitor_spares.
Qed.

Lemma stopOld_quiet k ctm order : ∀ s,
  keyed (tailers s) → is_Some (ctm !! k) →
  quiet k s (rangeTailers order (stopOld ctm) s).
Proof.
  unfold rangeTailers. induction order as [|k' order IH]; intros s Hk Hin; cbn [foldl].
  { apply quiet_refl. }
  destruct (tailers s !! k') as [t|] eqn:Ht; [|by apply IH].
  unfold stopOld at 2. destruct (ctm !! k') eqn:Hc; [by apply IH|].
  eapply quiet_trans; [|apply IH; [by apply keyed_delete|done]].
  exists [TailerStop (ContainerID t) false]. split; [done|].
  repeat constructor. cbn. rewrite (Hk _ _ Ht). intros ->.
  rewrite Hc in Hin. by destruct Hin.
Qed.

(** X1: a scan that returns leaves alone the healthy tailer of a container
    that is still matched: the registry holds the very same tailer, and
    among the calls the scan adds none is made for that container: its
    tailer is not stopped and no second one is started for it. *)
Theorem scan_keeps_healthy_tailer rangeOrder tfb daemon s s' c t :
  (∀ m, rangeOrder m ≡ₚ elements (dom m)) →
  keyed (tailers s) →
  scan rangeOrder tfb daemon s = Ok s' →
  c ∈ snapshot daemon →
  matched (sources s) c = true →
  tailers s !! types.ID c = Some t →
  shouldStop t = false →
  tailers s' !! types.ID c = Some t
  ∧ ∃ new, calls s' = calls s ++ new
           ∧ Forall (λ call, target call ≠ types.ID c) new.
Proof.
  intros Horder Hk Hscan Hin Hm Ht Hh.
  destruct (stopRequested s) eqn:Hstop.
  { unfold scan in Hscan. rewrite Hstop in Hscan. injection Hscan as <-.
    split; [done|]. apply quiet_refl. }
  split.
  { destruct (scan_returns _ _ _ _ _ Horder Hk Hstop Hscan)
      as (_ & _ & _ & _ & _ & _ & Hkept & _).
    apply Hkept; [done..|]. apply elem_of_monitoredIDs. eauto. }
  destruct (scan_unfold _ _ _ _ _ Hstop Hscan) as [_ (s1 & ctm & Heq & ->)].
  destruct (first_loop_spares (types.ID c) _ _ _ _ _ Heq) as (Hk1 & _ & Hq1);
    [done|by eauto|].
  cbn [fst snd] in *.
  destruct (containers_loop tfb (sources s) (snapshot daemon) s ∅)
    as [[_ Hp]|(s1' & ctm' & Heq' & Hpass)]; [congruence|].
  rewrite Heq in Heq'. injection Heq' as <- <-.
  eapply quiet_trans; [exact Hq1|]. apply stopOld_quiet; [done|].
  apply elem_of_dom. rewrite (pass_ctm _ _ _ _ _ _ Hpass).
  apply elem_of_union. left. apply elem_of_monitoredIDs. eauto.
Qed.

(** X2: a scan that returns has reached a fixed point: a second scan of
    the same snapshot, in either mode, returns the same scanner: no tailer
    is started or stopped and no pipeline channel is taken. *)
Theorem scan_idempotent rangeOrder tfb tfb' daemon s s' :
  (∀ m, rangeOrder m ≡ₚ elements (dom m)) →
  keyed (tailers s) →
  scan rangeOrder tfb daemon s = Ok s' →
  scan rangeOrder tfb' daemon s' = Ok s'.
Proof.
  intros Horder Hk Hscan.
  destruct (stopRequested s) eqn:Hstop.
  { unfold scan in Hscan. rewrite Hstop in Hscan. injection Hscan as <-.
    unfold scan. by rewrite Hstop. }
  destruct (scan_unfold _ _ _ _ _ Hstop Hscan) as [Hcli _].
  destruct (scan_returns _ _ _ _ _ Horder Hk Hstop Hscan)
    as (Hs & Hc & _ & _ & Hdom & Hh & _ & _).
  apply scan_settled; [done|by rewrite Hc|done|by rewrite Hs].
Qed.

(** X3: a scan in one mode starts tailers in that mode only, and stops
    tailers without offset tracking only: what it adds to the calls made on
    tailers are stops with [false] and starts of the mode asked for. *)
Theorem scan_calls_follow_mode rangeOrder tfb daemon s s' :
  keyed (tailers s) →
  scan rangeOrder tfb daemon s = Ok s' →
  ∃ new, calls s' = calls s ++ new ∧ Forall (allowed tfb) new.
Proof.
  intros Hk Hscan.
  destruct (stopRequested s) eqn:Hstop.
  { unfold scan in Hscan. rewrite Hstop in Hscan. injection Hscan as <-.
    apply called_refl. }
  destruct (scan_unfold _ _ _ _ _ Hstop Hscan) as [_ (s1 & ctm & Heq & ->)].
  destruct (first_loop_advances _ _ _ _ _ Heq) as (_ & _ & _ & Hcalled);
    [done|by intros k Hin; cbn in Hin; set_solver|].
  eapply called_trans; [apply Hcalled|apply stopOld_called].
Qed.
End reconciliation_more.

(** *** Shutdown of the scanner and failure of the listing *)

Section shutdown.
Import GoStrings container scanning samples.
Local Open Scope nat_scope.

Lemma rangeTailers_ext order body body' : ∀ s,
  (∀ k t s, body k t s = body' k t s) →
  rangeTailers order body s = rangeTailers order body' s.
Proof.
  unfold rangeTailers. induction order as [|k order IH]; intros s H; [done|].
  cbn [foldl]. rewrite IH by done. by destruct (tailers s !! k); rewrite ?H.
Qed.

Lemma stopWith_loop b order : ∀ s,
  keyed (tailers s) → NoDup order →
  (∀ k, k ∈ order → k ∈ dom (tailers s)) →
  let s' := rangeTailers order (λ _, stopWith b) s in
  (∀ k, tailers s' !! k = if decide (k ∈ order) then None else tailers s !! k)
  ∧ calls s' = calls s ++ ((λ k, TailerStop k b) <$> order)
  ∧ sources s' = sources s ∧ cli s' = cli s
  ∧ stopRequested s' = stopRequested s ∧ pp s' = pp s.
Proof.
  unfold rangeTailers. induction order as [|k0 order IH]; intros s Hk Hnd Hin.
  { cbn. rewrite app_nil_r. split_and!; try done. }
  cbn [foldl]. apply NoDup_cons in Hnd as [Hk0 Hnd].
  destruct (tailers s !! k0) as [t|] eqn:Ht.
  2:{ exfalso. assert (k0 ∈ dom (tailers s)) as Hd by (apply Hin; set_solver).
      apply elem_of_dom in Hd as [? ?]. congruence. }
  assert (ContainerID t = k0) as Hid by eauto.
  destruct (IH (stopWith b t s)) as (Hl & Hc & Hs & Hcl & Hst & Hpp).
  { cbn. by apply keyed_delete. }
  { done. }
  { intros k Hk'. cbn. rewrite Hid, dom_delete_L.
    assert (k ≠ k0) by (intros ->; done).
    assert (k ∈ dom (tailers s)) by (apply Hin; set_solver). set_solver. }
  cbn. split_and!; try done.
  - intros k. rewrite Hl. cbn. rewrite Hid.
    destruct (decide (k = k0)) as [->|Hne].
    + rewrite (decide_True (P := k0 ∈ k0 :: order)) by (apply elem_of_cons; by left).
      destruct (decide (k0 ∈ order)); [done|apply lookup_delete_eq].
    + rewrite lookup_delete_ne by done.
      destruct (decide (k ∈ order)) as [Hin'|Hin'].
      * rewrite (decide_True (P := k ∈ k0 :: order)); [done|].
        apply elem_of_cons. by right.
      * rewrite (decide_False (P := k ∈ k0 :: order)); [done|].
        intros [->|?]%elem_of_cons; done.
  - rewrite Hc. cbn. rewrite Hid, <- app_assoc. done.
Qed.

Lemma stopWith_all rangeOrder b s :
  (∀ m, rangeOrder m ≡ₚ elements (dom m)) →
  keyed (tailers s) →
  let s' := rangeTailers (rangeOrder (tailers s)) (λ _, stopWith b) s in
  tailers s' = ∅
  ∧ calls s' = calls s ++ ((λ k, TailerStop k b) <$> rangeOrder (tailers s))
  ∧ sources s' = sources s ∧ cli s' = cli s
  ∧ stopRequested s' = stopRequested s ∧ pp s' = pp s.
Proof.
  intros Horder Hk.
  destruct (stopWith_loop b (rangeOrder (tailers s)) s) as (Hl & Hrest); [done|..].
  { rewrite Horder. apply NoDup_elements. }
  { intros k. rewrite Horder. apply elem_of_elements. }
  split; [|done]. apply map_eq. intros k. rewrite Hl, lookup_empty.
  destruct (decide (k ∈ rangeOrder (tailers s))) as [|Hn]; [done|].
  apply not_elem_of_dom. intros Hd. apply Hn. rewrite Horder. by apply elem_of_elements.
Qed.

Lemma stopRequested_rangeTailers order body : ∀ s,
  (∀ k t s, stopRequested (body k t s) = stopRequested s) →
  stopRequested (rangeTailers order body s) = stopRequested s.
Proof.
  unfold rangeTailers. induction order as [|k order IH]; intros s H; [done|].
  cbn [foldl]. rewrite IH by done. by destruct (tailers s !! k); rewrite ?H.
Qed.

(** X4: [Stop] marks the scanner as stopping, stops every registered tailer
    exactly once, with offset tracking, in whatever order, and leaves the
    registry empty; the sources and the client are untouched. *)
Theorem Stop_stops_every_tailer rangeOrder s :
  (∀ m, rangeOrder m ≡ₚ elements (dom m)) →
  keyed (tailers s) →
  tailers (Stop rangeOrder s) = ∅
  ∧ stopRequested (Stop rangeOrder s) = true
  ∧ (∃ stops, calls (Stop rangeOrder s) = calls s ++ stops
              ∧ stops ≡ₚ (λ k, TailerStop k true) <$> elements (dom (tailers s)))
  ∧ sources (Stop rangeOrder s) = sources s
  ∧ cli (Stop rangeOrder s) = cli s.
Proof.
  intros Horder Hk.
  destruct (stopWith_all rangeOrder true (withStop s) Horder Hk)
    as (Ht & Hc & Hs & Hcl & Hst & _).
  unfold Stop. change (λ _ tailer s0,
         withTailers (delete (ContainerID tailer))
           (withCall (TailerStop (ContainerID tailer) true) s0))
    with (λ _ : string, stopWith true).
  split_and!; [done..| |done|done].
  eexists. split; [exact Hc|]. by apply fmap_Permutation.
Qed.

(** X5: once [Stop] has run, [scan] does nothing: it returns the stopped
    scanner as it is, whatever the daemon answers, so no tailer comes back
    after a shutdown. *)
Theorem scan_after_Stop rangeOrder rangeOrder' tfb daemon s :
  scan rangeOrder' tfb daemon (Stop rangeOrder s) = Ok (Stop rangeOrder s).
Proof.
  unfold scan.
  assert (stopRequested (Stop rangeOrder s) = true) as ->; [|done].
  unfold Stop. by rewrite stopRequested_rangeTailers.
Qed.

(** X6: when the listing of the containers fails, [scan] does not fail:
    it takes the snapshot as empty, so it stops every registered tailer
    (without offset tracking) and leaves the registry empty. *)
Theorem scan_listing_failure rangeOrder tfb err s :
  (∀ m, rangeOrder m ≡ₚ elements (dom m)) →
  stopRequested s = false →
  is_Some (cli s) →
  keyed (tailers s) →
  ∃ s', scan rangeOrder tfb (client.ListError err) s = Ok s'
        ∧ tailers s' = ∅
        ∧ calls s' = calls s ++ ((λ k, TailerStop k false) <$> rangeOrder (tailers s)).
Proof.
  intros Horder Hstop [cl Hcl] Hk. unfold scan, listContainers.
  rewrite Hstop, Hcl. cbn. eexists. split; [done|].
  rewrite (rangeTailers_ext _ _ (λ _, stopWith false)).
  2:{ intros k t s0. unfold stopOld. by rewrite lookup_empty. }
  destruct (stopWith_all rangeOrder false s Horder Hk) as (Ht & Hc & _).
  done.
Qed.
End shutdown.

(** *** Start-up of the scanner, and the label filter *)

Section startup.
Import GoStrings container scanning samples.
Local Open Scope nat_scope.

Lemma New_without_container_source srcs pp :
  Forall (λ src, config.Type_ (config.Config src) ≠ config.DockerType) srcs →
  sources (New srcs pp) = [].
Proof.
  intros H. cbn. induction H as [|src srcs Hsrc _ IH]; [done|].
  rewrite filter_cons. destruct (decide _); [done|apply IH].
Qed.

(** X7: a scanner built from sources none of which is a container source
    does not start: [Start] returns it as [New] built it, without touching
    the client constructor and without launching the loop. *)
Theorem Start_without_container_source rangeOrder env srcs pp :
  Forall (λ src, config.Type_ (config.Config src) ≠ config.DockerType) srcs →
  Start rangeOrder env (New srcs pp) = Ok (New srcs pp, false).
Proof.
  intros H. apply Start_without_sources. by apply New_without_container_source.
Qed.

(** X8: when [Start] launches the loop, the scanner has a source, the
    client was built without error, its API version is pinned to 1.25
    unless it was set by hand, and the first scan has run.  On a scanner
    that was not stopped before, the registry then holds the matched
    containers of the listing, and every tailer started was resumed, none
    read from the beginning; on a scanner that was stopped before, the
    scan did nothing: the registry and the calls are as they were. *)
Theorem Start_launches_after_recovering rangeOrder env s s' :
  (∀ m, rangeOrder m ≡ₚ elements (dom m)) →
  keyed (tailers s) →
  Start rangeOrder env s = Ok (s', true) →
  ∃ cl,
    NewEnvClient env = (Some cl, None)
    ∧ sources s ≠ []
    ∧ cli s' = Some (if client.manualOverride cl then cl
                     else {| client.version := "1.25";
                             client.manualOverride := false |})
    ∧ if stopRequested s
      then tailers s' = tailers s ∧ calls s' = calls s
      else dom (tailers s') = monitoredIDs (sources s) (snapshot (daemon env))
           ∧ ∃ new, calls s' = calls s ++ new ∧ Forall (allowed false) new.
Proof.
  intros Horder Hk. unfold Start, setup.
  destruct (sources s) as [|src srcs] eqn:Hsrc; [discriminate|].
  cbn [length Nat.eqb]. rewrite <- Hsrc.
  destruct (NewEnvClient env) as [[cl|] err]; [|discriminate]. cbn.
  destruct err as [err|]; [discriminate|].
  set (s0 := withCli _ s).
  destruct (scan rangeOrder false (daemon env) s0) as [s1|msg] eqn:Hscan;
    cbn; [|discriminate].
  intros [= <-]. exists cl. split; [done|]. split; [by rewrite Hsrc|].
  destruct (stopRequested s) eqn:Hstop.
  - unfold scan in Hscan. assert (stopRequested s0 = true) as Hs0 by done.
    rewrite Hs0 in Hscan. injection Hscan as <-. subst s0. cbn.
    split; [|done]. by destruct (client.manualOverride cl).
  - destruct (scan_returns rangeOrder false (daemon env) s0 s1 Horder Hk Hstop Hscan)
      as (_ & Hc & _ & _ & Hdom & _ & _ & Hcalled).
    split; [|done].
    rewrite Hc. subst s0. cbn. by destruct (client.manualOverride cl) eqn:Hm.
Qed.
End startup.

Section labels.
Import GoStrings container samples.

Lemma spec_entryMatches_mono (labels labels' : gmap string string) entry :
  labels ⊆ labels' →
  spec_entryMatches labels entry = true → spec_entryMatches labels' entry = true.
Proof.
  intros Hsub. unfold spec_entryMatches. rewrite !orb_true_iff.
  intros [H|H]; [left|right].
  - apply bool_decide_eq_true in H. apply bool_decide_eq_true.
    destruct H as [v Hv]. exists v. by eapply lookup_weaken.
  - destruct (FieldsFunc entry isLabelSep) as [|k [|v [|? ?]]]; try done.
    apply bool_decide_eq_true in H. apply bool_decide_eq_true.
    by eapply lookup_weaken.
Qed.

Lemma spec_labelsMatch_mono (labels labels' : gmap string string) filter :
  labels ⊆ labels' →
  spec_labelsMatch labels filter = true → spec_labelsMatch labels' filter = true.
Proof.
  intros Hsub. unfold spec_labelsMatch. rewrite !existsb_exists.
  intros (e & Hin & He). exists e. eauto using spec_entryMatches_mono.
Qed.

(** X9: a container that a source matches still matches when it carries
    more labels: with the same image, labels added to those it has never
    turn a match into a rejection. *)
Theorem more_labels_keep_match source c c' :
  types.Image c' = types.Image c →
  types.Labels c ⊆ types.Labels c' →
  sourceShouldMonitorContainer source c = true →
  sourceShouldMonitorContainer source c' = true.
Proof.
  intros Himg Hsub. rewrite !sourceShouldMonitorContainer_both, Himg.
  rewrite !andb_true_iff, !orb_true_iff. intros [Hi Hl]. split; [done|].
  destruct Hl as [Hl|Hl]; [by left|right]. by eapply spec_labelsMatch_mono.
Qed.
End labels.

(** *** The file provider: ceiling, provenance and errors *)

Section provider_more.
Import tailer samples.
Variable Glob : string → globResult.

Lemma FilesToTailLogged_walk (r : FileProvider) log :
  (FilesToTailLogged Glob r log).1 = walk Glob (filesLimit r) (sources r) ([], log).
Proof. unfold FilesToTailLogged. by destruct (walk _ _ _ _). Qed.

Lemma FilesToTailLogged_files (r : FileProvider) log :
  (FilesToTailLogged Glob r log).1.1
  = take (Z.to_nat (filesLimit r)) (concat (contribution Glob <$> sources r)).
Proof.
  rewrite FilesToTailLogged_walk, walk_files. cbn [app length].
  by rewrite Nat.sub_0_r.
Qed.

Lemma FilesToTailLogged_warning (r : FileProvider) log :
  (FilesToTailLogged Glob r log).2
  = (Z.of_nat (length (FilesToTailLogged Glob r log).1.1) =? filesLimit r).
Proof. unfold FilesToTailLogged. by destruct (walk _ _ _ _). Qed.

(** X10: with a ceiling of zero or less, [FilesToTail] looks at no source:
    it returns no file and records no error, whatever the sources are. *)
Theorem FilesToTail_without_budget (r : FileProvider) log :
  filesLimit r ≤ 0 →
  (FilesToTailLogged Glob r log).1 = ([], log).
Proof.
  intros Hle. rewrite FilesToTailLogged_walk. apply walk_stop. cbn. lia.
Qed.

(** X11: for a ceiling N >= 0, the saturation warning is logged exactly
    when the sources have at least N files to give: also when they have
    exactly N and nothing was left out. *)
Theorem saturation_warning (r : FileProvider) log :
  0 ≤ filesLimit r →
  (FilesToTailLogged Glob r log).2 = true
  ↔ filesLimit r ≤ Z.of_nat (length (concat (contribution Glob <$> sources r))).
Proof.
  intros Hpos. rewrite FilesToTailLogged_warning, FilesToTailLogged_files.
  rewrite length_take, Z.eqb_eq. lia.
Qed.

(** X12: every file returned belongs to a source of the provider; its path
    is the path of the source when that has no wildcard, and else one of
    the matches of the expansion of the pattern. *)
Theorem FilesToTail_provenance (r : FileProvider) f :
  f ∈ FilesToTail Glob r →
  Source f ∈ sources r
  ∧ if containsWildcards (config.Path (config.Config (Source f)))
    then ∃ paths, Glob (config.Path (config.Config (Source f))) = Matches paths
                  ∧ Path f ∈ paths
    else Path f = config.Path (config.Config (Source f)).
Proof.
  unfold FilesToTail. rewrite FilesToTailLogged_files.
  intros Hf%subseteq_take. apply list_elem_of_In, in_concat in Hf as (fs & Hfs & Hf).
  apply list_elem_of_In, list_elem_of_fmap in Hfs as (src & -> & Hsrc).
  apply list_elem_of_In in Hf. unfold contribution in Hf.
  destruct (containsWildcards (config.Path (config.Config src))) eqn:Hw; cbn in Hf.
  - destruct (Glob _) as [paths|] eqn:Hg; [|by apply elem_of_nil in Hf].
    apply list_elem_of_fmap in Hf as (p & -> & Hp). cbn. rewrite Hw. eauto.
  - apply list_elem_of_singleton in Hf as ->. cbn. by rewrite Hw.
Qed.

Lemma take_prefix_le {A} (l : list A) n m : (n ≤ m)%nat → take n l `prefix_of` take m l.
Proof.
  intros Hle. exists (drop n (take m l)).
  rewrite <- (take_drop n (take m l)) at 1. f_equal.
  rewrite take_take. f_equal. lia.
Qed.

(** X13: raising the ceiling only adds files at the end: what a provider
    returns under a ceiling is a prefix of what it returns, over the same
    sources and filesystem, under a higher one. *)
Theorem FilesToTail_prefix srcs n m :
  n ≤ m →
  FilesToTail Glob (NewFileProvider srcs n)
  `prefix_of` FilesToTail Glob (NewFileProvider srcs m).
Proof.
  intros Hle. unfold FilesToTail. rewrite !FilesToTailLogged_files. cbn.
  apply take_prefix_le. lia.
Qed.

Lemma visit_log limit source files log :
  ∃ new, (visit Glob limit source (files, log)).2 = log ++ new
         ∧ Forall (λ e, config.Status source = e.1 ∧ barren Glob source = true) new.
Proof.
  unfold visit, barren.
  destruct (containsWildcards _); cbn [negb andb].
  2:{ exists []. by rewrite app_nil_r. }
  destruct (Glob _) as [paths|].
  - destruct (length paths =? 0)%nat eqn:Hn.
    + eexists [_]. split; [done|]. by repeat constructor.
    + exists []. by rewrite app_nil_r.
  - eexists [_]. split; [done|]. by repeat constructor.
Qed.

Lemma walk_log limit srcs : ∀ files log,
  ∃ new, (walk Glob limit srcs (files, log)).2 = log ++ new
         ∧ Forall (λ e, ∃ source, source ∈ srcs ∧ config.Status source = e.1
                                  ∧ barren Glob source = true) new.
Proof.
  induction srcs as [|source srcs IH]; intros files log; cbn [walk fst].
  { exists []. by rewrite app_nil_r. }
  destruct (Z.of_nat (length files) <? limit).
  2:{ exists []. by rewrite app_nil_r. }
  destruct (visit_log limit source files log) as (new1 & H1 & F1).
  destruct (visit Glob limit source (files, log)) as [files1 log1].
  cbn [snd] in H1. subst log1.
  destruct (IH files1 (log ++ new1)) as (new2 & H2 & F2).
  exists (new1 ++ new2). split; [by rewrite H2, app_assoc|].
  apply Forall_app. split.
  - eapply Forall_impl; [exact F1|]. intros e [? ?]. exists source. set_solver.
  - eapply Forall_impl; [exact F2|]. intros e (src & ? & ? & ?). exists src. set_solver.
Qed.

(** X14: [FilesToTail] only adds to what the status sinks hold, and every
    error it records is on the sink of a wildcarded source of the provider
    whose expansion failed or found nothing: a source that gives files, and
    a source without wildcard, get no error. *)
Theorem FilesToTail_errors (r : FileProvider) log :
  ∃ new,
    (FilesToTailLogged Glob r log).1.2 = log ++ new
    ∧ Forall (λ e, ∃ source, source ∈ sources r ∧ config.Status source = e.1
                             ∧ barren Glob source = true) new.
Proof. rewrite FilesToTailLogged_walk. apply walk_log. Qed.

Lemma contribution_literal source :
  containsWildcards (config.Path (config.Config source)) = false →
  contribution Glob source = [NewFile (config.Path (config.Config source)) source].
Proof. unfold contribution. by intros ->. Qed.

(** X15: a provider whose sources are all paths without wildcard never
    looks at the filesystem: it returns the first N paths as they are
    written, in the order of the sources, and records no error. *)
Theorem FilesToTail_literal (r : FileProvider) log :
  Forall (λ source, containsWildcards (config.Path (config.Config source)) = false)
         (sources r) →
  (FilesToTailLogged Glob r log).1
  = (take (Z.to_nat (filesLimit r))
       ((λ source, NewFile (config.Path (config.Config source)) source) <$> sources r),
     log).
Proof.
  intros Hlit.
  assert (concat (contribution Glob <$> sources r)
          = (λ source, NewFile (config.Path (config.Config source)) source)
              <$> sources r) as Hc.
  { induction Hlit as [|source srcs Hs _ IH]; [done|].
    cbn. by rewrite contribution_literal, IH. }
  destruct (walk_log (filesLimit r) (sources r) [] log) as (new & Hlog & Hnew).
  rewrite <- FilesToTailLogged_walk in Hlog.
  assert (new = []) as ->.
  { destruct new as [|e new]; [done|]. exfalso.
    apply Forall_cons in Hnew as [(source & Hin & _ & Hb) _].
    rewrite Forall_forall in Hlit. specialize (Hlit source Hin).
    unfold barren in Hb. by rewrite Hlit in Hb. }
  rewrite app_nil_r in Hlog.
  pose proof (FilesToTailLogged_files r log) as Hf. rewrite Hc in Hf.
  destruct (FilesToTailLogged Glob r log) as [[files log'] warn].
  cbn in *. by subst.
Qed.
End provider_more.

(** *** The event fan-out: the states the operations keep to *)

Section channels.
Import docker dispatching samples.

Lemma offer_spec {A} (h : heap A) a v c :
  h !! a = Some c → closed c = false →
  offer a v h = Ok (room c, <[a := sent v c]> h).
Proof.
  intros Ha Hc. unfold offer, sent, room. rewrite Ha, Hc.
  destruct (Z.of_nat (length (buffer c)) <? capacity c).
  - unfold push. by rewrite Hc.
  - by rewrite insert_id.
Qed.

Lemma close_spec {A} (h : heap A) a c :
  h !! a = Some c → closed c = false → close a h = Ok (<[a := shut c]> h).
Proof. intros Ha Hc. unfold close. by rewrite Ha, Hc. Qed.

Lemma sent_closed {A} (v : A) c : closed (sent v c) = closed c.
Proof. unfold sent. by destruct (room c). Qed.

Lemma offered_closed {A} b (v : A) c : closed (offered b v c) = closed c.
Proof. unfold offered. destruct b; [done|apply sent_closed]. Qed.

(** Taking the next timer changes nothing else. *)
Lemma nextTimer_frame st :
  events (nextTimer st).2 = events st ∧ errors (nextTimer st).2 = errors st
  ∧ signals (nextTimer st).2 = signals st ∧ fan (nextTimer st).2 = fan st
  ∧ dispatchers (nextTimer st).2 = dispatchers st
  ∧ memory (nextTimer st).2 = memory st.
Proof. unfold nextTimer. by destruct (timers st). Qed.

Lemma nextTimer_none st : timers st = [] → nextTimer st = (false, st).
Proof. unfold nextTimer. by intros ->. Qed.

Lemma nextTimer_timers st : timers st = [] → timers (nextTimer st).2 = [].
Proof. intros H. by rewrite nextTimer_none. Qed.

Lemma listener_nextTimer name st : listener name (nextTimer st).2 = listener name st.
Proof. unfold listener. by destruct (nextTimer_frame st) as (_ & _ & _ & -> & _). Qed.

Lemma sendError_cases o err st :
  sendError o err st
  = if (nextTimer st).1 then Ok (Some fanout.ErrWriteTimeout, (nextTimer st).2)
    else '(sent, h) ← offer (errorOutput o) err (errors (nextTimer st).2);
         Ok (if sent : bool then None else Some fanout.ErrWriteTimeout,
             withErrors h (nextTimer st).2).
Proof. unfold sendError. by destruct (nextTimer st) as [[] ?]. Qed.

Lemma sendData_cases o d st :
  sendData o d st
  = if (nextTimer st).1 then Ok (Some fanout.ErrWriteTimeout, (nextTimer st).2)
    else '(sent, h) ← offer (dataOutput o) d (events (nextTimer st).2);
         Ok (if sent : bool then None else Some fanout.ErrWriteTimeout,
             withEvents h (nextTimer st).2).
Proof. unfold sendData. by destruct (nextTimer st) as [[] ?]. Qed.

Lemma closeOutput_spec out err st cd ce :
  events st !! dataOutput out = Some cd → closed cd = false →
  errors st !! errorOutput out = Some ce → closed ce = false →
  closeOutput out err st = Ok (shutOutput (nextTimer st).1 out err (nextTimer st).2).
Proof.
  intros Hd Hcd He Hce. unfold closeOutput, shutOutput. rewrite sendError_cases.
  destruct (nextTimer_frame st) as (Hev & Her & _).
  destruct (nextTimer st) as [b st']. cbn [fst snd] in *.
  rewrite <- Hev in Hd. rewrite <- Her in He. clear Hev Her.
  assert (∀ ce', closed ce' = false →
            ((close (dataOutput out) (events st')
              ≫= λ hd, close (errorOutput out) (<[errorOutput out := ce']> (errors st'))
              ≫= λ he, Ok (withErrors he
                             (withEvents hd
                                (withErrors (<[errorOutput out := ce']> (errors st')) st'))))
            = Ok (withErrors (alter (λ _, shut ce') (errorOutput out) (errors st'))
                    (withEvents (alter shut (dataOutput out) (events st')) st')))) as Hclose.
  { intros ce' Hce'. rewrite (close_spec _ _ cd) by done. cbn.
    rewrite (close_spec _ _ ce'); [|apply lookup_insert_eq|done].
    cbn. unfold withErrors, withEvents. cbn. f_equal. f_equal.
    - apply map_eq. intros a. destruct (decide (a = dataOutput out)) as [->|Hne].
      + by rewrite lookup_insert_eq, lookup_alter_eq, Hd.
      + by rewrite lookup_insert_ne, lookup_alter_ne.
    - apply map_eq. intros a. destruct (decide (a = errorOutput out)) as [->|Hne].
      + by rewrite lookup_insert_eq, lookup_alter_eq, He.
      + by rewrite !lookup_insert_ne, lookup_alter_ne. }
  assert (∀ f : chan string → chan string,
            alter (λ _, f ce) (errorOutput out) (errors st')
            = alter f (errorOutput out) (errors st')) as Halter.
  { intros f. apply map_eq. intros a. destruct (decide (a = errorOutput out)) as [->|Hne].
    - by rewrite !lookup_alter_eq, He.
    - by rewrite !lookup_alter_ne. }
  destruct b; cbn [offered].
  - cbn. specialize (Hclose ce Hce). rewrite insert_id in Hclose by done.
    replace (withErrors (errors st') st') with st' in Hclose by by destruct st'.
    rewrite Hclose. by rewrite (Halter (λ c, shut c)).
  - rewrite (offer_spec _ _ _ ce) by done. cbn.
    rewrite (Hclose (sent err ce)) by by rewrite sent_closed.
    by rewrite (Halter (λ c, shut (sent err c))).
Qed.
End channels.

Section soundness.
Import docker dispatching samples.

Lemma listener_removed b name out err st name' :
  listener name' (removed b name out err st)
  = if decide (name' = name) then None else listener name' st.
Proof.
  unfold listener, removed. cbn. destruct (listeners (fan st)) as [m|]; cbn.
  - destruct (decide (name' = name)) as [->|Hne].
    + apply lookup_delete_eq.
    + by apply lookup_delete_ne.
  - by destruct (decide (name' = name)).
Qed.

Lemma listener_dropped name out err st name' :
  listener name' (dropped name out err st)
  = if decide (name' = name) then None else listener name' st.
Proof. unfold dropped. by rewrite listener_removed, listener_nextTimer. Qed.

Lemma open_alter_ne {A} (f : chan A → chan A) (h : heap A) a b :
  a ≠ b → open (alter f a h) b ↔ open h b.
Proof. intros Hne. unfold open. by rewrite lookup_alter_ne. Qed.

Lemma sound_removed b name out err st :
  sound st → listener name st = Some out → sound (removed b name out err st).
Proof.
  intros [Hm Ho Ha Hs] Hl. split.
  - cbn. by apply fmap_is_Some.
  - intros name' out'. rewrite listener_removed.
    destruct (decide (name' = name)) as [->|Hne]; [done|]. intros Hl'.
    destruct (Ha _ _ _ _ Hl' Hl Hne) as [Hd He].
    destruct (Ho _ _ Hl') as [Hod Hoe]. cbn. split.
    + by apply open_alter_ne.
    + by apply open_alter_ne.
  - intros n1 n2 o1 o2. rewrite !listener_removed.
    destruct (decide (n1 = name)); [done|]. destruct (decide (n2 = name)); [done|].
    apply Ha.
  - exact Hs.
Qed.

Lemma sound_nextTimer st : sound st → sound (nextTimer st).2.
Proof.
  intros [Hm Ho Ha Hs]. destruct (nextTimer_frame st) as (Hev & Her & Hsig & Hfan & _).
  split.
  - by rewrite Hfan.
  - intros name out. rewrite listener_nextTimer, Hev, Her. apply Ho.
  - intros n1 n2 o1 o2. rewrite !listener_nextTimer. apply Ha.
  - by rewrite Hfan, Hsig.
Qed.

Lemma sound_dropped name out err st :
  sound st → listener name st = Some out → sound (dropped name out err st).
Proof.
  intros Hs Hl. apply sound_removed; [by apply sound_nextTimer|].
  by rewrite listener_nextTimer.
Qed.

Lemma closeOutput_sound name out err st :
  sound st → listener name st = Some out →
  closeOutput out err st = Ok (shutOutput (nextTimer st).1 out err (nextTimer st).2).
Proof.
  intros Hs Hl. destruct (sound_open _ Hs _ _ Hl) as [(cd & Hd & Hcd) (ce & He & Hce)].
  by eapply closeOutput_spec.
Qed.

(** [UnsuscribeWithError] of a listener, in a sound state. *)
Lemma UnsuscribeWithError_spec name out err st :
  sound st → listener name st = Some out →
  UnsuscribeWithError name err st
  = if running (fan st) && (size (default ∅ (delete name <$> listeners (fan st))) =? 0)%nat
    then signalStop (true, None) (dropped name out err st)
    else Done (false, None) (dropped name out err st).
Proof.
  intros Hs Hl. unfold UnsuscribeWithError. rewrite Hl.
  rewrite (closeOutput_sound name) by done. cbn.
  destruct (nextTimer_frame st) as (_ & _ & _ & Hfan & _).
  unfold dropped, removed. by rewrite Hfan.
Qed.

Lemma sound_withSignals st a c c' :
  sound st → stopChan (fan st) = Some a → signals st !! a = Some c →
  closed c' = false → capacity c' = 1 →
  sound (withSignals (<[a := c']> (signals st)) st).
Proof.
  intros [Hm Ho Ha Hs] Hst Hc Hcl Hcap. split; try done.
  exists a, c'. cbn. by rewrite lookup_insert_eq.
Qed.

Lemma signalStop_cases {A} (ret : A) st :
  sound st →
  ∃ a c, stopChan (fan st) = Some a ∧ signals st !! a = Some c ∧
    signalStop ret st
    = if room c then Done ret (withSignals (<[a := push () c]> (signals st)) st)
      else Blocked st.
Proof.
  intros Hs. destruct (sound_stop _ Hs) as (a & c & Ha & Hc & Hcl & Hcap).
  exists a, c. split_and!; [done..|]. unfold signalStop. rewrite Ha.
  rewrite (offer_spec _ _ _ c) by done. unfold sent.
  by destruct (room c).
Qed.

Lemma signalStop_safe {A} (ret : A) st : sound st → safe (signalStop ret st).
Proof.
  intros Hs. destruct (signalStop_cases ret st Hs) as (a & c & Ha & Hc & ->).
  destruct (sound_stop _ Hs) as (a' & c' & Ha' & Hc' & Hcl & Hcap).
  assert (a' = a) as -> by congruence. assert (c' = c) as -> by congruence.
  destruct (room c); cbn; [|done].
  by eapply sound_withSignals.
Qed.

Lemma UnsuscribeWithError_safe name err st :
  sound st → safe (UnsuscribeWithError name err st).
Proof.
  intros Hs. destruct (listener name st) as [out|] eqn:Hl.
  - rewrite (UnsuscribeWithError_spec name out) by done.
    pose proof (sound_dropped name out err st Hs Hl) as Hd.
    destruct (_ && _); [by apply signalStop_safe|done].
  - unfold UnsuscribeWithError. by rewrite Hl.
Qed.
End soundness.

Section soundness_api.
Import docker dispatching samples.

Lemma fresh_not_open {A} (h : heap A) : ¬ open h (fresh (dom h)).
Proof.
  intros (c & Hc & _). apply (is_fresh (dom h)). apply elem_of_dom. by exists c.
Qed.

Lemma open_insert_ne {A} (h : heap A) a b c :
  a ≠ b → open (<[a := c]> h) b ↔ open h b.
Proof. intros Hne. unfold open. by rewrite lookup_insert_ne. Qed.

Lemma open_fresh_ne {A} (h : heap A) b : open h b → fresh (dom h) ≠ b.
Proof. intros Hb Heq. subst b. by apply (fresh_not_open h). Qed.

Lemma Setup_cases cfg st :
  fanout.WriteTimeout cfg ≠ 0 → fanout.OutputBufferSize cfg ≠ 0 →
  fanout.Name cfg ≠ "" →
  Setup cfg st
  = Done (Some (fresh (dom (events st))), Some (fresh (dom (errors st))), None)
      {| events := <[fresh (dom (events st)) := {| capacity := 0; buffer := []; closed := false |}]> (events st);
         errors := <[fresh (dom (errors st)) := {| capacity := 0; buffer := []; closed := false |}]> (errors st);
         signals := <[fresh (dom (signals st)) := {| capacity := 1; buffer := []; closed := false |}]> (signals st);
         fan := {| config := cfg; dataInput := Some (fresh (dom (events st)));
                   errorInput := Some (fresh (dom (errors st)));
                   stopChan := Some (fresh (dom (signals st))); listeners := Some ∅;
                   running := running (fan st) |};
         dispatchers := dispatchers st; timers := timers st; memory := memory st |}.
Proof.
  intros Hw Hb Hn. unfold Setup.
  destruct (Z.eqb_spec (fanout.WriteTimeout cfg) 0); [done|].
  destruct (Z.eqb_spec (fanout.OutputBufferSize cfg) 0); [done|].
  destruct (String.eqb_spec (fanout.Name cfg) ""); [done|]. done.
Qed.

Lemma Suscribe_new name st :
  is_Some (listeners (fan st)) → listener name st = None →
  affordable st →
  Suscribe name st
  = Done (Some (fresh (dom (events st))), Some (fresh (dom (errors st))), None)
      (joined name st).
Proof.
  intros [m Hm] Hl (Hsize & Hrange & Hmem). unfold Suscribe. rewrite Hl.
  assert (0 ≤ chanBytes interfaceSize 2 ∧ interfaceSize * 2 ≤ maxAlloc - hchanSize)
    as [Hpos Hr2] by (by vm_compute).
  destruct (make_ok pointerSize _ (memory st) (events st) Hsize Hrange)
    as (d & Hmake & _); [lia|].
  assert (d = fresh (dom (events st))) as ->.
  { unfold make in Hmake. destruct (_ || _); [done|]. destruct (_ <? _); [done|].
    by injection Hmake. }
  rewrite Hmake.
  destruct (make_ok interfaceSize 2
              (memory st - chanBytes pointerSize (fanout.OutputBufferSize (config (fan st))))
              (errors st)) as (e & Hmake2 & _); [lia|done|lia|].
  assert (e = fresh (dom (errors st))) as ->.
  { unfold make in Hmake2. destruct (_ || _); [done|]. destruct (_ <? _); [done|].
    by injection Hmake2. }
  rewrite Hmake2, Hm. unfold joined, withListeners, withErrors, withEvents, withMemory.
  cbn. rewrite Hm. cbn. by destruct (running (fan st)).
Qed.

Lemma listener_joined name st name' :
  is_Some (listeners (fan st)) →
  listener name' (joined name st)
  = if decide (name' = name)
    then Some {| dataOutput := fresh (dom (events st)); errorOutput := fresh (dom (errors st));
                 writeTimeout := fanout.WriteTimeout (config (fan st)) |}
    else listener name' st.
Proof.
  intros [m Hm]. unfold listener, joined. cbn. rewrite Hm. cbn.
  destruct (decide (name' = name)) as [->|Hne].
  - apply lookup_insert_eq.
  - by apply lookup_insert_ne.
Qed.

Lemma sound_joined name st : sound st → sound (joined name st).
Proof.
  intros Hs. pose proof Hs as [Hm Ho Ha Hst]. split.
  - cbn. by apply fmap_is_Some.
  - intros name' out'. rewrite listener_joined by done.
    destruct (decide (name' = name)) as [->|Hne].
    + intros [= <-]. cbn. split; eexists; by rewrite lookup_insert_eq.
    + intros Hl. destruct (Ho _ _ Hl) as [Hd He]. cbn. split.
      * apply open_insert_ne; [by apply open_fresh_ne|done].
      * apply open_insert_ne; [by apply open_fresh_ne|done].
  - intros n1 n2 o1 o2. rewrite !listener_joined by done.
    destruct (decide (n1 = name)) as [->|H1], (decide (n2 = name)) as [->|H2].
    + done.
    + intros [= <-] Hl _. destruct (Ho _ _ Hl) as [Hd He]. cbn.
      split; by apply open_fresh_ne.
    + intros Hl [= <-] _. destruct (Ho _ _ Hl) as [Hd He]. cbn.
      split; apply not_eq_sym; by apply open_fresh_ne.
    + apply Ha.
  - exact Hst.
Qed.

Lemma Suscribe_safe name st :
  sound st → affordable st → safe (Suscribe name st).
Proof.
  intros Hs Hsz. destruct (listener name st) as [out|] eqn:Hl.
  - unfold Suscribe. by rewrite Hl.
  - rewrite Suscribe_new; [|by apply sound_map|done..]. by apply sound_joined.
Qed.

Lemma Setup_safe cfg st :
  fanout.WriteTimeout cfg ≠ 0 → fanout.OutputBufferSize cfg ≠ 0 →
  fanout.Name cfg ≠ "" → safe (Setup cfg st).
Proof.
  intros Hw Hb Hn. rewrite Setup_cases by done. split.
  - cbn. by eexists.
  - intros name out. unfold listener. cbn. by rewrite lookup_empty.
  - intros n1 n2 o1 o2. unfold listener. cbn. by rewrite lookup_empty.
  - cbn. eexists _, _. by rewrite lookup_insert_eq.
Qed.

Lemma safe_after {A} (o : outcome A) : safe o → sound (after o).
Proof. by destruct o. Qed.
End soundness_api.

Section removal.
Import docker dispatching samples.

Lemma dropped_frame name out err st :
  signals (dropped name out err st) = signals st
  ∧ dispatchers (dropped name out err st) = dispatchers st
  ∧ running (fan (dropped name out err st)) = running (fan st)
  ∧ stopChan (fan (dropped name out err st)) = stopChan (fan st)
  ∧ dataInput (fan (dropped name out err st)) = dataInput (fan st)
  ∧ errorInput (fan (dropped name out err st)) = errorInput (fan st)
  ∧ config (fan (dropped name out err st)) = config (fan st).
Proof.
  destruct (nextTimer_frame st) as (_ & _ & Hsig & Hfan & Hdis & _).
  unfold dropped, removed, shutOutput. cbn. by rewrite Hsig, Hfan, Hdis.
Qed.

Lemma dropped_events name out err st :
  events (dropped name out err st) = alter shut (dataOutput out) (events st).
Proof.
  destruct (nextTimer_frame st) as (Hev & _). unfold dropped. cbn. by rewrite Hev.
Qed.

Lemma dropped_errors name out err st :
  errors (dropped name out err st)
  = alter (λ c, shut (offered (nextTimer st).1 err c)) (errorOutput out) (errors st).
Proof.
  destruct (nextTimer_frame st) as (_ & Her & _). unfold dropped. cbn. by rewrite Her.
Qed.

Lemma dropped_timers name out err st :
  timers st = [] → timers (dropped name out err st) = [].
Proof. intros H. unfold dropped. cbn. by apply nextTimer_timers. Qed.

Lemma dropAll_timers l : ∀ st, timers st = [] → timers (dropAll l st) = [].
Proof.
  induction l as [|[name err] l IH]; intros st H; [done|]. cbn. apply IH.
  destruct (listener name st); [by apply dropped_timers|done].
Qed.

Lemma dropAll_sound l : ∀ st, sound st → sound (dropAll l st).
Proof.
  induction l as [|[name err] l IH]; intros st Hs; [done|]. cbn.
  apply IH. destruct (listener name st) eqn:Hl; [|done]. by apply sound_dropped.
Qed.

Lemma dropAll_frame l : ∀ st,
  signals (dropAll l st) = signals st ∧ dispatchers (dropAll l st) = dispatchers st
  ∧ running (fan (dropAll l st)) = running (fan st)
  ∧ stopChan (fan (dropAll l st)) = stopChan (fan st)
  ∧ dataInput (fan (dropAll l st)) = dataInput (fan st)
  ∧ errorInput (fan (dropAll l st)) = errorInput (fan st)
  ∧ config (fan (dropAll l st)) = config (fan st).
Proof.
  induction l as [|[name err] l IH]; intros st; [done|]. cbn.
  destruct (IH (match listener name st with
                | Some out => dropped name out err st | None => st end))
    as (-> & -> & -> & -> & -> & -> & ->).
  destruct (listener name st) as [out|]; [|done]. apply dropped_frame.
Qed.

Lemma dropAll_listener l : ∀ st name,
  listener name (dropAll l st)
  = if decide (name ∈ l.*1) then None else listener name st.
Proof.
  induction l as [|[n err] l IH]; intros st name.
  - cbn. by rewrite decide_False by apply not_elem_of_nil.
  - cbn [dropAll]. rewrite IH. rewrite fmap_cons. cbn [fst].
    destruct (decide (name ∈ l.*1)) as [Hin|Hin].
    + rewrite decide_True; [done|]. apply elem_of_cons. by right.
    + destruct (decide (name = n)) as [->|Hne].
      * rewrite (decide_True (P := n ∈ n :: l.*1)) by (apply elem_of_cons; by left).
        destruct (listener n st) eqn:Hl; [|done].
        rewrite listener_dropped. by rewrite decide_True.
      * rewrite (decide_False (P := name ∈ n :: l.*1)).
        2:{ intros [?|?]%elem_of_cons; done. }
        destruct (listener n st) eqn:Hl; [|done].
        rewrite listener_dropped. by rewrite decide_False.
Qed.

Lemma dropAll_spare l : ∀ st,
  (∀ a, spareData st a → events (dropAll l st) !! a = events st !! a)
  ∧ (∀ a, spareError st a → errors (dropAll l st) !! a = errors st !! a).
Proof.
  induction l as [|[n err] l IH]; intros st; [done|]. cbn [dropAll].
  destruct (listener n st) as [out|] eqn:Hl; [|apply IH].
  destruct (IH (dropped n out err st)) as [IHd IHe]. split.
  - intros a Ha. rewrite IHd.
    + rewrite dropped_events. apply lookup_alter_ne. exact (Ha n out Hl).
    + intros name out'. rewrite listener_dropped.
      destruct (decide (name = n)); [done|]. apply Ha.
  - intros a Ha. rewrite IHe.
    + rewrite dropped_errors. apply lookup_alter_ne. exact (Ha n out Hl).
    + intros name out'. rewrite listener_dropped.
      destruct (decide (name = n)); [done|]. apply Ha.
Qed.

Lemma dropAll_closed l : ∀ st name err out,
  sound st → NoDup l.*1 → (name, err) ∈ l → listener name st = Some out →
  events (dropAll l st) !! dataOutput out = shut <$> events st !! dataOutput out
  ∧ ∃ timerFirst,
      (timers st = [] → timerFirst = false)
      ∧ errors (dropAll l st) !! errorOutput out
        = (λ c, shut (offered timerFirst err c)) <$> errors st !! errorOutput out.
Proof.
  induction l as [|[n e] l IH]; intros st name err out Hs Hnd Hin Hl.
  - by apply elem_of_nil in Hin.
  - rewrite fmap_cons in Hnd. apply NoDup_cons in Hnd as [Hn Hnd]. cbn [fst] in Hn.
    cbn [dropAll]. apply elem_of_cons in Hin as [[= -> ->]|Hin].
    + rewrite Hl. destruct (dropAll_spare l (dropped n out e st)) as [Hd He].
      rewrite Hd, He.
      * rewrite dropped_events, dropped_errors, !lookup_alter_eq.
        split; [done|]. exists (nextTimer st).1. split; [|done].
        intros Ht. by rewrite nextTimer_none.
      * intros name' out'. rewrite listener_dropped.
        destruct (decide (name' = n)) as [|Hne]; [done|]. intros Hl'.
        by destruct (sound_apart _ Hs _ _ _ _ Hl' Hl Hne).
      * intros name' out'. rewrite listener_dropped.
        destruct (decide (name' = n)) as [|Hne]; [done|]. intros Hl'.
        by destruct (sound_apart _ Hs _ _ _ _ Hl' Hl Hne).
    + assert (name ≠ n) as Hne.
      { intros ->. apply Hn. apply list_elem_of_fmap. by exists (n, err). }
      destruct (listener n st) as [out'|] eqn:Hl'; [|by apply (IH st name err out)].
      destruct (IH (dropped n out' e st) name err out) as (Hd & b & Hb & He); try done.
      { by apply sound_dropped. }
      { rewrite listener_dropped. by rewrite decide_False. }
      rewrite Hd, dropped_events.
      destruct (sound_apart _ Hs _ _ _ _ Hl Hl' Hne) as [H1 H2].
      split; [by rewrite lookup_alter_ne|].
      exists b. split.
      * intros Ht. apply Hb. by apply dropped_timers.
      * rewrite He, dropped_errors. by rewrite lookup_alter_ne.
Qed.
End removal.

Section stopping.
Import docker dispatching samples.

Lemma closeAll_loop (l : list (string * eventOutput)) : ∀ st,
  sound st →
  forEach l
    (λ '(name, _) st,
       match listener name st with
       | None => Ok st
       | Some output =>
           st ← closeOutput output EOF st;
           Ok (withListeners (delete name <$> listeners (fan st)) st)
       end) st
  = Ok (dropAll ((λ p, (p.1, EOF)) <$> l) st).
Proof.
  induction l as [|[n x] l IH]; intros st Hs; [done|].
  cbn [forEach fmap list_fmap fst dropAll].
  destruct (listener n st) as [out|] eqn:Hl.
  - rewrite (closeOutput_sound n) by done. cbn.
    rewrite <- IH; [done|]. by apply (sound_dropped n out EOF) in Hs.
  - cbn. by apply IH.
Qed.

Lemma closeAll_spec st :
  sound st →
  closeAll st
  = Ok (dropAll ((λ p, (p.1, EOF)) <$> map_to_list (default ∅ (listeners (fan st)))) st).
Proof. intros Hs. unfold closeAll. by apply closeAll_loop. Qed.

Lemma takeSignal_sound st st0 :
  sound st → takeSignal st = Some st0 →
  sound st0 ∧ events st0 = events st ∧ errors st0 = errors st ∧ fan st0 = fan st
  ∧ dispatchers st0 = dispatchers st ∧ timers st0 = timers st.
Proof.
  intros Hs. destruct (sound_stop _ Hs) as (a & c & Ha & Hc & Hcl & Hcap).
  unfold takeSignal. rewrite Ha. cbn. rewrite Hc. cbn.
  destruct (buffer c) as [|u rest]; [by rewrite Hcl|].
  intros [= <-]. split; [|done]. by eapply sound_withSignals.
Qed.

Lemma sound_withRunning b st : sound st → sound (withRunning b st).
Proof. intros [Hm Ho Ha Hs]. by split. Qed.

Lemma listener_names st name out :
  listener name st = Some out →
  name ∈ (map_to_list (default ∅ (listeners (fan st)))).*1.
Proof.
  unfold listener. destruct (listeners (fan st)) as [m|]; [|done]. cbn. intros Hl.
  apply list_elem_of_fmap. exists (name, out). split; [done|].
  by apply elem_of_map_to_list.
Qed.

(** X16: in a sound state with a stop signal to take, the stop branch of
    [dispatch] returns, whatever the write timeout and whichever timers
    fire: it closes the data and the error channel of every listener,
    empties the map, clears [running], leaves every channel no listener
    held as it was, and the state stays sound.  Before it closes them it
    offers EOF to the error channel of each listener: the channel ends
    with what it held, and with EOF after it when it had room and the timer
    of that send did not fire first; when no timer fires first, every
    error channel with room ends with EOF.  The consumers do not receive
    meanwhile. *)
Theorem dispatch_stop_closes_all st :
  sound st → is_Some (takeSignal st) →
  ∃ st', dispatchStep OnStop st = Done false st'
    ∧ sound st'
    ∧ listeners (fan st') = Some ∅ ∧ running (fan st') = false
    ∧ (∀ name out, listener name st = Some out →
         events st' !! dataOutput out = shut <$> events st !! dataOutput out
         ∧ ∃ timerFirst,
             (timers st = [] → timerFirst = false)
             ∧ errors st' !! errorOutput out
               = (λ c, shut (offered timerFirst EOF c))
                 <$> errors st !! errorOutput out)
    ∧ (∀ a, spareData st a → events st' !! a = events st !! a)
    ∧ (∀ a, spareError st a → errors st' !! a = errors st !! a).
Proof.
  intros Hs [st0 H0].
  destruct (takeSignal_sound _ _ Hs H0) as (Hs0 & Hev & Her & Hfan & _ & Htim).
  unfold dispatchStep. rewrite H0, (closeAll_spec st0) by done.
  set (l := (λ p : string * eventOutput, (p.1, EOF)) <$> _).
  assert (l.*1 = (map_to_list (default ∅ (listeners (fan st0)))).*1) as Hl1.
  { unfold l. rewrite <- list_fmap_compose. by apply list_fmap_ext. }
  assert (∀ name, listener name st0 = listener name st) as Hsame.
  { intros name. unfold listener. by rewrite Hfan. }
  eexists. split; [done|]. split_and!.
  - by apply sound_withRunning, dropAll_sound.
  - cbn. destruct (sound_map _ (dropAll_sound l _ Hs0)) as [m' Hm']. rewrite Hm'.
    f_equal. apply map_eq. intros name. rewrite lookup_empty.
    pose proof (dropAll_listener l st0 name) as Hn. unfold listener at 1 in Hn.
    rewrite Hm' in Hn. cbn in Hn. rewrite Hn.
    destruct (decide (name ∈ l.*1)) as [|Hnin]; [done|].
    destruct (listener name st0) as [out|] eqn:Hl; [|done].
    destruct Hnin. rewrite Hl1. by eapply listener_names.
  - done.
  - intros name out Hl. cbn. rewrite <- Hev, <- Her, <- Htim. rewrite <- Hsame in Hl.
    apply (dropAll_closed l st0 name EOF out); [done| |  |done].
    + rewrite Hl1. apply NoDup_fst_map_to_list.
    + apply list_elem_of_fmap. exists (name, out). split; [done|].
      apply elem_of_map_to_list. unfold listener in Hl.
      destruct (listeners (fan st0)); [done|discriminate].
  - intros a Ha. cbn. rewrite <- Hev. apply dropAll_spare.
    intros name out. rewrite Hsame. apply Ha.
  - intros a Ha. cbn. rewrite <- Her. apply dropAll_spare.
    intros name out. rewrite Hsame. apply Ha.
Qed.
End stopping.

Section rounds.
Import docker dispatching samples.

Lemma evict_safe l : ∀ st, sound st → safe (evict l st).
Proof.
  induction l as [|[name err] l IH]; intros st Hs; [done|]. cbn [evict].
  pose proof (UnsuscribeWithError_safe name err st Hs) as Hu.
  destruct (UnsuscribeWithError name err st) as [r st'|msg|st']; [|done..].
  by apply IH.
Qed.

Lemma evict_dropAll l : ∀ st keep,
  sound st → keep ∉ l.*1 → is_Some (listener keep st) →
  evict l st = Done true (dropAll l st).
Proof.
  induction l as [|[name err] l IH]; intros st keep Hs Hk [ko Hko]; [done|].
  cbn [evict dropAll]. rewrite fmap_cons in Hk. cbn [fst] in Hk.
  apply not_elem_of_cons in Hk as [Hne Hk].
  destruct (listener name st) as [out|] eqn:Hl.
  - rewrite (UnsuscribeWithError_spec name out) by done.
    assert ((size (default ∅ (delete name <$> listeners (fan st))) =? 0)%nat = false) as ->.
    { apply Nat.eqb_neq. unfold listener in Hko.
      destruct (listeners (fan st)) as [m|]; [|done]. cbn in Hko |- *.
      intros Hz. apply map_size_empty_iff in Hz.
      assert (delete name m !! keep = Some ko) as Hd by by rewrite lookup_delete_ne.
      by rewrite Hz in Hd. }
    rewrite andb_false_r. apply (IH _ keep); [by apply sound_dropped|done|].
    exists ko. rewrite listener_dropped. by rewrite decide_False.
  - unfold UnsuscribeWithError. rewrite Hl. apply (IH _ keep); [done..|by exists ko].
Qed.

Lemma dropAll_kept l : ∀ st name out,
  sound st → listener name st = Some out → name ∉ l.*1 →
  events (dropAll l st) !! dataOutput out = events st !! dataOutput out
  ∧ errors (dropAll l st) !! errorOutput out = errors st !! errorOutput out.
Proof.
  induction l as [|[n e] l IH]; intros st name out Hs Hl Hn; [done|].
  rewrite fmap_cons in Hn. cbn [fst] in Hn. apply not_elem_of_cons in Hn as [Hne Hn].
  cbn [dropAll]. destruct (listener n st) as [out'|] eqn:Hl'; [|by apply (IH st name)].
  destruct (IH (dropped n out' e st) name out) as [-> ->]; try done.
  { by apply sound_dropped. }
  { rewrite listener_dropped. by rewrite decide_False. }
  destruct (sound_apart _ Hs _ _ _ _ Hl Hl' Hne) as [H1 H2].
  rewrite dropped_events, dropped_errors. by rewrite !lookup_alter_ne.
Qed.

Lemma sound_heaps st st' :
  sound st → fan st' = fan st → signals st' = signals st →
  (∀ a, open (events st) a → open (events st') a) →
  (∀ a, open (errors st) a → open (errors st') a) →
  sound st'.
Proof.
  intros [Hm Ho Ha Hs] Hfan Hsig Hev Her.
  assert (∀ name, listener name st' = listener name st) as Hsame.
  { intros name. unfold listener. by rewrite Hfan. }
  split.
  - by rewrite Hfan.
  - intros name out. rewrite Hsame. intros Hl. destruct (Ho _ _ Hl). split; auto.
  - intros n1 n2 o1 o2. rewrite !Hsame. apply Ha.
  - by rewrite Hfan, Hsig.
Qed.

Lemma open_sent {A} (h : heap A) a (v : A) c b :
  h !! a = Some c → open h b → open (<[a := sent v c]> h) b.
Proof.
  intros Hc (c' & Hc' & Hcl). destruct (decide (a = b)) as [->|Hne].
  - exists (sent v c). rewrite lookup_insert_eq. split; [done|].
    rewrite sent_closed. congruence.
  - exists c'. by rewrite lookup_insert_ne.
Qed.

(** A send whose timer does not fire first. *)
Lemma sendData_spec o d st c :
  timers st = [] →
  events st !! dataOutput o = Some c → closed c = false →
  sendData o d st
  = Ok (if room c then None else Some fanout.ErrWriteTimeout,
        withEvents (<[dataOutput o := sent d c]> (events st)) st).
Proof.
  intros Ht Hc Hcl. rewrite sendData_cases, nextTimer_none by done. cbn.
  by rewrite (offer_spec _ _ _ c).
Qed.

Lemma sendData_gentle d : gentle (λ o, sendData o d).
Proof.
  intros name o st Hs Hl. rewrite sendData_cases.
  pose proof (sound_nextTimer st Hs) as Hs'.
  destruct (nextTimer_frame st) as (Hev & _ & _ & Hfan & _).
  destruct (nextTimer st) as [b st']. cbn [fst snd] in *. destruct b.
  { by eexists _, _. }
  assert (listener name st' = Some o) as Hl' by (unfold listener in *; by rewrite Hfan).
  destruct (sound_open _ Hs' _ _ Hl') as [(c & Hc & Hcl) _].
  rewrite (offer_spec _ _ _ c) by done. cbn. eexists _, _. split; [done|].
  split; [|done]. apply (sound_heaps st'); [done..| |done].
  intros a. by apply open_sent.
Qed.

Lemma sendError_gentle err : gentle (λ o, sendError o err).
Proof.
  intros name o st Hs Hl. rewrite sendError_cases.
  pose proof (sound_nextTimer st Hs) as Hs'.
  destruct (nextTimer_frame st) as (_ & Her & _ & Hfan & _).
  destruct (nextTimer st) as [b st']. cbn [fst snd] in *. destruct b.
  { by eexists _, _. }
  assert (listener name st' = Some o) as Hl' by (unfold listener in *; by rewrite Hfan).
  destruct (sound_open _ Hs' _ _ Hl') as [_ (c & Hc & Hcl)].
  rewrite (offer_spec _ _ _ c) by done. cbn. eexists _, _. split; [done|].
  split; [|done]. apply (sound_heaps st'); [done..|].
  intros a. by apply open_sent.
Qed.

Lemma broadcast_loop send (l : list (string * eventOutput)) :
  gentle send →
  ∀ (bad : gmap string string) st, sound st →
  (∀ name out, (name, out) ∈ l → listener name st = Some out) →
  ∃ bad' st',
    forEach l
      (λ '(name, output) '(badListeners, st),
         '(err, st) ← send output st;
         Ok (match err with
             | Some e => <[name := e]> badListeners
             | None => badListeners
             end, st)) (bad, st)
    = Ok (bad', st') ∧ sound st' ∧ fan st' = fan st.
Proof.
  intros Hsend. induction l as [|[n out] l IH]; intros bad st Hs Hl.
  - by exists bad, st.
  - cbn [forEach].
    destruct (Hsend n out st Hs) as (err & st1 & -> & Hs1 & Hfan).
    { apply Hl. apply elem_of_cons. by left. }
    cbn. edestruct (IH (match err with Some e => <[n:=e]> bad | None => bad end) st1)
      as (bad' & st' & -> & Hs' & Hfan'); [done| |].
    { intros name o Hin. unfold listener. rewrite Hfan. apply Hl.
      apply elem_of_cons. by right. }
    exists bad', st'. split_and!; [done..|congruence].
Qed.

Lemma round_safe send st : gentle send → sound st → safe (round send st).
Proof.
  intros Hsend Hs. unfold round, broadcast.
  destruct (broadcast_loop send (map_to_list (default ∅ (listeners (fan st)))) Hsend ∅ st Hs)
    as (bad & st' & -> & Hs' & _).
  { intros name out Hin. unfold listener.
    destruct (listeners (fan st)) as [m|]; cbn in Hin |- *.
    - by apply elem_of_map_to_list.
    - rewrite map_to_list_empty in Hin. by apply elem_of_nil in Hin. }
  by apply evict_safe.
Qed.

Lemma dispatchStep_safe sel st : sound st → safe (dispatchStep sel st).
Proof.
  intros Hs. destruct sel as [|d|err]; cbn [dispatchStep].
  - destruct (takeSignal st) as [st0|] eqn:H0; [|done].
    destruct (takeSignal_sound _ _ Hs H0) as (Hs0 & _).
    rewrite closeAll_spec by done. cbn. by apply sound_withRunning, dropAll_sound.
  - destruct (dataInput (fan st)); [|done]. apply round_safe; [|done].
    apply sendData_gentle.
  - destruct (errorInput (fan st)); [|done]. apply round_safe; [|done].
    apply sendError_gentle.
Qed.

(** X17: no turn of the dispatch loop panics in a sound state, whichever
    case of the select fires, and the turn leaves a sound state: no
    channel of a listener is closed twice, and none is sent to after it
    was closed. *)
Theorem dispatchStep_keeps_sound sel st : sound st → safe (dispatchStep sel st).
Proof. apply dispatchStep_safe. Qed.

(** X18: the operations of the interface keep a sound state sound and do
    not panic there: [UnsuscribeWithError], [Unsuscribe] and [Stop]
    always, whichever timers fire; [Suscribe] with a name already
    subscribed always, and with a new name exactly when the runtime can
    make the two channels: the configured buffer size is not negative and
    in the range [makechan] accepts, and the memory suffices.  Otherwise
    [Suscribe] with a new name does not return: it panics, or the runtime
    ends the process. *)
Theorem operations_keep_sound name err st :
  sound st →
  (affordable st → safe (Suscribe name st))
  ∧ (is_Some (listener name st) → safe (Suscribe name st))
  ∧ (listener name st = None → ¬ affordable st →
     ∃ msg, Suscribe name st = Panicked msg)
  ∧ safe (UnsuscribeWithError name err st)
  ∧ safe (Unsuscribe name st)
  ∧ safe (Stop st).
Proof.
  intros Hs. split_and!.
  - intros Hsz. by apply Suscribe_safe.
  - intros [out Hl]. unfold Suscribe. by rewrite Hl.
  - apply Suscribe_unaffordable.
  - by apply UnsuscribeWithError_safe.
  - by apply UnsuscribeWithError_safe.
  - by apply signalStop_safe.
Qed.
End rounds.

Section delivery.
Import docker dispatching samples.

Lemma slow_cons h n out l :
  slow h ((n, out) :: l) = if roomFor h out then slow h l else n :: slow h l.
Proof.
  unfold slow. rewrite filter_cons. cbn [snd].
  destruct (roomFor h out).
  - by rewrite decide_False.
  - by rewrite decide_True.
Qed.

Lemma slow_ext h h' l :
  (∀ name out, (name, out) ∈ l → roomFor h out = roomFor h' out) →
  slow h l = slow h' l.
Proof.
  induction l as [|[n out] l IH]; intros Hext; [done|]. rewrite !slow_cons.
  rewrite <- (Hext n out) by (apply elem_of_cons; by left).
  rewrite IH; [done|]. intros name o Hin. apply (Hext name). apply elem_of_cons. by right.
Qed.

Lemma elem_of_slow h l name :
  name ∈ slow h l ↔ ∃ out, (name, out) ∈ l ∧ roomFor h out = false.
Proof.
  unfold slow. rewrite list_elem_of_fmap. split.
  - intros ([n out] & -> & [Hr Hin]%list_elem_of_filter). by exists out.
  - intros (out & Hin & Hr). exists (name, out). split; [done|].
    by apply list_elem_of_filter.
Qed.

Lemma deliver_loop d (l : list (string * eventOutput)) :
  ∀ (bad : gmap string string) st, sound st → timers st = [] → NoDup l.*1 →
  (∀ name out, (name, out) ∈ l → listener name st = Some out) →
  ∃ bad' st',
    forEach l
      (λ '(name, output) '(badListeners, st),
         '(err, st) ← sendData output d st;
         Ok (match err with
             | Some e => <[name := e]> badListeners
             | None => badListeners
             end, st)) (bad, st)
    = Ok (bad', st')
    ∧ sound st' ∧ fan st' = fan st ∧ errors st' = errors st
    ∧ signals st' = signals st ∧ dispatchers st' = dispatchers st
    ∧ timers st' = []
    ∧ (∀ name, bad' !! name
               = if decide (name ∈ slow (events st) l)
                 then Some fanout.ErrWriteTimeout else bad !! name)
    ∧ (∀ a, events st' !! a
            = if decide (a ∈ (λ p, dataOutput p.2) <$> l)
              then sent d <$> events st !! a else events st !! a).
Proof.
  induction l as [|[n out] l IH]; intros bad st Hs Ht Hnd Hl.
  - exists bad, st. split_and!; try done.
  - rewrite fmap_cons in Hnd. cbn [fst] in Hnd. apply NoDup_cons in Hnd as [Hn Hnd].
    assert (listener n st = Some out) as Hln by (apply Hl, elem_of_cons; by left).
    destruct (sound_open _ Hs _ _ Hln) as [(c & Hc & Hcl) _].
    cbn [forEach]. rewrite (sendData_spec _ _ _ c) by done. cbn -[slow fmap].
    set (st1 := withEvents _ st).
    set (bad1 := match (if room c then None else Some fanout.ErrWriteTimeout) with
                 | Some e => <[n:=e]> bad | None => bad end).
    assert (sound st1) as Hs1.
    { apply (sound_heaps st); [done..| |done]. intros a. by apply open_sent. }
    assert (∀ name o, (name, o) ∈ l → dataOutput o ≠ dataOutput out) as Hapart.
    { intros name o Hin. assert (name ≠ n) as Hne.
      { intros ->. apply Hn. apply list_elem_of_fmap. by exists (n, o). }
      assert (listener name st = Some o) as Hlo by (apply Hl, elem_of_cons; by right).
      by destruct (sound_apart _ Hs _ _ _ _ Hlo Hln Hne). }
    destruct (IH bad1 st1 Hs1 Ht Hnd)
      as (bad' & st' & -> & Hs' & Hfan & Her & Hsig & Hdis & Ht' & Hbad & Hev).
    { intros name o Hin. apply (Hl name o). apply elem_of_cons. by right. }
    exists bad', st'. split_and!; try done.
    + intros name. rewrite Hbad, slow_cons.
      rewrite (slow_ext (events st1) (events st)).
      2:{ intros name' o Hin. unfold roomFor. cbn.
          by rewrite lookup_insert_ne by (apply not_eq_sym; by eapply Hapart). }
      assert (roomFor (events st) out = room c) as -> by (unfold roomFor; by rewrite Hc).
      unfold bad1.
      destruct (decide (name ∈ slow (events st) l)) as [Hin|Hnin].
      * destruct (room c); [by rewrite decide_True|].
        rewrite decide_True; [done|]. apply elem_of_cons. by right.
      * destruct (room c); [by rewrite decide_False|].
        destruct (decide (name = n)) as [->|Hne].
        -- rewrite lookup_insert_eq. rewrite decide_True; [done|].
           apply elem_of_cons. by left.
        -- rewrite lookup_insert_ne by done. rewrite decide_False; [done|].
           intros [?|?]%elem_of_cons; done.
    + intros a. rewrite Hev, fmap_cons. cbn [snd].
      assert (dataOutput out ∉ (λ p : string * eventOutput, dataOutput p.2) <$> l) as Hout.
      { intros ([name o] & Heq & Hin)%list_elem_of_fmap. cbn in Heq.
        symmetry in Heq. by eapply Hapart. }
      destruct (decide (a = dataOutput out)) as [->|Hne].
      * rewrite decide_False by done.
        rewrite (decide_True (P := dataOutput out ∈ dataOutput out :: _))
          by (apply elem_of_cons; by left).
        cbn. by rewrite lookup_insert_eq, Hc.
      * cbn. rewrite lookup_insert_ne by done.
        destruct (decide (a ∈ (λ p : string * eventOutput, dataOutput p.2) <$> l)) as [Hin|Hnin].
        -- rewrite decide_True; [done|]. apply elem_of_cons. by right.
        -- rewrite decide_False; [done|]. intros [?|?]%elem_of_cons; done.
Qed.
End delivery.

Section delivery_round.
Import docker dispatching samples.

Lemma elem_of_fst_map_to_list {A} (m : gmap string A) k :
  k ∈ (map_to_list m).*1 ↔ is_Some (m !! k).
Proof.
  rewrite list_elem_of_fmap. split.
  - intros ([k' v] & -> & Hin%elem_of_map_to_list). by exists v.
  - intros [v Hv]. exists (k, v). split; [done|]. by apply elem_of_map_to_list.
Qed.

(** X19: one data turn of the dispatch loop, in a sound state where some
    listener has room, when no write timer fires before its send is taken
    and no consumer receives meanwhile.  The turn returns and the loop goes
    on.  Every listener whose data channel has room receives the event at
    the end of its buffer and stays subscribed, its error channel
    untouched; every listener whose data channel is full is unsubscribed:
    both its channels are closed, after the timeout error was offered to
    its error channel.  No listener appears, and the stop channel is not
    written.  (When a timer does fire first, the listener it belongs to is
    unsubscribed although it has room: the schedule is a hypothesis.) *)
Theorem data_turn_delivers_and_evicts d st keep ko :
  sound st → timers st = [] → is_Some (dataInput (fan st)) →
  listener keep st = Some ko → roomFor (events st) ko = true →
  ∃ st', dispatchStep (OnData d) st = Done true st'
    ∧ sound st'
    ∧ (∀ name out, listener name st = Some out →
         if roomFor (events st) out
         then listener name st' = Some out
              ∧ events st' !! dataOutput out = push d <$> events st !! dataOutput out
              ∧ errors st' !! errorOutput out = errors st !! errorOutput out
         else listener name st' = None
              ∧ events st' !! dataOutput out = shut <$> events st !! dataOutput out
              ∧ errors st' !! errorOutput out
                = (λ c, shut (sent fanout.ErrWriteTimeout c))
                  <$> errors st !! errorOutput out)
    ∧ (∀ name, listener name st = None → listener name st' = None)
    ∧ signals st' = signals st ∧ running (fan st') = running (fan st).
Proof.
  intros Hs Ht [i Hi] Hkeep Hroom. unfold dispatchStep, round, broadcast. rewrite Hi.
  destruct (sound_map _ Hs) as [m Hm].
  assert (∀ name out, listener name st = Some out ↔ m !! name = Some out) as Hlm.
  { intros name out. unfold listener. by rewrite Hm. }
  rewrite Hm. cbn [default from_option]. unfold id. cbv beta.
  destruct (deliver_loop d (map_to_list m) ∅ st Hs Ht)
    as (bad & st1 & -> & Hs1 & Hfan & Her & Hsig & Hdis & Ht1 & Hbad & Hev).
  { apply NoDup_fst_map_to_list. }
  { intros name out Hin%elem_of_map_to_list. by apply Hlm. }
  assert (∀ name, listener name st1 = listener name st) as Hsame.
  { intros name. unfold listener. by rewrite Hfan. }
  assert (∀ name out, listener name st = Some out →
            bad !! name = if roomFor (events st) out then None
                          else Some fanout.ErrWriteTimeout) as Hbad'.
  { intros name out Hl. rewrite Hbad, lookup_empty.
    destruct (decide (name ∈ slow (events st) (map_to_list m))) as [Hin|Hnin].
    - apply elem_of_slow in Hin as (out' & Hin%elem_of_map_to_list & Hr).
      apply Hlm in Hin. assert (out' = out) as -> by congruence. by rewrite Hr.
    - destruct (roomFor (events st) out) eqn:Hr; [done|]. destruct Hnin.
      apply elem_of_slow. exists out. split; [|done].
      by apply elem_of_map_to_list, Hlm. }
  assert (∀ name out, listener name st = Some out →
            events st1 !! dataOutput out = sent d <$> events st !! dataOutput out) as Hev'.
  { intros name out Hl. rewrite Hev. rewrite decide_True; [done|].
    apply list_elem_of_fmap. exists (name, out). split; [done|].
    by apply elem_of_map_to_list, Hlm. }
  rewrite (evict_dropAll _ _ keep); [|done| |].
  2:{ rewrite elem_of_fst_map_to_list, (Hbad' keep ko), Hroom by done.
      by intros [? ?]. }
  2:{ rewrite Hsame. by exists ko. }
  eexists. split; [done|]. split_and!.
  - by apply dropAll_sound.
  - intros name out Hl. pose proof (Hbad' name out Hl) as Hb.
    pose proof (Hev' name out Hl) as He.
    destruct (sound_open _ Hs _ _ Hl) as [(c & Hc & Hcl) _].
    assert (roomFor (events st) out = room c) as Hrc by (unfold roomFor; by rewrite Hc).
    rewrite Hrc in Hb |- *. rewrite Hc in He |- *. unfold sent in He. cbn in He.
    destruct (room c).
    + assert (name ∉ (map_to_list bad).*1) as Hnin.
      { rewrite elem_of_fst_map_to_list, Hb. by intros [? ?]. }
      rewrite dropAll_listener, decide_False, Hsame by done.
      destruct (dropAll_kept (map_to_list bad) st1 name out) as [-> ->]; try done.
      { by rewrite Hsame. }
      by rewrite He, Her.
    + assert ((name, fanout.ErrWriteTimeout) ∈ map_to_list bad) as Hin
        by by apply elem_of_map_to_list.
      rewrite dropAll_listener, decide_True.
      2:{ rewrite elem_of_fst_map_to_list, Hb. by eexists. }
      destruct (dropAll_closed (map_to_list bad) st1 name fanout.ErrWriteTimeout out)
        as (-> & b & Hb0 & ->); try done.
      { apply NoDup_fst_map_to_list. }
      { by rewrite Hsame. }
      rewrite (Hb0 Ht1). by rewrite He, Her.
  - intros name Hl. rewrite dropAll_listener, Hsame, Hl. by destruct (decide _).
  - destruct (dropAll_frame (map_to_list bad) st1) as (-> & _). done.
  - destruct (dropAll_frame (map_to_list bad) st1) as (_ & _ & -> & _). by rewrite Hfan.
Qed.
End delivery_round.

Section lifecycle.
Import docker dispatching samples.




(** X22: the stop channel has room for one signal.  In a sound state, a
    [Stop] that follows a [Stop] that returned, with no turn of the loop
    in between, waits. *)
Theorem Stop_twice_waits st st1 :
  sound st → Stop st = Done () st1 → Stop st1 = Blocked st1.
Proof.
  intros Hs. destruct (sound_stop _ Hs) as (a & c & Ha & Hc & Hcl & Hcap).
  destruct (signalStop_cases () st Hs) as (a' & c' & Ha' & Hc' & Hstop).
  assert (a' = a) as -> by congruence. assert (c' = c) as -> by congruence.
  unfold Stop. rewrite Hstop. destruct (room c) eqn:Hroom; [|done]. intros [= <-].
  unfold signalStop. cbn. rewrite Ha.
  rewrite (offer_spec _ _ _ (push () c)); [|apply lookup_insert_eq|done].
  unfold room in *. cbn. rewrite length_app. cbn.
  destruct (Z.ltb_spec (Z.of_nat (length (buffer c) + 1)) (capacity c)); [lia|done].
Qed.

(** X23: [Suscribe] launches the loop when [running] is unset, and only
    the loop sets [running].  Two subscriptions under different new names,
    made before any loop has started, in a sound state where the runtime
    can make the channels of both (the buffer size not negative and in the
    range [makechan] accepts, the memory for four channels), both return,
    and they launch two loops. *)
Theorem Suscribe_before_loop_starts n1 n2 st :
  sound st → running (fan st) = false →
  0 ≤ fanout.OutputBufferSize (config (fan st)) →
  pointerSize * fanout.OutputBufferSize (config (fan st)) ≤ maxAlloc - hchanSize →
  2 * (chanBytes pointerSize (fanout.OutputBufferSize (config (fan st)))
       + chanBytes interfaceSize 2) ≤ memory st →
  n1 ≠ n2 → listener n1 st = None → listener n2 st = None →
  ∃ r1 r2 st1 st2,
    Suscribe n1 st = Done r1 st1 ∧ Suscribe n2 st1 = Done r2 st2
    ∧ running (fan st2) = false
    ∧ dispatchers st2 = S (S (dispatchers st))
    ∧ is_Some (listener n1 st2) ∧ is_Some (listener n2 st2).
Proof.
  intros Hs Hrun Hsz Hrange Hmem Hne H1 H2. pose proof (sound_map _ Hs) as Hm.
  assert (0 ≤ chanBytes interfaceSize 2) as Hpos by (by vm_compute).
  assert (0 ≤ chanBytes pointerSize (fanout.OutputBufferSize (config (fan st)))) as Hpos'.
  { unfold chanBytes, hchanSize, pointerSize. lia. }
  assert (affordable st) as Haff by (split_and!; [done|done|lia]).
  assert (affordable (joined n1 st)) as Haff'.
  { unfold affordable. cbn. split_and!; [done|done|lia]. }
  rewrite Suscribe_new by done.
  assert (listener n2 (joined n1 st) = None) as H2'.
  { rewrite listener_joined by done. by rewrite decide_False. }
  eexists _, _, (joined n1 st), (joined n2 (joined n1 st)). split; [done|].
  pose proof (sound_map _ (sound_joined n1 st Hs)) as Hm'.
  rewrite Suscribe_new by done.
  split; [done|].
  split_and!.
  - done.
  - cbn. by rewrite Hrun.
  - rewrite !listener_joined by done. rewrite decide_False by done.
    rewrite decide_True by done. by eexists.
  - rewrite !listener_joined by done. rewrite decide_True by done. by eexists.
Qed.
End lifecycle.

(** *** The bundle of Kubernetes events *)

Section bundle_checks.
Import cluster scenarios.

Example addEvent_scheduled :
  ∃ k, addEvent (Some scheduled) pod = Ok (k, None)
       ∧ readableKey k = "dca-789976f5d7-2ljx6 Pod"
       ∧ GoText.toInt64 (timeStamp k) = 709662600
       ∧ (formatEvents "normal" "kubernetes_apiserver" (λ _, "now") keys "host" false k).1
         = {| metrics.Title := "Events from the dca-789976f5d7-2ljx6 Pod";
              metrics.Text := metrics.Text (formatEvents "normal" "kubernetes_apiserver" (λ _, "now") keys "host" false k).1;
              metrics.Ts := 709662600; metrics.Priority := "normal";
              metrics.Host := "host"; metrics.SourceTypeName := "kubernetes";
              metrics.EventType := "kubernetes_apiserver";
              metrics.AggregationKey := "kubernetes_apiserver:e6417a7f-f566-11e7-9749-0e4863e1cbf4" |}.
Proof. eexists. split; [vm_compute; reflexivity|]. vm_compute. done. Qed.
End bundle_checks.

Section bundle.
Import GoText cluster scenarios.

(** What a call of [addEvent] that returns nil has read and written. *)
Lemma addEvent_accepted event k k' :
  addEvent event k = Ok (k', None) →
  ∃ ev obj reason message name kind meta created createdSeconds last lastSeconds count,
    event = Some ev ∧ v1.InvolvedObject ev = Some obj
    ∧ v1.Reason ev = Some reason ∧ v1.Message ev = Some message
    ∧ v1.Name obj = Some name ∧ v1.Kind obj = Some kind
    ∧ v1.Uid obj = Some (objUid k)
    ∧ v1.Metadata ev = Some meta ∧ v1.CreationTimestamp meta = Some created
    ∧ v1.Seconds created = Some createdSeconds
    ∧ v1.LastTimestamp ev = Some last ∧ v1.Seconds last = Some lastSeconds
    ∧ v1.Count ev = Some count
    ∧ k' = {| objUid := objUid k;
              readableKey := name +:+ " " +:+ kind;
              component := component k;
              events := events k ++ [ev];
              timeStamp := Max (timeStamp k) (ofInt64 createdSeconds);
              lastTimestamp := Max (Max (timeStamp k) (ofInt64 createdSeconds))
                                 (ofInt64 lastSeconds);
              countByAction :=
                <[actionKey reason message
                  := wrapInt (default 0 (countByAction k !! actionKey reason message)
                              + count)]> (countByAction k) |}.
Proof.
  unfold addEvent. destruct event as [ev|]; [|done].
  destruct (v1.InvolvedObject ev) as [obj|] eqn:Hobj; [|done].
  destruct (v1.Reason ev) as [reason|] eqn:Hr; [|done].
  destruct (v1.Message ev) as [message|] eqn:Hm; [|done].
  destruct (v1.Name obj) as [name|] eqn:Hn; [|done].
  destruct (v1.Kind obj) as [kind|] eqn:Hk; [|done].
  destruct (v1.Uid obj) as [uid|] eqn:Hu; [|done]. cbn.
  destruct (String.eqb_spec uid (objUid k)) as [->|Hne]; [|done]. cbn.
  destruct (v1.Metadata ev) as [meta|] eqn:Hmeta; [|done]. cbn.
  destruct (v1.CreationTimestamp meta) as [created|] eqn:Hc; [|done]. cbn.
  destruct (v1.Seconds created) as [cs|] eqn:Hcs; [|done]. cbn.
  destruct (v1.LastTimestamp ev) as [last|] eqn:Hl; [|done]. cbn.
  destruct (v1.Seconds last) as [ls|] eqn:Hls; [|done]. cbn.
  destruct (v1.Count ev) as [count|] eqn:Hcount; [|done]. cbn.
  intros [= <-]. by eexists ev, obj, reason, message, name, kind, meta, created, cs, last, ls, count.
Qed.

Lemma addEvent_refused event k k' msg :
  addEvent event k = Ok (k', Some msg) → k' = k.
Proof.
  unfold addEvent. destruct event as [ev|]; [|by intros [= <- _]].
  destruct (v1.InvolvedObject ev) as [obj|]; [|by intros [= <- _]].
  destruct (v1.Reason ev); [|by intros [= <- _]].
  destruct (v1.Message ev); [|by intros [= <- _]].
  destruct (v1.Name obj); [|by intros [= <- _]].
  destruct (v1.Kind obj); [|by intros [= <- _]].
  destruct (v1.Uid obj) as [uid|]; [|done]. cbn.
  destruct (negb (String.eqb uid (objUid k))); [by intros [= <- _]|]. cbn.
  destruct (v1.Metadata ev) as [meta|]; [|done]. cbn.
  destruct (v1.CreationTimestamp meta) as [created|]; [|done]. cbn.
  destruct (v1.Seconds created); [|done]. cbn.
  destruct (v1.LastTimestamp ev) as [last|]; [|done]. cbn.
  destruct (v1.Seconds last); [|done]. cbn.
  destruct (v1.Count ev); done.
Qed.

(** X24: a call of [addEvent] that returns an error leaves the bundle as
    it was, and the error tells which guard refused the event: the event
    or its object is nil; or a reason, a message, a name or a kind is
    nil; or the object is not the one of the bundle. *)
Theorem addEvent_error_keeps_bundle event k k' msg :
  addEvent event k = Ok (k', Some msg) →
  k' = k
  ∧ ((msg = "could not retrieve some parent attributes of the event"
      ∧ (event = None ∨ ∃ ev, event = Some ev ∧ v1.InvolvedObject ev = None))
     ∨ (msg = "could not retrieve some attributes of the event"
        ∧ ∃ ev obj, event = Some ev ∧ v1.InvolvedObject ev = Some obj
            ∧ (v1.Reason ev = None ∨ v1.Message ev = None
               ∨ v1.Name obj = None ∨ v1.Kind obj = None))
     ∨ (∃ ev obj uid, event = Some ev ∧ v1.InvolvedObject ev = Some obj
          ∧ v1.Uid obj = Some uid ∧ uid ≠ objUid k
          ∧ msg = "mismatching Object UIDs: " +:+ uid +:+ " != " +:+ objUid k)).
Proof.
  unfold addEvent. destruct event as [ev|].
  2:{ intros [= <- <-]. split; [done|]. left. by split; [|left]. }
  destruct (v1.InvolvedObject ev) as [obj|] eqn:Hobj.
  2:{ intros [= <- <-]. split; [done|]. left. split; [done|]. right. by exists ev. }
  destruct (v1.Reason ev) as [reason|] eqn:Hr.
  2:{ intros [= <- <-]. split; [done|]. right. left. split; [done|].
      exists ev, obj. tauto. }
  destruct (v1.Message ev) as [message|] eqn:Hm.
  2:{ intros [= <- <-]. split; [done|]. right. left. split; [done|].
      exists ev, obj. tauto. }
  destruct (v1.Name obj) as [name|] eqn:Hn.
  2:{ intros [= <- <-]. split; [done|]. right. left. split; [done|].
      exists ev, obj. tauto. }
  destruct (v1.Kind obj) as [kind|] eqn:Hk.
  2:{ intros [= <- <-]. split; [done|]. right. left. split; [done|].
      exists ev, obj. tauto. }
  destruct (v1.Uid obj) as [uid|] eqn:Hu; [|done]. cbn.
  destruct (String.eqb_spec uid (objUid k)) as [->|Hne]; cbn.
  - destruct (v1.Metadata ev) as [meta|]; [|done]. cbn.
    destruct (v1.CreationTimestamp meta) as [created|]; [|done]. cbn.
    destruct (v1.Seconds created); [|done]. cbn.
    destruct (v1.LastTimestamp ev) as [last|]; [|done]. cbn.
    destruct (v1.Seconds last); [|done]. cbn.
    destruct (v1.Count ev); done.
  - intros [= <- <-]. split; [done|]. right. right. by exists ev, obj, uid.
Qed.

(** X25: the guards of [addEvent] leave six pointers unchecked.  The
    call panics exactly on an event that passes the first two guards and
    has no UID, or has the UID of the bundle and lacks its metadata, its
    creation time, its last time, the seconds of either, or its count. *)
Theorem addEvent_panics_iff event k :
  (∃ msg, addEvent event k = Panic msg)
  ↔ ∃ ev obj, event = Some ev ∧ v1.InvolvedObject ev = Some obj
      ∧ is_Some (v1.Reason ev) ∧ is_Some (v1.Message ev)
      ∧ is_Some (v1.Name obj) ∧ is_Some (v1.Kind obj)
      ∧ (v1.Uid obj = None
         ∨ (v1.Uid obj = Some (objUid k)
            ∧ ((meta ← v1.Metadata ev; created ← v1.CreationTimestamp meta;
                v1.Seconds created) = None
               ∨ (last ← v1.LastTimestamp ev; v1.Seconds last) = None
               ∨ v1.Count ev = None))).
Proof.
  unfold addEvent. split.
  - intros [msg H]. destruct event as [ev|]; [|done].
    destruct (v1.InvolvedObject ev) as [obj|] eqn:Hobj; [|done].
    exists ev, obj. split; [done|]. split; [done|].
    destruct (v1.Reason ev) as [reason|] eqn:Hr; [|done].
    destruct (v1.Message ev) as [message|] eqn:Hm; [|done].
    destruct (v1.Name obj) as [name|] eqn:Hn; [|done].
    destruct (v1.Kind obj) as [kind|] eqn:Hk; [|done].
    split_and!; [done..|].
    destruct (v1.Uid obj) as [uid|] eqn:Hu; [|by left]. right. cbn in H.
    destruct (String.eqb_spec uid (objUid k)) as [->|Hne]; [|done]. split; [done|].
    cbn in H.
    destruct (v1.Metadata ev) as [meta|]; [|by left]. cbn in H |- *.
    destruct (v1.CreationTimestamp meta) as [created|]; [|by left]. cbn in H |- *.
    destruct (v1.Seconds created); [|by left]. cbn in H |- *.
    destruct (v1.LastTimestamp ev) as [last|]; [|right; by left]. cbn in H |- *.
    destruct (v1.Seconds last); [|right; by left]. cbn in H |- *.
    destruct (v1.Count ev); [done|]. right. by right.
  - intros (ev & obj & -> & Hobj & [reason Hr] & [message Hm] & [name Hn] & [kind Hk] & H).
    rewrite Hobj, Hr, Hm, Hn, Hk.
    destruct H as [Hu|[Hu H]]; rewrite Hu; cbn; [by eexists|].
    rewrite String.eqb_refl. cbn.
    destruct (v1.Metadata ev) as [meta|]; cbn in H |- *; [|by eexists].
    destruct (v1.CreationTimestamp meta) as [created|]; cbn in H |- *; [|by eexists].
    destruct (v1.Seconds created); cbn in H |- *; [|by eexists].
    destruct (v1.LastTimestamp ev) as [last|]; cbn in H |- *; [|by eexists].
    destruct (v1.Seconds last); cbn in H |- *; [|by eexists].
    destruct (v1.Count ev); cbn in H |- *; [|by eexists].
    destruct H as [?|[?|?]]; done.
Qed.

Lemma complete_accepted event k k' :
  addEvent event k = Ok (k', None) →
  ∃ ev, event = Some ev ∧ complete (objUid k) ev ∧ events k' = events k ++ [ev]
        ∧ objUid k' = objUid k ∧ component k' = component k.
Proof.
  intros (ev & obj & reason & message & name & kind & meta & created & cs & last & ls
          & count & -> & Hobj & Hr & Hm & Hn & Hk & Hu & Hmeta & Hc & Hcs & Hl & Hls
          & Hcount & ->)%addEvent_accepted.
  exists ev. split; [done|]. split; [|done].
  exists obj, meta, created, last. rewrite Hr, Hm, Hn, Hk, Hcs, Hls, Hcount.
  split_and!; by eauto.
Qed.

(** X26: the bundle keeps the object and the component it was made for,
    and every event it holds is about that object and has every field
    [addEvent] and [formatEvents] read. *)
Theorem built_events_share_uid uid comp k :
  built uid comp k →
  objUid k = uid ∧ component k = comp ∧ Forall (complete uid) (events k).
Proof.
  induction 1 as [|k event k' err Hb (IHu & IHc & IHe) Hadd]; [by split_and!|].
  destruct err as [msg|].
  - apply addEvent_refused in Hadd as ->. by split_and!.
  - apply complete_accepted in Hadd as (ev & -> & Hev & -> & -> & ->).
    split_and!; [done..|]. apply Forall_app. split; [done|].
    apply Forall_singleton. by rewrite <- IHu.
Qed.
End bundle.

Section aggregation.
Import GoText cluster scenarios.





(** X28: after a call of [addEvent] that returned nil, [formatEvents]
    returns an event and no error.  The title names the object of the
    event added last; the aggregation key is the UID of the bundle; the
    host is the one given; the time is the last time seen when [modified]
    is set and the creation time otherwise. *)
Theorem formatEvents_after_addEvent priority checkName formatTime rangeOrder
    event k k' hostname modified :
  addEvent event k = Ok (k', None) →
  ∃ ev obj name kind out,
    event = Some ev ∧ v1.InvolvedObject ev = Some obj
    ∧ v1.Name obj = Some name ∧ v1.Kind obj = Some kind
    ∧ formatEvents priority checkName formatTime rangeOrder hostname modified k'
      = (out, None)
    ∧ metrics.Title out = "Events from the " +:+ name +:+ " " +:+ kind
    ∧ metrics.AggregationKey out = "kubernetes_apiserver:" +:+ objUid k
    ∧ metrics.Host out = hostname
    ∧ metrics.SourceTypeName out = "kubernetes"
    ∧ metrics.Ts out
      = toInt64 (if modified then lastTimestamp k' else timeStamp k').
Proof.
  intros (ev & obj & reason & message & name & kind & meta & created & cs & last & ls
          & count & -> & Hobj & Hr & Hm & Hn & Hk & Hu & Hmeta & Hc & Hcs & Hl & Hls
          & Hcount & ->)%addEvent_accepted.
  exists ev, obj, name, kind. unfold formatEvents. cbn [events].
  rewrite length_app. cbn [length].
  assert ((length (events k) + 1 =? 0)%nat = false) as -> by (apply Nat.eqb_neq; lia).
  destruct modified; eexists; by split_and!.
Qed.

(** X29: [formatEvents] returns the error "no event to export" exactly
    for a bundle on which no call of [addEvent] returned nil, and then
    the event it returns is the zero value. *)
Theorem formatEvents_without_events priority checkName formatTime rangeOrder
    uid comp k hostname modified :
  built uid comp k →
  (formatEvents priority checkName formatTime rangeOrder hostname modified k
   = (metrics.zeroEvent, Some "no event to export")
   ↔ k = newKubernetesEventBundler uid comp)
  ∧ (k ≠ newKubernetesEventBundler uid comp →
     (formatEvents priority checkName formatTime rangeOrder hostname modified k).2 = None).
Proof.
  intros Hb.
  assert (events k = [] → k = newKubernetesEventBundler uid comp) as Hnew.
  { induction Hb as [|k event k' err Hb IH Hadd]; [done|]. destruct err as [msg|].
    - by apply addEvent_refused in Hadd as ->.
    - apply complete_accepted in Hadd as (ev & _ & _ & -> & _).
      by intros [_ [=]]%app_eq_nil. }
  unfold formatEvents. destruct (events k) as [|ev evs] eqn:Hev; cbn.
  - rewrite Hnew by done. split; [done|]. by intros [].
  - assert (k ≠ newKubernetesEventBundler uid comp) as Hne.
    { intros ->. discriminate Hev. }
    split; [|by destruct modified]. split; [|done]. by destruct modified.
Qed.
End aggregation.

(** ** Further instances *)

Section further_instances.
Import samples scenarios.

Lemma order0_permutation (m : gmap string container.DockerTailer) :
  order0 m ≡ₚ elements (dom m).
Proof. reflexivity. Qed.

Lemma keyed_ready : container.keyed (container.tailers ready).
Proof.
  intros k t H.
  change (container.tailers ready) with (∅ : gmap string container.DockerTailer) in H.
  rewrite lookup_empty in H. discriminate.
Qed.

Lemma keyed_tailing : container.keyed (container.tailers tailing).
Proof.
  change (container.tailers tailing)
    with (<["4f5a6b7c8d9e0123" := redisTailer]> (∅ : gmap string container.DockerTailer)).
  apply keyed_insert; [apply keyed_empty|reflexivity].
Qed.

Lemma scan_keeps_healthy_tailer_witness :
  ∃ s', container.scan order0 true (client.Listed [redis]) tailing = Ok s'
        ∧ container.tailers s' !! types.ID redis = Some redisTailer
        ∧ ∃ new, container.calls s' = container.calls tailing ++ new
                 ∧ Forall (λ call, scanning.target call ≠ types.ID redis) new.
Proof.
  eexists. split; [vm_compute; reflexivity|].
  apply (scan_keeps_healthy_tailer order0 true (client.Listed [redis]) tailing _
           redis redisTailer).
  - apply order0_permutation.
  - apply keyed_tailing.
  - vm_compute. reflexivity.
  - apply list_elem_of_singleton. reflexivity.
  - reflexivity.
  - vm_compute. reflexivity.
  - reflexivity.
Defined.

Lemma scan_idempotent_witness :
  ∃ s', container.scan order0 true (client.Listed [redis]) ready = Ok s'
        ∧ container.scan order0 false (client.Listed [redis]) s' = Ok s'.
Proof.
  eexists. split; [vm_compute; reflexivity|].
  apply (scan_idempotent order0 true false (client.Listed [redis]) ready).
  - apply order0_permutation.
  - apply keyed_ready.
  - vm_compute. reflexivity.
Defined.

Lemma scan_calls_follow_mode_witness :
  ∃ s', container.scan order0 false (client.Listed [redis]) ready = Ok s'
        ∧ ∃ new, container.calls s' = container.calls ready ++ new
                 ∧ Forall (scanning.allowed false) new.
Proof.
  eexists. split; [vm_compute; reflexivity|].
  apply (scan_calls_follow_mode order0 false (client.Listed [redis]) ready).
  - apply keyed_ready.
  - vm_compute. reflexivity.
Defined.

Lemma Stop_stops_every_tailer_witness :
  container.tailers (container.Stop order0 tailing) = ∅
  ∧ container.stopRequested (container.Stop order0 tailing) = true.
Proof.
  destruct (Stop_stops_every_tailer order0 tailing) as (H1 & H2 & _).
  - apply order0_permutation.
  - apply keyed_tailing.
  - split; assumption.
Defined.

Lemma scan_listing_failure_witness :
  ∃ s', container.scan order0 true (client.ListError "daemon unreachable") tailing = Ok s'
        ∧ container.tailers s' = ∅.
Proof.
  destruct (scan_listing_failure order0 true "daemon unreachable" tailing)
    as (s' & H1 & H2 & _).
  - apply order0_permutation.
  - reflexivity.
  - eexists. reflexivity.
  - apply keyed_tailing.
  - exists s'. split; assumption.
Defined.

Lemma Start_without_container_source_witness :
  container.Start order0 unreachable (container.New [syslog; nginxLogs] 0)
  = Ok (container.New [syslog; nginxLogs] 0, false).
Proof.
  apply (Start_without_container_source order0 unreachable [syslog; nginxLogs] 0).
  repeat (constructor; [intros H; discriminate H|]). constructor.
Defined.

Lemma Start_launches_after_recovering_witness :
  ∃ s', container.Start order0 reachable (container.New [config.dockerSource "" "" 0] 0)
        = Ok (s', true)
        ∧ ∃ cl, container.NewEnvClient reachable = (Some cl, None)
                ∧ dom (container.tailers s')
                  = container.monitoredIDs [config.dockerSource "" "" 0] [redis].
Proof.
  eexists. split; [vm_compute; reflexivity|].
  destruct (Start_launches_after_recovering order0 reachable
              (container.New [config.dockerSource "" "" 0] 0)
              _ order0_permutation keyed_empty eq_refl)
    as (cl & H1 & _ & _ & H2 & _).
  exists cl. split; [exact H1|exact H2].
Defined.

Lemma more_labels_keep_match_witness :
  container.sourceShouldMonitorContainer byLabel relabelled = true.
Proof.
  apply (more_labels_keep_match byLabel redis relabelled).
  - reflexivity.
  - apply insert_subseteq. vm_compute. reflexivity.
  - vm_compute. reflexivity.
Defined.

Lemma FilesToTail_without_budget_witness :
  (tailer.FilesToTailLogged disk (tailer.NewFileProvider [syslog; nginxLogs] 0) []).1
  = ([], []).
Proof.
  apply (FilesToTail_without_budget disk (tailer.NewFileProvider [syslog; nginxLogs] 0) []).
  cbn. lia.
Defined.

Lemma saturation_warning_witness :
  (tailer.FilesToTailLogged disk (tailer.NewFileProvider [syslog; nginxLogs] 3) []).2 = true
  ↔ 3 ≤ Z.of_nat (length (concat (tailer.contribution disk <$> [syslog; nginxLogs]))).
Proof.
  apply (saturation_warning disk (tailer.NewFileProvider [syslog; nginxLogs] 3) []).
  cbn. lia.
Defined.

Lemma FilesToTail_provenance_witness :
  tailer.Source (tailer.NewFile "/var/log/nginx/access.log" nginxLogs)
  ∈ [syslog; nginxLogs].
Proof.
  destruct (FilesToTail_provenance disk (tailer.NewFileProvider [syslog; nginxLogs] 5)
              (tailer.NewFile "/var/log/nginx/access.log" nginxLogs)) as [H _].
  - apply list_elem_of_In. vm_compute. right. left. reflexivity.
  - exact H.
Defined.

Lemma FilesToTail_prefix_witness :
  tailer.FilesToTail disk (tailer.NewFileProvider [syslog; nginxLogs] 1)
  `prefix_of` tailer.FilesToTail disk (tailer.NewFileProvider [syslog; nginxLogs] 3).
Proof. apply (FilesToTail_prefix disk [syslog; nginxLogs] 1 3). lia. Defined.

Lemma FilesToTail_literal_witness :
  (tailer.FilesToTailLogged disk (tailer.NewFileProvider [syslog; kernLog] 1) []).1
  = ([tailer.NewFile "/var/log/syslog" syslog], []).
Proof.
  apply (FilesToTail_literal disk (tailer.NewFileProvider [syslog; kernLog] 1) []).
  repeat (constructor; [reflexivity|]). constructor.
Defined.

Lemma sound_configured : dispatching.sound configured.
Proof. apply safe_after, Setup_safe; discriminate. Qed.

Lemma sound_subscribed : dispatching.sound subscribed.
Proof.
  apply safe_after, Suscribe_safe; [apply sound_configured|].
  split_and!; vm_compute; discriminate.
Qed.

Lemma sound_looping : dispatching.sound looping.
Proof. apply sound_withRunning, sound_subscribed. Qed.

Lemma sound_stopSent : dispatching.sound stopSent.
Proof. apply safe_after, signalStop_safe, sound_looping. Qed.

Lemma sound_uneven : dispatching.sound uneven.
Proof.
  apply safe_after, Suscribe_safe; [|split_and!; vm_compute; discriminate].
  apply safe_after, dispatchStep_safe, sound_withRunning.
  apply safe_after, Suscribe_safe; [|split_and!; vm_compute; discriminate].
  apply safe_after, Setup_safe; discriminate.
Qed.

(** What the hypotheses on the buffer size and on the timers keep out:
    [Setup] accepts a size of 2^62, and [make] refuses it; and when the
    timer of a send fires first, a listener with room in its buffer is
    unsubscribed: here the only one of a running loop, which then queues
    its own stop signal. *)
Example Suscribe_huge_size_panics :
  docker.Suscribe "a" (docker.after (docker.Setup hugeSize docker.zero))
  = docker.Panicked "makechan: size out of range".
Proof. vm_compute. reflexivity. Qed.

Example timer_first_evicts_with_room :
  ∃ out st,
    docker.listener "a" hurried = Some out
    ∧ dispatching.roomFor (docker.events hurried) out = true
    ∧ docker.dispatchStep (docker.OnData 1%nat) hurried = docker.Done true st
    ∧ docker.listener "a" st = None.
Proof. eexists _, _. split_and!; vm_compute; reflexivity. Qed.

Lemma dispatch_stop_closes_all_witness :
  ∃ st', docker.dispatchStep docker.OnStop stopSent = docker.Done false st'
         ∧ docker.listeners (docker.fan st') = Some ∅
         ∧ docker.running (docker.fan st') = false.
Proof.
  destruct (dispatch_stop_closes_all stopSent) as (st' & H1 & _ & H2 & H3 & _).
  - apply sound_stopSent.
  - eexists. vm_compute. reflexivity.
  - exists st'. split_and!; assumption.
Defined.

Lemma dispatchStep_keeps_sound_witness :
  dispatching.safe (docker.dispatchStep (docker.OnData 2%nat) uneven).
Proof. apply (dispatchStep_keeps_sound (docker.OnData 2%nat) uneven), sound_uneven. Defined.

Lemma operations_keep_sound_witness :
  dispatching.safe (docker.UnsuscribeWithError "a" fanout.ErrWriteTimeout looping)
  ∧ dispatching.safe (docker.Unsuscribe "a" looping)
  ∧ dispatching.safe (docker.Stop looping).
Proof.
  destruct (operations_keep_sound "a" fanout.ErrWriteTimeout looping sound_looping)
    as (_ & _ & _ & H2 & H3 & H4).
  split_and!; assumption.
Defined.

Lemma data_turn_delivers_and_evicts_witness :
  ∃ st', docker.dispatchStep (docker.OnData 2%nat) uneven = docker.Done true st'
         ∧ dispatching.sound st'.
Proof.
  edestruct (data_turn_delivers_and_evicts 2%nat uneven "b") as (st' & H1 & H2 & _).
  - apply sound_uneven.
  - vm_compute. reflexivity.
  - eexists. vm_compute. reflexivity.
  - vm_compute. reflexivity.
  - vm_compute. reflexivity.
  - exists st'. split; assumption.
Defined.



Lemma Stop_twice_waits_witness : docker.Stop stopSent = docker.Blocked stopSent.
Proof.
  apply (Stop_twice_waits looping stopSent).
  - apply sound_looping.
  - vm_compute. reflexivity.
Defined.

Lemma Suscribe_before_loop_starts_witness :
  ∃ r1 r2 st1 st2,
    docker.Suscribe "a" configured = docker.Done r1 st1
    ∧ docker.Suscribe "b" st1 = docker.Done r2 st2
    ∧ docker.dispatchers st2 = S (S (docker.dispatchers configured)).
Proof.
  destruct (Suscribe_before_loop_starts "a" "b" configured)
    as (r1 & r2 & st1 & st2 & H1 & H2 & _ & H3 & _).
  - apply sound_configured.
  - reflexivity.
  - vm_compute. discriminate.
  - vm_compute. discriminate.
  - vm_compute. discriminate.
  - discriminate.
  - reflexivity.
  - reflexivity.
  - exists r1, r2, st1, st2. split_and!; assumption.
Defined.

Lemma built_podScheduled :
  cluster.built "e6417a7f-f566-11e7-9749-0e4863e1cbf4" "default-scheduler" podScheduled.
Proof.
  apply (cluster.built_add _ _ pod (Some scheduled) podScheduled None).
  - apply cluster.built_new.
  - vm_compute. reflexivity.
Qed.

Lemma addEvent_error_keeps_bundle_witness :
  ∃ k' msg, cluster.addEvent (Some stranger) pod = Ok (k', Some msg) ∧ k' = pod.
Proof.
  eexists _, _. split; [vm_compute; reflexivity|].
  destruct (addEvent_error_keeps_bundle (Some stranger) pod _ _ eq_refl) as [H _].
  exact H.
Defined.

Lemma built_events_share_uid_witness :
  Forall (cluster.complete "e6417a7f-f566-11e7-9749-0e4863e1cbf4")
         (cluster.events podScheduled).
Proof.
  destruct (built_events_share_uid _ _ _ built_podScheduled) as (_ & _ & H). exact H.
Defined.


Lemma formatEvents_after_addEvent_witness :
  ∃ out,
    cluster.formatEvents "normal" "kubernetes_apiserver" (λ _, "now") keys
      "ip-10-0-0-54" false podScheduled = (out, None)
    ∧ metrics.Title out = "Events from the dca-789976f5d7-2ljx6 Pod".
Proof.
  destruct (formatEvents_after_addEvent "normal" "kubernetes_apiserver" (λ _, "now") keys
              (Some scheduled) pod podScheduled "ip-10-0-0-54" false)
    as (ev & obj & name & kind & out & Hev & Hobj & Hname & Hkind & H1 & H2 & _).
  - vm_compute. reflexivity.
  - exists out. split; [exact H1|]. rewrite H2.
    injection Hev as <-. cbn in Hobj. injection Hobj as <-.
    cbn in Hname, Hkind. injection Hname as <-. injection Hkind as <-. reflexivity.
Defined.

Lemma formatEvents_without_events_witness :
  (cluster.formatEvents "normal" "kubernetes_apiserver" (λ _, "now") keys
     "ip-10-0-0-54" true podScheduled).2 = None.
Proof.
  destruct (formatEvents_without_events "normal" "kubernetes_apiserver" (λ _, "now") keys
              _ _ podScheduled "ip-10-0-0-54" true built_podScheduled) as [_ H].
  apply H. vm_compute. discriminate.
Defined.
End further_instances.
